(** * pixeldrop: the weighted loot roller

    A shallow embedding of the loot-rolling core of the repository:
    - [src/assets/pools.ts]      the pool table ([LootEntry], [LootPool], [lootConfig]);
    - [src/App.tsx]              [toPercentage] and the pure parts of the [App]
                                 component (module [App]);
    - [src/lib/math.ts]          the math utilities (module [MathLib]) and, in
                                 its second half, the random utilities of
                                 [lib/random.ts] ([randomInt], module [RandomLib]);
    - [src/hooks/useLoot.tsx]    the first version of the hook (module [Simple]);
    - the chest-aware later version of [useLoot.tsx] (module [Chest]).

    Conventions of the embedding.
    - A JavaScript number is an IEEE binary64 double.  A finite double is the
      rational [Q] it denotes; every [+], [-], [*] and [/] of the source whose
      result need not be a double again is followed by [fl], the rounding to
      the nearest double, ties to even (module [Binary64]).  Overflow to an
      infinity is outside the model: the exponent range of [fl] is unbounded
      above.
    - Weights, roll counts and the roll counter are integer-valued numbers
      (every literal of [pools.ts] and [CHEST_CONFIGS] is an integer,
      [Math.round] and [Math.floor] return integers): they are [Z], and sums
      of them are exact, as they are for doubles below 2^53.
    - Reading a property of a plain object also finds what the object inherits
      from [Object.prototype]; such a member is not a number ([NotNumber]).
    - [Math.random()] is an input: every function that calls it takes the value
      it would return as an argument ([rnd], a double with 0 <= rnd < 1).
    - A [useRef] cell and the tables a hook reads are fields of an explicit
      roller state that every operation takes and gives back.
    - [null] is [None]; a thrown exception is [Throw]. *)

From Stdlib Require Import ZArith QArith Qround Qminmax Qpower Lia Lqa.
From stdpp Require Import base option list strings pretty gmap sorting.

Open Scope Z_scope.

(* ===================================================================== *)
(** ** IEEE binary64                                                      *)
(* ===================================================================== *)

Module Binary64.

Definition pow2 (e : Z) : Q := (2 ^ e)%Q.

(** The exponent of the binade of a positive [x]: [2^mag <= x < 2^(mag+1)]. *)
Definition mag (x : Q) : Z :=
  let k := Z.log2 (Qnum x) - Z.log2 (Zpos (Qden x)) in
  if Qle_bool (pow2 k) x then k else k - 1.

(** The nearest integer, the even one of the two on a tie. *)
Definition roundEven (x : Q) : Z :=
  let f := Qfloor x in
  match Qcompare (x - inject_Z f) (1 # 2) with
  | Lt => f
  | Gt => f + 1
  | Eq => if Z.even f then f else f + 1
  end.

(** The exponent of the last place of the doubles around [x]: 53 significant
    bits, and no finer than the subnormal spacing [2^-1074]. *)
Definition ulpExp (x : Q) : Z := Z.max (mag x - 52) (-1074).

Definition flPos (x : Q) : Q :=
  let e := ulpExp x in (inject_Z (roundEven (x / pow2 e)) * pow2 e)%Q.

(** The double nearest to [x] (sign and magnitude; ties to even). *)
Definition fl (x : Q) : Q :=
  match Qcompare x 0 with
  | Gt => flPos x
  | Lt => (- flPos (- x))%Q
  | Eq => 0%Q
  end.

(** [x] is (the value of) a double. *)
Definition isDouble (x : Q) : Prop := (fl x == x)%Q.

End Binary64.
Import Binary64.

(* ===================================================================== *)
(** ** JavaScript numbers and built-ins used by the roller                *)
(* ===================================================================== *)

(** A JavaScript number as far as [toPercentage] can produce one: a finite
    value or an infinity (a nonzero value divided by a zero total).  [NaN]
    cannot arise there: the only 0/0 is cut off by the [value === 0] test. *)
Inductive number : Type :=
  | Finite (q : Q)
  | PosInfinity
  | NegInfinity.

Inductive Exception : Type :=
  | Error (message : string)
  | RangeError (message : string).

Inductive Completion (A : Type) : Type :=
  | Normal (value : A)
  | Throw (e : Exception).
Arguments Normal {A} value.
Arguments Throw {A} e.

(** [Math.round]: the nearest integer, halves towards plus infinity. *)
Definition Math_round (x : Q) : Z := Qfloor (x + (1 # 2)).

(** [x.toFixed(2)], as the number of hundredths it prints: the integer [n]
    with [n / 100] nearest to [x], the larger one on a tie; a negative [x] is
    printed as the sign followed by the digits of [-x]. *)
Definition toFixed2 (x : Q) : Z :=
  if Qle_bool 0 x then Qfloor (x * 100 + (1 # 2))
  else - Qfloor ((- x) * 100 + (1 # 2)).

(** [Number.parseFloat] of a string printed by [toFixed(2)]: the double
    nearest to the decimal. *)
Definition parseFloat2 (hundredths : Z) : Q :=
  Qred (fl (inject_Z hundredths / 100)).

(** [new Array(len)]: a length that is not an unsigned 32-bit integer raises
    a [RangeError]. *)
Definition newArray (len : Q) : Completion nat :=
  if Qeq_bool (inject_Z (Qfloor len)) len && Qle_bool 0 len
     && negb (Qle_bool 4294967296 len)
  then Normal (Z.to_nat (Qfloor len))
  else Throw (RangeError "Invalid array length").

(** The members every plain object inherits from [Object.prototype]. *)
Definition ObjectPrototype : list string :=
  [ "constructor"; "__defineGetter__"; "__defineSetter__"; "hasOwnProperty";
    "__lookupGetter__"; "__lookupSetter__"; "isPrototypeOf";
    "propertyIsEnumerable"; "toString"; "valueOf"; "__proto__";
    "toLocaleString" ].

(** What a weight can be once it has been read from a plain object: an
    integer, or a value that is no number.  [NotNumber] stands for a function
    or an object inherited from [Object.prototype], for a string that [+]
    builds from one, and for [NaN]: arithmetic on such a value gives such a
    value again, [=== 0] is false of it and so is every [<=] with it. *)
Inductive Value : Type :=
  | Number (z : Z)
  | NotNumber.

(** [object[key]] on a plain object whose own properties are numbers:
    the own property, else the inherited member, else [undefined]. *)
Definition getProperty (object : gmap string Z) (key : string) : option Value :=
  match object !! key with
  | Some w => Some (Number w)
  | None => if decide (key ∈ ObjectPrototype) then Some NotNumber else None
  end.

(** [acc + weight] *)
Definition plus (acc w : Value) : Value :=
  match acc, w with
  | Number a, Number b => Number (a + b)
  | _, _ => NotNumber
  end.

(** [sum === 0] *)
Definition isZero (sum : Value) : bool :=
  match sum with
  | Number s => s =? 0
  | NotNumber => false
  end.

(** [Math.random() * sum]; [None] is [NaN]. *)
Definition timesSample (rnd : Q) (sum : Value) : option Q :=
  match sum with
  | Number s => Some (fl (rnd * inject_Z s))
  | NotNumber => None
  end.

(** [roll <= current] *)
Definition lessEq (roll : option Q) (current : Value) : bool :=
  match roll, current with
  | Some q, Number c => Qle_bool q (inject_Z c)
  | _, _ => false
  end.

(* ===================================================================== *)
(** ** src/assets/pools.ts                                                *)
(* ===================================================================== *)

Record LootEntry : Type := { name : string; weight : Z }.

(** The pool's own [name] field is [poolName] here, [name] being the entry's. *)
Record LootPool : Type := { poolName : string; entries : list LootEntry }.

Record LootConfig : Type := { pools : list LootPool }.

Definition rarityPool : LootPool :=
  {| poolName := "rarity";
     entries :=
       [ {| name := "common"; weight := 6000 |};
         {| name := "uncommon"; weight := 2500 |};
         {| name := "rare"; weight := 1000 |};
         {| name := "epic"; weight := 400 |};
         {| name := "legendary"; weight := 90 |};
         {| name := "mythic"; weight := 10 |} ] |}.

Definition lootConfig : LootConfig := {| pools := [ rarityPool ] |}.

(* ===================================================================== *)
(** ** src/App.tsx and src/lib/math.ts                                    *)
(* ===================================================================== *)

(** [Number.parseFloat((value === 0 ? 0 : (value / total) * 100).toFixed(2))] *)
Definition toPercentage (value total : Z) : number :=
  if value =? 0 then Finite (parseFloat2 (toFixed2 0))
  else if total =? 0 then (if 0 <? value then PosInfinity else NegInfinity)
  else Finite (parseFloat2
                 (toFixed2 (fl (fl (inject_Z value / inject_Z total) * 100)))).

(** [randomInt] of [lib/random.ts], which the hooks import; its text is the
    second half of [src/lib/math.ts]:
    [Math.floor(Math.random() * (maxFloor - minCeil + 1)) + minCeil]. *)
Definition randomInt (min max : Q) (rnd : Q) : Z :=
  let minCeil := Qceiling min in
  let maxFloor := Qfloor max in
  Qfloor (fl (rnd * inject_Z (maxFloor - minCeil + 1))) + minCeil.

(** [entries.reduce((acc, entry) => acc + entry.weight, 0)] *)
Definition sumWeights (es : list LootEntry) : Z :=
  fold_left (fun acc entry => acc + weight entry) es 0.

(** The [getLootChances] reducer: [table[entry.name] = ...; return table].
    Assigning to ["__proto__"] runs the setter inherited from
    [Object.prototype], which ignores a number: the table gets no such key. *)
Definition setChance (chance : Z -> number)
    (table : gmap string number) (entry : LootEntry) : gmap string number :=
  if decide (name entry = "__proto__") then table
  else <[ name entry := chance (weight entry) ]> table.

(* ===================================================================== *)
(** ** src/hooks/useLoot.tsx, first version                               *)
(* ===================================================================== *)

Module Simple.

Definition POOL_BASE_WEIGHT : Z := 10000.
Definition MAX_ROLL_COUNT : Z := 16.

(** What a mounted hook holds: the pool it was given and the [useRef]
    counter.  [pool = None] is a missing pool (or one without [entries]),
    the case behind every [!pool?.entries] test. *)
Record Roller : Type := { pool : option LootPool; totalRollsRef : Z }.

Definition poolSum (p : option LootPool) : Z :=
  match p with
  | None => 0
  | Some p => sumWeights (entries p)
  end.

Definition useLoot (p : option LootPool) : Completion Roller :=
  if POOL_BASE_WEIGHT <? poolSum p
  then Throw (Error ("Pool sum (" +:+ pretty (poolSum p)
                     +:+ ") exceeds base weight ("
                     +:+ pretty POOL_BASE_WEIGHT +:+ ")"))
  else Normal {| pool := p; totalRollsRef := 0 |}.

Definition getPoolName (r : Roller) : string :=
  match pool r with
  | Some p => poolName p
  | None => "Unknow Pool"
  end.

Definition toPercentageChance (r : Roller) (weight : Z) : number :=
  toPercentage weight (poolSum (pool r)).

Definition getLootChances (r : Roller) : gmap string number :=
  match pool r with
  | None => ∅
  | Some p => fold_left (setChance (toPercentageChance r)) (entries p) ∅
  end.

(** The loop [for (const entry of ...) { current += entry.weight;
    if (roll <= current) return entry.name }] followed by [return null]. *)
Fixpoint walk (roll : Q) (current : Z) (es : list LootEntry) : option string :=
  match es with
  | [] => None
  | entry :: es' =>
      let current := current + weight entry in
      if Qle_bool roll (inject_Z current) then Some (name entry)
      else walk roll current es'
  end.

(** [totalRollsRef.current += 1] *)
Definition countRoll (r : Roller) : Roller :=
  {| pool := pool r; totalRollsRef := totalRollsRef r + 1 |}.

Definition getLoot (rnd : Q) (r : Roller) : option string * Roller :=
  match pool r with
  | None => (None, r)
  | Some p =>
      if (length (entries p) =? 0)%nat then (None, r)
      else if poolSum (pool r) =? 0 then (None, r)
      else
        let roll := fl (rnd * inject_Z (poolSum (pool r))) in
        let r := countRoll r in
        (walk roll 0 (entries p), r)
  end.

(** [new Array(n).fill(0).map(() => getLoot())]: [n] draws one after the
    other; draw [i] sees the sample [rnds i]. *)
Fixpoint mapGetLoot (n i : nat) (rnds : nat -> Q) (r : Roller)
  : list (option string) * Roller :=
  match n with
  | O => ([], r)
  | S n' =>
      let '(item, r) := getLoot (rnds i) r in
      let '(items, r) := mapGetLoot n' (S i) rnds r in
      (item :: items, r)
  end.

(** [.filter((item) => item !== null)] *)
Definition filterNotNull (items : list (option string)) : list string :=
  omap id items.

Definition getLoots (max : option Q) (rndCount : Q) (rnds : nat -> Q)
    (r : Roller) : Completion (list string) * Roller :=
  if match max with Some m => Qle_bool m 0 | None => false end then (Normal [], r)
  else
    let reroll :=
      randomInt 1 (default (inject_Z MAX_ROLL_COUNT) max) rndCount in
    match newArray (inject_Z reroll) with
    | Throw e => (Throw e, r)
    | Normal n =>
        let '(items, r) := mapGetLoot n 0 rnds r in
        (Normal (filterNotNull items), r)
    end.

Definition getRollCount (r : Roller) : Z := totalRollsRef r.

End Simple.

(* ===================================================================== *)
(** ** useLoot.tsx, chest-aware version                                   *)
(* ===================================================================== *)

Module Chest.

Definition POOL_BASE_WEIGHT : Z := 10000.
Definition MAX_ROLL_COUNT : Z := 10.

Inductive ChestType : Type := normal | rare | epic.

Record ChestConfig : Type := {
  excludeRarities : list string;
  maxRolls : Z;
  weightOverrides : option (gmap string Z)
}.

Definition CHEST_CONFIGS (chestType : ChestType) : ChestConfig :=
  match chestType with
  | normal =>
      {| excludeRarities := []; maxRolls := MAX_ROLL_COUNT;
         weightOverrides := None |}
  | rare =>
      {| excludeRarities := ["common"; "uncommon"]; maxRolls := 3;
         weightOverrides :=
           Some (<["rare" := 5500]> (<["epic" := 3000]>
                (<["legendary" := 1400]> (<["mythic" := 100]> ∅)))) |}
  | epic =>
      {| excludeRarities := ["common"; "uncommon"; "rare"]; maxRolls := 2;
         weightOverrides :=
           Some (<["epic" := 6500]> (<["legendary" := 3200]>
                (<["mythic" := 300]> ∅))) |}
  end.

(** What a mounted hook holds and reads: the pool it was given, the
    module-level chest table, and the [useRef] counter. *)
Record Roller : Type := {
  pool : option LootPool;
  chestConfigs : ChestType -> ChestConfig;
  totalRollsRef : Z
}.

Definition poolSum (p : option LootPool) : Z :=
  match p with
  | None => 0
  | Some p => sumWeights (entries p)
  end.

Definition useLoot (p : option LootPool) : Completion Roller :=
  if POOL_BASE_WEIGHT <? poolSum p
  then Throw (Error ("Pool sum (" +:+ pretty (poolSum p)
                     +:+ ") exceeds base weight ("
                     +:+ pretty POOL_BASE_WEIGHT +:+ ")"))
  else Normal {| pool := p; chestConfigs := CHEST_CONFIGS;
                 totalRollsRef := 0 |}.

Definition getPoolName (r : Roller) : string :=
  match pool r with
  | Some p => poolName p
  | None => "Unknow Pool"
  end.

Definition toPercentageChance (r : Roller) (weight : Z) : number :=
  toPercentage weight (poolSum (pool r)).

Definition getLootChances (r : Roller) : gmap string number :=
  match pool r with
  | None => ∅
  | Some p => fold_left (setChance (toPercentageChance r)) (entries p) ∅
  end.

Definition RARE_PLUS_NAMES : list string :=
  ["rare"; "epic"; "legendary"; "mythic"].

(** An entry as a draw reweights it: [{ ...e, weight: ... }]. *)
Record Entry : Type := { entryName : string; entryWeight : Value }.

(** [pool.entries.filter((e) => !config.excludeRarities.includes(e.name))] *)
Definition filterEntries (config : ChestConfig) (es : list LootEntry)
  : list LootEntry :=
  filter (fun e => name e ∉ excludeRarities config) es.

(** [config.weightOverrides ? filteredEntries.map((e) => ({ ...e,
    weight: config.weightOverrides![e.name] ?? e.weight })) : [...filteredEntries]] *)
Definition applyOverrides (config : ChestConfig) (filteredEntries : list LootEntry)
  : list Entry :=
  match weightOverrides config with
  | Some overrides =>
      map (fun e => {| entryName := name e;
                       entryWeight := default (Number (weight e))
                                        (getProperty overrides (name e)) |})
          filteredEntries
  | None =>
      map (fun e => {| entryName := name e; entryWeight := Number (weight e) |})
          filteredEntries
  end.

(** [Math.round(e.weight * rarityBoost)] *)
Definition boost (w : Value) (rarityBoost : Q) : Value :=
  match w with
  | Number z => Number (Math_round (fl (inject_Z z * rarityBoost)))
  | NotNumber => NotNumber
  end.

(** [if (rarityBoost > 1) entries = entries.map((e) => ({ ...e, weight:
    RARE_PLUS_NAMES.includes(e.name) ? Math.round(e.weight * rarityBoost) : e.weight }))] *)
Definition applyBoost (rarityBoost : Q) (es : list Entry) : list Entry :=
  if negb (Qle_bool rarityBoost 1) then
    map (fun e => {| entryName := entryName e;
                     entryWeight := if decide (entryName e ∈ RARE_PLUS_NAMES)
                                    then boost (entryWeight e) rarityBoost
                                    else entryWeight e |})
        es
  else es.

(** [entries.reduce((acc, e) => acc + e.weight, 0)] *)
Definition sumEntries (es : list Entry) : Value :=
  fold_left (fun acc e => plus acc (entryWeight e)) es (Number 0).

(** [for (const entry of entries) { current += entry.weight;
    if (roll <= current) return entry.name }] followed by [return null]. *)
Fixpoint walk (roll : option Q) (current : Value) (es : list Entry) : option string :=
  match es with
  | [] => None
  | entry :: es' =>
      let current := plus current (entryWeight entry) in
      if lessEq roll current then Some (entryName entry)
      else walk roll current es'
  end.

(** [totalRollsRef.current += 1] *)
Definition countRoll (r : Roller) : Roller :=
  {| pool := pool r; chestConfigs := chestConfigs r;
     totalRollsRef := totalRollsRef r + 1 |}.

(** [getLoot(chestType = "normal", rarityBoost = 1)], with both arguments
    given. *)
Definition getLoot (chestType : ChestType) (rarityBoost : Q) (rnd : Q)
    (r : Roller) : option string * Roller :=
  match pool r with
  | None => (None, r)
  | Some p =>
      if (length (entries p) =? 0)%nat then (None, r)
      else
        let config := chestConfigs r chestType in
        let filteredEntries := filterEntries config (entries p) in
        if (length filteredEntries =? 0)%nat then (None, r)
        else
          let es := applyBoost rarityBoost (applyOverrides config filteredEntries) in
          let sum := sumEntries es in
          if isZero sum then (None, r)
          else
            let roll := timesSample rnd sum in
            let r := countRoll r in
            (walk roll (Number 0) es, r)
  end.

Record Options : Type := {
  max : option Q;
  chestType : option ChestType;
  multiplier : option Q;
  rarityBoost : option Q
}.

(** [options ?? {}] *)
Definition noOptions : Options :=
  {| max := None; chestType := None; multiplier := None; rarityBoost := None |}.

(** [new Array(n).fill(0).map(() => getLoot(chestType, rarityBoost))]:
    [n] draws one after the other; draw [i] sees the sample [rnds i]. *)
Fixpoint mapGetLoot (n i : nat) (chestType : ChestType) (rarityBoost : Q)
    (rnds : nat -> Q) (r : Roller) : list (option string) * Roller :=
  match n with
  | O => ([], r)
  | S n' =>
      let '(item, r) := getLoot chestType rarityBoost (rnds i) r in
      let '(items, r) := mapGetLoot n' (S i) chestType rarityBoost rnds r in
      (item :: items, r)
  end.

(** [.filter((item) => item !== null)] *)
Definition filterNotNull (items : list (option string)) : list string :=
  omap id items.

(** [maxRolls] of a batch: [max ?? config.maxRolls]. *)
Definition resolveMaxRolls (options : option Options) (r : Roller) : Q :=
  let o := default noOptions options in
  let config := chestConfigs r (default normal (chestType o)) in
  default (inject_Z (maxRolls config)) (max o).

(** [baseCount] of a batch: [randomInt(1, maxRolls)]. *)
Definition baseCount (options : option Options) (rndCount : Q) (r : Roller) : Z :=
  randomInt 1 (resolveMaxRolls options r) rndCount.

(** [reroll] of a batch whose [maxRolls] is positive:
    [Math.min(Math.round(baseCount * multiplier), maxRolls * 2)]. *)
Definition rerollCount (options : option Options) (rndCount : Q) (r : Roller) : Q :=
  let o := default noOptions options in
  let maxRolls := resolveMaxRolls options r in
  let baseCount := baseCount options rndCount r in
  Qmin (inject_Z (Math_round (fl (inject_Z baseCount * default 1%Q (multiplier o)))))
       (fl (maxRolls * 2)).

(** [getLoots] up to the array that [.map] builds, before [.filter]: the
    result of every single draw the batch performs, in draw order. *)
Definition drawLoots (options : option Options) (rndCount : Q) (rnds : nat -> Q)
    (r : Roller) : Completion (list (option string)) * Roller :=
  let o := default noOptions options in
  let chestType := default normal (chestType o) in
  let rarityBoost := default 1%Q (rarityBoost o) in
  let maxRolls := resolveMaxRolls options r in
  if Qle_bool maxRolls 0 then (Normal [], r)
  else
    let reroll := rerollCount options rndCount r in
    match newArray reroll with
    | Throw e => (Throw e, r)
    | Normal n =>
        let '(items, r) := mapGetLoot n 0 chestType rarityBoost rnds r in
        (Normal items, r)
    end.

Definition getLoots (options : option Options) (rndCount : Q) (rnds : nat -> Q)
    (r : Roller) : Completion (list string) * Roller :=
  match drawLoots options rndCount rnds r with
  | (Normal items, r) => (Normal (filterNotNull items), r)
  | (Throw e, r) => (Throw e, r)
  end.

Definition getRollCount (r : Roller) : Z := totalRollsRef r.

(** A call of one of the operations the hook returns, with the samples
    [Math.random()] yields during it. *)
Inductive Call : Type :=
  | CallGetPoolName
  | CallGetLootChances
  | CallGetLoot (chestType : ChestType) (rarityBoost : Q) (rnd : Q)
  | CallGetLoots (options : option Options) (rndCount : Q) (rnds : nat -> Q)
  | CallGetRollCount.

(** The roller after a call (a call that throws leaves what it had done). *)
Definition exec (c : Call) (r : Roller) : Roller :=
  match c with
  | CallGetPoolName => r
  | CallGetLootChances => r
  | CallGetLoot chestType rarityBoost rnd => snd (getLoot chestType rarityBoost rnd r)
  | CallGetLoots options rndCount rnds => snd (getLoots options rndCount rnds r)
  | CallGetRollCount => r
  end.

Definition execAll (cs : list Call) (r : Roller) : Roller :=
  fold_left (fun r c => exec c r) cs r.

End Chest.

(* ===================================================================== *)
(** ** Vocabulary of the specification                                    *)
(* ===================================================================== *)

(** A value [Math.random()] can return: a double of [[0, 1)]. *)
Definition unitSample (rnd : Q) : Prop :=
  (0 <= rnd)%Q /\ (rnd < 1)%Q /\ isDouble rnd.

(** The entries of a pool as the hook sees them; none for a missing pool. *)
Definition poolEntries (p : option LootPool) : list LootEntry :=
  match p with
  | Some p => entries p
  | None => []
  end.

(** The cumulative weight total at entry [i]: the weights of entries [0..i]. *)
Definition cumulative (es : list LootEntry) (i : nat) : Z :=
  sumWeights (take (S i) es).

(** The data model's [weight: integer >= 0]. *)
Definition nonnegWeights (es : list LootEntry) : Prop :=
  Forall (fun e => 0 <= weight e) es.

(** Entry names identify the entries of a pool. *)
Definition distinctNames (es : list LootEntry) : Prop :=
  NoDup (name <$> es).

(** No entry is named after a member of [Object.prototype]. *)
Definition plainNames (es : list LootEntry) : Prop :=
  Forall (fun e => name e ∉ ObjectPrototype) es.

(** The spec's "round(x, 2 decimal places)", on the exact value. *)
Definition roundHundredths (x : Q) : Q :=
  (inject_Z (Math_round (x * 100)) / 100)%Q.

(** The spec's percentage of an entry:
    [round(weight / poolSum * 100, 2 decimal places)]. *)
Definition specChance (weight poolSum : Z) : Q :=
  roundHundredths (inject_Z weight / inject_Z poolSum * 100).

(** A percentage [x] that is not within [2^-36] hundredths of the middle
    between two hundredths, where rounding to two decimals has a tie. *)
Definition awayFromTie (x : Q) : Prop :=
  let a := (x * 100)%Q in
  let f := (a - inject_Z (Qfloor a))%Q in
  (f < (1 # 2) - pow2 (-36))%Q \/ ((1 # 2) + pow2 (-36) < f)%Q.

Module ChestSpec.
Import Chest.

(** A replacement weight is a weight: an integer [>= 0]. *)
Definition nonnegOverrides (config : ChestConfig) : Prop :=
  forall overrides, weightOverrides config = Some overrides ->
    map_Forall (fun _ w => 0 <= w) overrides.

Definition wellFormed (r : Roller) : Prop :=
  nonnegWeights (poolEntries (pool r)) /\
  forall chestType, nonnegOverrides (chestConfigs r chestType).

(** An entry of the pool as a draw holds it when it leaves its weight alone. *)
Definition numeric (e : LootEntry) : Entry :=
  {| entryName := name e; entryWeight := Number (weight e) |}.

(** Step 3 of a single draw: the override of the entry if the chest
    defines overrides and has one for it, its own weight otherwise. *)
Definition overriddenWeight (config : ChestConfig) (e : LootEntry) : Z :=
  match weightOverrides config with
  | Some overrides =>
      match overrides !! name e with
      | Some w => w
      | None => weight e
      end
  | None => weight e
  end.

(** Step 4 of a single draw, on a weight [w] that step 3 left: the product
    with [rarityBoost], a double, rounded to the nearest integer. *)
Definition boostedWeight (rarityBoost : Q) (n : string) (w : Z) : Z :=
  if Qlt_le_dec 1 rarityBoost then
    if decide (n ∈ ["rare"; "epic"; "legendary"; "mythic"])
    then Math_round (fl (inject_Z w * rarityBoost))
    else w
  else w.

(** The filtered and reweighted entries of a single draw, by steps 2 to 4
    of the spec. *)
Definition eligibleEntries (r : Roller) (chestType : ChestType) (rarityBoost : Q)
  : list LootEntry :=
  let config := chestConfigs r chestType in
  map (fun e => {| name := name e;
                   weight := boostedWeight rarityBoost (name e)
                               (overriddenWeight config e) |})
      (filterEntries config (poolEntries (pool r))).

(** The entries a single draw sums and walks, as the code computes them. *)
Definition adjustedEntries (r : Roller) (chestType : ChestType) (rarityBoost : Q)
  : list Entry :=
  let config := chestConfigs r chestType in
  applyBoost rarityBoost
    (applyOverrides config (filterEntries config (poolEntries (pool r)))).

(** Successive single draws, each with its own arguments and sample. *)
Fixpoint getLootEach (calls : list (ChestType * Q * Q)) (r : Roller)
  : list (option string) * Roller :=
  match calls with
  | [] => ([], r)
  | (chestType, rarityBoost, rnd) :: calls' =>
      let '(item, r) := getLoot chestType rarityBoost rnd r in
      let '(items, r) := getLootEach calls' r in
      (item :: items, r)
  end.

(** The [n] single draws of a batch: the same chest and boost, the samples
    in order. *)
Definition batchCalls (chestType : ChestType) (rarityBoost : Q) (rnds : nat -> Q)
    (n : nat) : list (ChestType * Q * Q) :=
  map (fun i => (chestType, rarityBoost, rnds i)) (seq 0 n).




(** The roller that [useLoot(lootConfig.pools[0])] mounts. *)
Definition rarityRoller : Roller :=
  {| pool := Some rarityPool; chestConfigs := CHEST_CONFIGS;
     totalRollsRef := 0 |}.



(** [{ chestType }], [{ multiplier }] and [{ max }] as the argument of
    [getLoots]. *)
Definition withChest (chestType : ChestType) : option Options :=
  Some {| max := None; chestType := Some chestType;
          multiplier := None; rarityBoost := None |}.


Definition withMax (max : Q) : option Options :=
  Some {| max := Some max; chestType := None;
          multiplier := None; rarityBoost := None |}.

(** The two hooks hold the same pool and counter, and the chest-aware one
    reads the table it was compiled with. *)
Definition sameRoller (rs : Simple.Roller) (rc : Roller) : Prop :=
  Simple.pool rs = pool rc /\
  Simple.totalRollsRef rs = totalRollsRef rc /\
  chestConfigs rc = CHEST_CONFIGS.

End ChestSpec.

(* ===================================================================== *)
(** ** src/lib/math.ts                                                    *)
(* ===================================================================== *)

(** [array[index]] read with an integer index: [undefined] out of range. *)
Definition arrayGet {T : Type} (array : list T) (index : Z) : option T :=
  if index <? 0 then None else array !! Z.to_nat index.

(** A number whose sums and differences with another such number stay below
    the largest double. *)
Definition inRange (x : Q) : Prop := (- pow2 1022 <= x)%Q /\ (x <= pow2 1022)%Q.

Module MathLib.

(** [Math.min(Math.max(value, min), max)] *)
Definition clamp (value min max : Q) : Q := Qmin (Qmax value min) max.

(** [start + (end - start) * t] *)
Definition lerp (start end_ t : Q) : Q :=
  fl (start + fl (fl (end_ - start) * t)).

(** [if (start === end) return 0; return (value - start) / (end - start)] *)
Definition invLerp (start end_ value : Q) : Q :=
  if Qeq_bool start end_ then 0%Q
  else fl (fl (value - start) / fl (end_ - start)).

Definition normalize (value min max : Q) : Q := invLerp min max value.

Definition remap (value inMin inMax outMin outMax : Q) : Q :=
  let t := invLerp inMin inMax value in
  lerp outMin outMax t.

(** [const factor = 10 ** decimals; return Math.round(value * factor) / factor] *)
Definition roundTo (value : Q) (decimals : nat) : Q :=
  let factor := fl (inject_Z (10 ^ Z.of_nat decimals)) in
  fl (inject_Z (Math_round (fl (value * factor))) / factor).

Definition distanceSquared (x1 y1 x2 y2 : Q) : Q :=
  let dx := fl (x2 - x1) in
  let dy := fl (y2 - y1) in
  fl (fl (dx * dx) + fl (dy * dy)).


(** [const x = clamp(t, 0, 1); return x * x * (3 - 2 * x)] *)
Definition smoothstep (t : Q) : Q :=
  let x := clamp t 0 1 in
  fl (fl (x * x) * fl (3 - fl (2 * x))).

End MathLib.

(* ===================================================================== *)
(** ** src/lib/math.ts: the random utilities                               *)
(* ===================================================================== *)

Module RandomLib.


(** [if (array.length === 0) return undefined;
     return array[Math.floor(Math.random() * array.length)]] *)
Definition pick {T : Type} (array : list T) (rnd : Q) : option T :=
  if (length array =? 0)%nat then None
  else arrayGet array (Qfloor (fl (rnd * inject_Z (Z.of_nat (length array))))).

(** [[result[i], result[j]] = [result[j], result[i]]] for indices inside the
    array, the only ones a sample of [Math.random()] gives; outside of it the
    array is left alone here. *)
Definition swap {T : Type} (i : nat) (j : Z) (result : list T) : list T :=
  match arrayGet result j, result !! i with
  | Some rj, Some ri => <[Z.to_nat j := ri]> (<[i := rj]> result)
  | _, _ => result
  end.

(** [for (let i = ...; i > 0; i--) { const j = Math.floor(Math.random() * (i + 1));
    swap }], entered with index [i]; the iteration at index [i] sees the
    sample [rnds i]. *)
Fixpoint shuffleFrom {T : Type} (i : nat) (rnds : nat -> Q) (result : list T)
  : list T :=
  match i with
  | O => result
  | S i' =>
      let j := Qfloor (fl (rnds i * inject_Z (Z.of_nat i + 1))) in
      shuffleFrom i' rnds (swap i j result)
  end.

Definition shuffle {T : Type} (array : list T) (rnds : nat -> Q) : list T :=
  shuffleFrom (length array - 1) rnds array.

(** [Math.random() < probability] *)
Definition chance (probability rnd : Q) : bool := negb (Qle_bool probability rnd).

(** [Math.random() < 0.5 ? -1 : 1] *)
Definition randomSign (rnd : Q) : Z := if negb (Qle_bool (1 # 2) rnd) then -1 else 1.

Definition randomBool (rnd : Q) : bool := negb (Qle_bool (1 # 2) rnd).

(** The 32-bit integer conversions behind [>>>], [^], [|] and [Math.imul]. *)
Definition ToUint32 (x : Z) : Z := x mod 2 ^ 32.

Definition ToInt32 (x : Z) : Z :=
  let u := x mod 2 ^ 32 in
  if u <? 2 ^ 31 then u else u - 2 ^ 32.

(** [x >>> n], [a ^ b], [a | b] and [Math.imul(a, b)]. *)
Definition ushr (x n : Z) : Z := Z.shiftr (ToUint32 x) (n mod 32).
Definition bxor (a b : Z) : Z := Z.lxor (ToInt32 a) (ToInt32 b).
Definition bor (a b : Z) : Z := Z.lor (ToInt32 a) (ToInt32 b).
Definition Math_imul (a b : Z) : Z := ToInt32 (ToInt32 a * ToInt32 b).

(** [seededRandom(seed)]: the closure's [state] after [let state = seed >>> 0]. *)
Definition seededRandom (seed : Z) : Z := ushr seed 0.

(** One call of the closure [seededRandom] returns: the float it yields and
    the [state] it leaves. *)
Definition rng (state : Z) : Q * Z :=
  let state := ushr (state + 0x6d2b79f5) 0 in
  let t := Math_imul (bxor state (ushr state 15)) (bor 1 state) in
  let t := bxor (t + Math_imul (bxor t (ushr t 7)) (bor 61 t)) t in
  ((inject_Z (ushr (bxor t (ushr t 14)) 0) / 4294967296)%Q, state).






Definition seeded_chance (probability : Q) (state : Z) : bool * Z :=
  let '(v, state) := rng state in (negb (Qle_bool probability v), state).

End RandomLib.
(* ===================================================================== *)
(** ** src/App.tsx                                                        *)
(* ===================================================================== *)

Module App.
Import Chest.

Definition RARITY_ORDER : list string :=
  ["common"; "uncommon"; "rare"; "epic"; "legendary"; "mythic"].

(** [array.indexOf(x)]: the first index holding [x], [-1] when there is none. *)
Fixpoint indexOf (array : list string) (x : string) : Z :=
  match array with
  | [] => -1
  | y :: array' =>
      if decide (y = x) then 0
      else let k := indexOf array' x in if k <? 0 then -1 else k + 1
  end.

Definition getRarityIdx (rarity : string) : Z := indexOf RARITY_ORDER rarity.

Definition getRevealDelay (rarity : string) : Z :=
  let idx := getRarityIdx rarity in
  if idx <=? 1 then 150
  else if idx =? 2 then 350
  else if idx =? 3 then 450
  else if idx =? 4 then 550
  else 650.

(** The loop of [getBestRarity]: [if (idx > best) best = idx]. *)
Definition bestIndex (items : list string) : Z :=
  fold_left (fun best item =>
               let idx := getRarityIdx item in
               if best <? idx then idx else best)
            items 0.

(** [return RARITY_ORDER[best]] *)
Definition getBestRarity (items : list string) : option string :=
  arrayGet RARITY_ORDER (bestIndex items).

(** [[...items].sort((a, b) => getRarityIdx(a) - getRarityIdx(b))].  The
    language makes [sort] stable, so its result is the one of any stable
    sort by that key; here, insertion from the right. *)
Fixpoint insertByRarity (a : string) (sorted : list string) : list string :=
  match sorted with
  | [] => [a]
  | b :: sorted' =>
      if getRarityIdx a <=? getRarityIdx b then a :: b :: sorted'
      else b :: insertByRarity a sorted'
  end.

Definition sortByRarity (items : list string) : list string :=
  foldr insertByRarity [] items.

(** What [sorted.forEach] schedules for one item: the [setTimeout] delay and
    the two flags its callback tests. *)
Record Reveal : Type := {
  item : string;
  delay : Z;
  isBest : bool;
  isRarePlus : bool
}.

(** [sorted.forEach((item, i) => { ... })] from index [i], with the running
    [cumulativeDelay]; gives the reveals and the final [cumulativeDelay]. *)
Fixpoint scheduleFrom (i : nat) (len : nat) (bestIdx : Z) (cumulativeDelay : Z)
    (sorted : list string) : list Reveal * Z :=
  match sorted with
  | [] => ([], cumulativeDelay)
  | item :: sorted' =>
      let delay := if (i =? 0)%nat then 100 else getRevealDelay item in
      let cumulativeDelay := cumulativeDelay + delay in
      let isBest := (Z.of_nat i =? Z.of_nat len - 1) && (2 <=? bestIdx) in
      let isRarePlus := 2 <=? getRarityIdx item in
      let '(reveals, final) :=
        scheduleFrom (S i) len bestIdx cumulativeDelay sorted' in
      ({| item := item; delay := cumulativeDelay;
          isBest := isBest; isRarePlus := isRarePlus |} :: reveals, final)
  end.

(** The part of the shake callback that follows [getLoots]: the sorted
    items, the best index, the reveals and the delay of [doneTimeout]. *)
Record Opening : Type := {
  sorted : list string;
  bestIdx : Z;
  reveals : list Reveal;
  doneDelay : Z
}.

Definition openItems (items : list string) : Opening :=
  let sorted := sortByRarity items in
  let bestRarity := getBestRarity sorted in
  let bestIdx := match bestRarity with
                 | Some b => getRarityIdx b
                 | None => -1
                 end in
  let '(reveals, cumulativeDelay) := scheduleFrom 0 (length sorted) bestIdx 0 sorted in
  {| sorted := sorted; bestIdx := bestIdx; reveals := reveals;
     doneDelay := cumulativeDelay + 800 |}.

(** [auraIntensity] *)
Definition auraIntensity (streakRare streakEpic : Z) : Q :=
  let streak := Qmax (inject_Z streakRare) (inject_Z streakEpic / 2) in
  if Qle_bool 15 streak then Qmin ((streak - 15) / 50) 1 else 0%Q.

Definition RARE_CHEST_FRAGMENTS : Z := 20.
Definition EPIC_CHEST_FRAGMENTS : Z := 50.

(** [fragmentProgress] *)
Definition fragmentProgress (fragments : Z) : Q :=
  if EPIC_CHEST_FRAGMENTS <=? fragments then 1%Q
  else if RARE_CHEST_FRAGMENTS <=? fragments
       then (inject_Z (fragments - RARE_CHEST_FRAGMENTS)
             / inject_Z (EPIC_CHEST_FRAGMENTS - RARE_CHEST_FRAGMENTS))%Q
       else (inject_Z fragments / inject_Z RARE_CHEST_FRAGMENTS)%Q.

(** The chest [onLoot] opens: bought with fragments, or the active chest,
    a normal one being upgraded by [upgradeRoll = Math.random()]. *)
Definition chooseChest (activeChest : ChestType) (fragments : Z) (upgradeRoll : Q)
  : ChestType :=
  if EPIC_CHEST_FRAGMENTS <=? fragments then epic
  else if RARE_CHEST_FRAGMENTS <=? fragments then rare
  else match activeChest with
       | normal =>
           if negb (Qle_bool (5 # 1000) upgradeRoll) then epic
           else if negb (Qle_bool (35 # 1000) upgradeRoll) then rare
           else normal
       | _ => activeChest
       end.

(** [fragments] after one [onLoot]: the price of the chest bought, if any,
    is taken ([setFragments((f) => f - ...)]) and one fragment is earned
    ([setFragments((f) => f + 1)]). *)
Definition nextFragments (fragments : Z) : Z :=
  (if EPIC_CHEST_FRAGMENTS <=? fragments then fragments - EPIC_CHEST_FRAGMENTS
   else if RARE_CHEST_FRAGMENTS <=? fragments then fragments - RARE_CHEST_FRAGMENTS
   else fragments) + 1.

(** [let multiplier = dropMultiplier;
     if (x2RollsLeft > 0) multiplier = Math.max(multiplier, 2)] *)
Definition effectiveMultiplier (dropMultiplier : Q) (x2RollsLeft : Z) : Q :=
  if 0 <? x2RollsLeft then Qmax dropMultiplier 2 else dropMultiplier.

(** [hotStreakRolls > 0 ? 1.5 : 1] *)
Definition effectiveBoost (hotStreakRolls : Z) : Q :=
  if 0 <? hotStreakRolls then (3 # 2)%Q else 1%Q.

(** [getLoots({ chestType, multiplier, rarityBoost })] as [onLoot] calls it. *)
Definition lootOptions (chestType : ChestType) (multiplier rarityBoost : Q)
  : option Options :=
  Some {| max := None; chestType := Some chestType;
          multiplier := Some multiplier; rarityBoost := Some rarityBoost |}.





End App.

(* ===================================================================== *)
(** ** Vocabulary of the further properties                               *)
(* ===================================================================== *)

(** The value of a finite number; 0 stands in for an infinity. *)
Definition finitePart (x : number) : Q :=
  match x with
  | Finite q => q
  | _ => 0%Q
  end.

(** The sum of the values of an odds table. *)
Definition tableTotal (table : gmap string number) : Q :=
  map_fold (fun _ value acc => (finitePart value + acc)%Q) 0%Q table.

(** [fragments] after [n] openings from a reset, each opening seeing the
    value the one before left. *)
Definition fragmentsAfter (n : nat) : Z := Nat.iter n App.nextFragments 0.


(* ===================================================================== *)
(** ** Rounding to a double                                               *)
(* ===================================================================== *)

Lemma inject_Z_le (a b : Z) : (inject_Z a <= inject_Z b)%Q <-> a <= b.
Proof. now rewrite <- Zle_Qle. Qed.

Lemma inject_Z_lt (a b : Z) : (inject_Z a < inject_Z b)%Q <-> a < b.
Proof. now rewrite <- Zlt_Qlt. Qed.

Lemma pow2_pos (e : Z) : (0 < pow2 e)%Q.
Proof. apply Qpower_0_lt. reflexivity. Qed.

Lemma pow2_add (a b : Z) : (pow2 (a + b) == pow2 a * pow2 b)%Q.
Proof. apply Qpower_plus. discriminate. Qed.

Lemma pow2_le (a b : Z) : a <= b -> (pow2 a <= pow2 b)%Q.
Proof. intros H. apply Qpower_le_compat_l; [exact H|discriminate]. Qed.

Lemma pow2_lt (a b : Z) : a < b -> (pow2 a < pow2 b)%Q.
Proof. intros H. apply Qpower_lt_compat_l; [exact H|reflexivity]. Qed.

Lemma pow2_lt_inv (a b : Z) : (pow2 a < pow2 b)%Q -> a < b.
Proof. intros H. eapply Qpower_lt_compat_l_inv; [exact H|reflexivity]. Qed.

Lemma pow2_Z (n : Z) : 0 <= n -> (pow2 n == inject_Z (2 ^ n))%Q.
Proof. intros H. unfold pow2. now rewrite Zpower_Qpower. Qed.

Lemma pow2_succ (e : Z) : (pow2 (e + 1) == 2 * pow2 e)%Q.
Proof. rewrite pow2_add. change (pow2 1) with 2%Q. ring. Qed.

Lemma pow2_pred (e : Z) : (pow2 (e - 1) == pow2 e * (1 # 2))%Q.
Proof.
  replace e with ((e - 1) + 1) at 2 by lia. rewrite pow2_succ. field.
Qed.

Lemma pow2_sub (a b : Z) : (pow2 (a - b) == pow2 a / pow2 b)%Q.
Proof.
  replace a with ((a - b) + b) at 2 by lia. rewrite pow2_add. field.
  pose proof (pow2_pos b). lra.
Qed.

(** [mag x] is the exponent of the binade of a positive [x]. *)
Lemma mag_spec (x : Q) :
  (0 < x)%Q -> (pow2 (mag x) <= x)%Q /\ (x < pow2 (mag x + 1))%Q.
Proof.
  intros Hx. destruct x as [n d]. unfold mag. cbn [Qnum Qden].
  assert (Hn : 0 < n) by (unfold Qlt in Hx; simpl in Hx; lia).
  pose proof (Z.log2_spec n Hn) as [Hn1 Hn2].
  pose proof (Z.log2_spec (Zpos d) ltac:(lia)) as [Hd1 Hd2].
  pose proof (Z.log2_nonneg n) as Ha. pose proof (Z.log2_nonneg (Zpos d)) as Hb.
  set (a := Z.log2 n) in *. set (b := Z.log2 (Zpos d)) in *.
  assert (HA : (pow2 a <= inject_Z n)%Q) by (rewrite pow2_Z by lia; now apply inject_Z_le).
  assert (HA' : (inject_Z n < 2 * pow2 a)%Q).
  { rewrite <- pow2_succ, pow2_Z by lia. apply inject_Z_lt.
    now replace (a + 1) with (Z.succ a) by lia. }
  assert (HB : (pow2 b <= inject_Z (Zpos d))%Q) by (rewrite pow2_Z by lia; now apply inject_Z_le).
  assert (HB' : (inject_Z (Zpos d) < 2 * pow2 b)%Q).
  { rewrite <- pow2_succ, pow2_Z by lia. apply inject_Z_lt.
    now replace (b + 1) with (Z.succ b) by lia. }
  pose proof (pow2_pos a) as Pa. pose proof (pow2_pos b) as Pb.
  assert (Hx' : (n # d == inject_Z n / inject_Z (Zpos d))%Q) by apply Qmake_Qdiv.
  assert (HD : (0 < inject_Z (Zpos d))%Q) by lra.
  assert (Hup : (n # d < pow2 (a - b + 1))%Q).
  { rewrite pow2_succ, pow2_sub, Hx'.
    apply Qlt_shift_div_r; [exact HD|].
    assert (E : (2 * (pow2 a / pow2 b) * inject_Z (Z.pos d)
                 == 2 * pow2 a * (inject_Z (Z.pos d) / pow2 b))%Q) by (field; lra).
    rewrite E.
    assert (1 <= inject_Z (Z.pos d) / pow2 b)%Q.
    { apply Qle_shift_div_l; [exact Pb|]. lra. }
    nra. }
  assert (Hlow : (pow2 (a - b - 1) <= n # d)%Q).
  { rewrite pow2_pred, pow2_sub, Hx'.
    apply Qle_shift_div_l; [exact HD|].
    assert (E : (pow2 a / pow2 b * (1 # 2) * inject_Z (Z.pos d)
                 == pow2 a * (inject_Z (Z.pos d) / (2 * pow2 b)))%Q) by (field; lra).
    rewrite E.
    assert (inject_Z (Z.pos d) / (2 * pow2 b) <= 1)%Q.
    { apply Qle_shift_div_r; [lra|]. lra. }
    nra. }
  destruct (Qle_bool (pow2 (a - b)) (n # d)) eqn:E.
  - apply Qle_bool_iff in E. split; [exact E|exact Hup].
  - split; [exact Hlow|].
    replace (a - b - 1 + 1) with (a - b) by lia.
    apply Qnot_le_lt. intros H. apply Qle_bool_iff in H. congruence.
Qed.

Lemma mag_unique (x : Q) (k : Z) :
  (pow2 k <= x)%Q -> (x < pow2 (k + 1))%Q -> mag x = k.
Proof.
  intros Hlo Hhi.
  assert (Hx : (0 < x)%Q) by (pose proof (pow2_pos k); lra).
  destruct (mag_spec x Hx) as [Mlo Mhi].
  assert (mag x < k + 1) by (apply pow2_lt_inv; lra).
  assert (k < mag x + 1) by (apply pow2_lt_inv; lra).
  lia.
Qed.

Lemma mag_mono (x y : Q) : (0 < x)%Q -> (x <= y)%Q -> mag x <= mag y.
Proof.
  intros Hx Hxy.
  destruct (mag_spec x Hx) as [Xlo Xhi].
  destruct (mag_spec y ltac:(lra)) as [Ylo Yhi].
  assert (mag x < mag y + 1) by (apply pow2_lt_inv; lra). lia.
Qed.

Lemma mag_comp (x y : Q) : (0 < x)%Q -> (x == y)%Q -> mag x = mag y.
Proof.
  intros Hx Hxy. destruct (mag_spec y ltac:(lra)) as [Ylo Yhi].
  apply mag_unique; lra.
Qed.

Lemma roundEven_cases (x : Q) :
  let f := Qfloor x in
  (inject_Z f <= x)%Q /\ (x < inject_Z f + 1)%Q /\
  ((roundEven x = f /\ (x - inject_Z f <= 1 # 2)%Q) \/
   (roundEven x = f + 1 /\ (1 # 2 <= x - inject_Z f)%Q)).
Proof.
  intros f. pose proof (Qfloor_le x) as Hlo. pose proof (Qlt_floor x) as Hhi.
  fold f in Hlo, Hhi. rewrite inject_Z_plus in Hhi. change (inject_Z 1) with 1%Q in Hhi.
  split; [exact Hlo|]. split; [exact Hhi|].
  unfold roundEven. fold f.
  destruct (Qcompare (x - inject_Z f) (1 # 2)) eqn:E.
  - apply Qeq_alt in E. destruct (Z.even f); [left|right]; split; try reflexivity; lra.
  - apply Qlt_alt in E. left. split; [reflexivity|lra].
  - apply Qgt_alt in E. right. split; [reflexivity|lra].
Qed.

Lemma roundEven_Z (n : Z) : roundEven (inject_Z n) = n.
Proof.
  unfold roundEven. rewrite Qfloor_Z.
  assert (E : (inject_Z n - inject_Z n ?= 1 # 2)%Q = Lt).
  { apply (proj1 (Qlt_alt _ _)). generalize (inject_Z n). intros q. lra. }
  now rewrite E.
Qed.

Lemma roundEven_comp (x y : Q) : (x == y)%Q -> roundEven x = roundEven y.
Proof.
  intros H. unfold roundEven.
  assert (Hf : Qfloor x = Qfloor y) by now rewrite H.
  rewrite Hf.
  assert (Hc : (x - inject_Z (Qfloor y) ?= 1 # 2)%Q = (y - inject_Z (Qfloor y) ?= 1 # 2)%Q)
    by now rewrite H.
  now rewrite Hc.
Qed.

Lemma roundEven_error (x : Q) :
  (inject_Z (roundEven x) - x <= 1 # 2)%Q /\ (x - inject_Z (roundEven x) <= 1 # 2)%Q.
Proof.
  destruct (roundEven_cases x) as (Hlo & Hhi & [[-> H]|[-> H]]).
  - split; lra.
  - rewrite inject_Z_plus. change (inject_Z 1) with 1%Q. split; lra.
Qed.

Lemma roundEven_mono (x y : Q) : (x <= y)%Q -> roundEven x <= roundEven y.
Proof.
  intros Hxy. pose proof (Qfloor_resp_le x y Hxy) as Hf.
  destruct (Z.eq_dec (Qfloor x) (Qfloor y)) as [Heq|Hne].
  - unfold roundEven. rewrite Heq.
    destruct (Qcompare_spec (x - inject_Z (Qfloor y)) (1 # 2)) as [Ex|Ex|Ex];
      destruct (Qcompare_spec (y - inject_Z (Qfloor y)) (1 # 2)) as [Ey|Ey|Ey];
      try lra; try lia; destruct (Z.even (Qfloor y)); lia.
  - destruct (roundEven_cases x) as (_ & _ & [[-> _]|[-> _]]);
      destruct (roundEven_cases y) as (_ & _ & [[-> _]|[-> _]]); lia.
Qed.

Lemma roundEven_nonneg (x : Q) : (0 <= x)%Q -> 0 <= roundEven x.
Proof.
  intros H. rewrite <- (roundEven_Z 0). now apply roundEven_mono.
Qed.

Lemma ulpExp_comp (x y : Q) : (0 < x)%Q -> (x == y)%Q -> ulpExp x = ulpExp y.
Proof. intros Hx H. unfold ulpExp. now rewrite (mag_comp x y Hx H). Qed.

Lemma flPos_comp (x y : Q) : (0 < x)%Q -> (x == y)%Q -> (flPos x == flPos y)%Q.
Proof.
  intros Hx H. unfold flPos. rewrite (ulpExp_comp x y Hx H).
  rewrite (roundEven_comp (x / pow2 (ulpExp y)) (y / pow2 (ulpExp y))); [reflexivity|].
  now rewrite H.
Qed.

#[global] Instance fl_Proper : Proper (Qeq ==> Qeq) fl.
Proof.
  intros x y H. unfold fl.
  assert (Hc : (x ?= 0)%Q = (y ?= 0)%Q) by now rewrite H.
  rewrite <- Hc. destruct (x ?= 0)%Q eqn:E.
  - reflexivity.
  - apply Qlt_alt in E. apply Qopp_comp. apply flPos_comp; [lra|now rewrite H].
  - apply Qgt_alt in E. now apply flPos_comp.
Qed.

Lemma fl_pos (x : Q) : (0 < x)%Q -> fl x = flPos x.
Proof. intros H. unfold fl. apply (proj1 (Qgt_alt _ _)) in H. now rewrite H. Qed.

Lemma fl_neg (x : Q) : (x < 0)%Q -> fl x = (- flPos (- x))%Q.
Proof. intros H. unfold fl. apply (proj1 (Qlt_alt _ _)) in H. now rewrite H. Qed.

Lemma fl_zero (x : Q) : (x == 0)%Q -> fl x = 0%Q.
Proof. intros H. unfold fl. apply (proj1 (Qeq_alt _ _)) in H. now rewrite H. Qed.

Lemma fl_opp (x : Q) : (fl (- x) == - fl x)%Q.
Proof.
  destruct (Q_dec x 0) as [[H|H]|H].
  - rewrite (fl_neg x H), (fl_pos (- x)) by lra. ring.
  - rewrite (fl_pos x H), (fl_neg (- x)) by lra.
    apply Qopp_comp. apply flPos_comp; [lra|ring].
  - rewrite (fl_zero x H), (fl_zero (- x)) by lra. reflexivity.
Qed.

Lemma flPos_nonneg (x : Q) : (0 < x)%Q -> (0 <= flPos x)%Q.
Proof.
  intros H. unfold flPos. pose proof (pow2_pos (ulpExp x)) as P.
  apply Qmult_le_0_compat; [|lra].
  change 0%Q with (inject_Z 0). apply inject_Z_le. apply roundEven_nonneg.
  apply Qle_shift_div_l; [exact P|]. lra.
Qed.

Lemma fl_nonneg (x : Q) : (0 <= x)%Q -> (0 <= fl x)%Q.
Proof.
  intros H. destruct (Qlt_le_dec 0 x) as [Hp|Hz].
  - rewrite fl_pos by exact Hp. now apply flPos_nonneg.
  - rewrite fl_zero by lra. lra.
Qed.

Lemma ulpExp_mag (x : Q) : mag x - 52 <= ulpExp x /\ -1074 <= ulpExp x.
Proof. unfold ulpExp. lia. Qed.

(** Rounding at exponent [e] is monotone. *)
Lemma flPos_mono (x y : Q) : (0 < x)%Q -> (x <= y)%Q -> (flPos x <= flPos y)%Q.
Proof.
  intros Hx Hxy.
  assert (Hy : (0 < y)%Q) by lra.
  pose proof (mag_mono x y Hx Hxy) as Hm.
  destruct (mag_spec x Hx) as [Xlo Xhi]. destruct (mag_spec y Hy) as [Ylo Yhi].
  unfold flPos.
  pose proof (pow2_pos (ulpExp x)) as Px. pose proof (pow2_pos (ulpExp y)) as Py.
  destruct (Z.eq_dec (ulpExp x) (ulpExp y)) as [He|Hne].
  - rewrite He. apply Qmult_le_compat_r; [|lra].
    apply inject_Z_le, roundEven_mono.
    apply Qle_shift_div_l; [exact Py|].
    assert (E : (x / pow2 (ulpExp y) * pow2 (ulpExp y) == x)%Q) by (field; lra).
    lra.
  - assert (Hlt : ulpExp x < ulpExp y) by (unfold ulpExp in *; lia).
    assert (Hey : ulpExp y = mag y - 52) by (unfold ulpExp in *; lia).
    assert (Hmxy : mag x < mag y) by (unfold ulpExp in *; lia).
    (* the boundary [pow2 (mag y)] separates the two results *)
    apply Qle_trans with (pow2 (mag y)).
    + assert (Hb : (pow2 (mag y) == inject_Z (2 ^ (mag y - ulpExp x)) * pow2 (ulpExp x))%Q).
      { rewrite <- pow2_Z by lia. rewrite <- pow2_add. now replace (mag y - ulpExp x + ulpExp x) with (mag y) by lia. }
      rewrite Hb. apply Qmult_le_compat_r; [|lra].
      apply inject_Z_le. rewrite <- (roundEven_Z (2 ^ (mag y - ulpExp x))).
      apply roundEven_mono. apply Qle_shift_div_r; [exact Px|].
      rewrite <- Hb.
      assert (pow2 (mag x + 1) <= pow2 (mag y))%Q by (apply pow2_le; lia). lra.
    + assert (Hb : (pow2 (mag y) == inject_Z (2 ^ 52) * pow2 (ulpExp y))%Q).
      { rewrite <- pow2_Z by lia. rewrite <- pow2_add. now replace (52 + ulpExp y) with (mag y) by lia. }
      rewrite Hb. apply Qmult_le_compat_r; [|lra].
      apply inject_Z_le. rewrite <- (roundEven_Z (2 ^ 52)) at 1.
      apply roundEven_mono. apply Qle_shift_div_l; [exact Py|]. now rewrite <- Hb.
Qed.

(** Rounding to a double is monotone. *)
Lemma fl_mono (x y : Q) : (x <= y)%Q -> (fl x <= fl y)%Q.
Proof.
  intros Hxy.
  destruct (Qlt_le_dec 0 x) as [Hx|Hx].
  - rewrite (fl_pos x Hx), (fl_pos y) by lra. now apply flPos_mono.
  - destruct (Qlt_le_dec 0 y) as [Hy|Hy].
    + apply Qle_trans with 0%Q; [|apply fl_nonneg; lra].
      assert (H : (0 <= fl (- x))%Q) by (apply fl_nonneg; lra).
      rewrite fl_opp in H. lra.
    + destruct (Qlt_le_dec y 0) as [Hy'|Hy'].
      * rewrite (fl_neg x), (fl_neg y) by lra.
        assert (flPos (- y) <= flPos (- x))%Q by (apply flPos_mono; lra). lra.
      * rewrite (fl_zero y) by lra.
        assert (H : (0 <= fl (- x))%Q) by (apply fl_nonneg; lra).
        rewrite fl_opp in H. lra.
Qed.

Lemma flPos_exact (m p : Z) :
  0 < m < 2 ^ 53 -> -1074 <= p ->
  (flPos (inject_Z m * pow2 p) == inject_Z m * pow2 p)%Q.
Proof.
  intros [Hm Hm53] Hp.
  pose proof (Z.log2_spec m Hm) as [Hlo Hhi].
  pose proof (Z.log2_nonneg m) as Ha.
  assert (Ha52 : Z.log2 m <= 52).
  { assert (Z.log2 m < 53); [|lia]. apply Z.log2_lt_pow2; lia. }
  set (a := Z.log2 m) in *.
  pose proof (pow2_pos p) as Pp.
  assert (Hmag : mag (inject_Z m * pow2 p) = a + p).
  { apply mag_unique.
    - rewrite pow2_add, (pow2_Z a) by lia. apply Qmult_le_compat_r; [|lra].
      now apply inject_Z_le.
    - replace (a + p + 1) with ((a + 1) + p) by lia.
      rewrite pow2_add, (pow2_Z (a + 1)) by lia. apply Qmult_lt_compat_r; [exact Pp|].
      apply inject_Z_lt. now replace (a + 1) with (Z.succ a) by lia. }
  unfold flPos, ulpExp. rewrite Hmag.
  set (e := Z.max (a + p - 52) (-1074)).
  assert (He : e <= p) by (unfold e; lia).
  pose proof (pow2_pos e) as Pe.
  assert (Hq : (inject_Z m * pow2 p / pow2 e == inject_Z (m * 2 ^ (p - e)))%Q).
  { rewrite inject_Z_mult, <- pow2_Z by lia. rewrite pow2_sub. field. lra. }
  rewrite (roundEven_comp _ _ Hq), roundEven_Z.
  rewrite inject_Z_mult, <- pow2_Z by lia. rewrite pow2_sub. field. lra.
Qed.

(** A significand below [2^53] at an exponent of at least [-1074] is a double. *)
Lemma fl_exact (m p : Z) :
  Z.abs m < 2 ^ 53 -> -1074 <= p ->
  (fl (inject_Z m * pow2 p) == inject_Z m * pow2 p)%Q.
Proof.
  intros Hm Hp. pose proof (pow2_pos p) as Pp.
  destruct (Z.lt_trichotomy m 0) as [Hneg|[->|Hpos]].
  - assert (Hx : (inject_Z m * pow2 p == - (inject_Z (- m) * pow2 p))%Q)
      by (rewrite inject_Z_opp; ring).
    rewrite Hx, fl_opp. apply Qopp_comp.
    assert (0 < inject_Z (- m))%Q by (change 0%Q with (inject_Z 0); apply inject_Z_lt; lia).
    rewrite fl_pos by nra. apply flPos_exact; lia.
  - rewrite fl_zero; [ring|]. ring.
  - assert (0 < inject_Z m)%Q by (change 0%Q with (inject_Z 0); apply inject_Z_lt; lia).
    rewrite fl_pos by nra. apply flPos_exact; lia.
Qed.

(** Integers up to [2^53] in magnitude are doubles. *)
Lemma fl_Z (z : Z) : Z.abs z <= 2 ^ 53 -> (fl (inject_Z z) == inject_Z z)%Q.
Proof.
  intros Hz. destruct (Z.eq_dec (Z.abs z) (2 ^ 53)) as [Htop|Hlt].
  - assert (Hz2 : z = 2 ^ 53 \/ z = - 2 ^ 53) by lia.
    destruct Hz2 as [-> | ->]; vm_compute; reflexivity.
  - assert (Hh : (inject_Z z == inject_Z z * pow2 0)%Q) by (change (pow2 0) with 1%Q; ring).
    rewrite Hh at 1. rewrite fl_exact; [symmetry; exact Hh|lia|lia].
Qed.

Lemma flPos_error (x : Q) :
  (0 < x)%Q ->
  (flPos x - x <= pow2 (ulpExp x - 1))%Q /\ (x - flPos x <= pow2 (ulpExp x - 1))%Q.
Proof.
  intros Hx. unfold flPos. set (e := ulpExp x).
  pose proof (pow2_pos e) as Pe.
  pose proof (roundEven_error (x / pow2 e)) as [H1 H2].
  rewrite pow2_pred.
  assert (E : (x == x / pow2 e * pow2 e)%Q) by (field; lra).
  set (y := (x / pow2 e)%Q) in *. set (k := inject_Z (roundEven y)) in *.
  split.
  - assert ((k - y) * pow2 e <= (1 # 2) * pow2 e)%Q by (apply Qmult_le_compat_r; lra). lra.
  - assert ((y - k) * pow2 e <= (1 # 2) * pow2 e)%Q by (apply Qmult_le_compat_r; lra). lra.
Qed.

(** The error of rounding a positive number is at most [2^-53] of it, or
    half the least subnormal. *)
Lemma flPos_upper (x : Q) :
  (0 < x)%Q -> (flPos x <= x + x * pow2 (-53))%Q \/ (flPos x <= x + pow2 (-1075))%Q.
Proof.
  intros Hx. destruct (flPos_error x Hx) as [Hup _].
  destruct (mag_spec x Hx) as [Mlo _].
  unfold ulpExp in Hup.
  destruct (Z.max_spec (mag x - 52) (-1074)) as [[_ E]|[_ E]]; rewrite E in Hup.
  - right. change (pow2 (-1074 - 1)) with (pow2 (-1075)) in Hup. lra.
  - left. replace (mag x - 52 - 1) with (mag x + (-53)) in Hup by lia.
    rewrite pow2_add in Hup. pose proof (pow2_pos (-53)).
    assert (pow2 (mag x) * pow2 (-53) <= x * pow2 (-53))%Q
      by (apply Qmult_le_compat_r; lra).
    lra.
Qed.

(** A product that stays a relative [2^-53] below [n >= 1] rounds below [n]. *)
Lemma fl_below (x n : Q) :
  (0 <= x)%Q -> (1 <= n)%Q -> (x <= n * (1 - pow2 (-53)))%Q -> (fl x < n)%Q.
Proof.
  intros Hx Hn Hgap.
  destruct (Qlt_le_dec 0 x) as [Hpos|Hz]; [|rewrite fl_zero by lra; lra].
  rewrite fl_pos by exact Hpos.
  assert (P53 : (pow2 (-53) == 1 # 9007199254740992)%Q) by reflexivity.
  assert (P1075 : (pow2 (-1075) < pow2 (-53))%Q) by (apply pow2_lt; lia).
  destruct (flPos_upper x Hpos) as [H|H].
  - rewrite P53 in *. nra.
  - rewrite P53 in *. nra.
Qed.

(** A double below 1 is at most [1 - 2^-53]. *)
Lemma double_below_one (r : Q) :
  isDouble r -> (0 <= r)%Q -> (r < 1)%Q -> (r <= 1 - pow2 (-53))%Q.
Proof.
  intros Hd H0 H1.
  assert (P53 : (pow2 (-53) == 1 # 9007199254740992)%Q) by reflexivity.
  destruct (Qlt_le_dec r (1 # 2)) as [Hsmall|Hbig]; [rewrite P53; lra|].
  assert (Hmag : mag r = -1).
  { apply mag_unique; [change (pow2 (-1)) with (1 # 2)%Q; lra|].
    change (pow2 (-1 + 1)) with 1%Q. exact H1. }
  unfold isDouble in Hd. rewrite fl_pos in Hd by lra.
  unfold flPos, ulpExp in Hd. rewrite Hmag in Hd.
  change (Z.max (-1 - 52) (-1074)) with (-53) in Hd.
  set (k := roundEven (r / pow2 (-53))) in *.
  assert (Hk : k < 2 ^ 53).
  { apply inject_Z_lt. change (inject_Z (2 ^ 53)) with 9007199254740992%Q.
    rewrite P53 in Hd. lra. }
  assert (Hk' : (inject_Z k <= 9007199254740991)%Q).
  { change 9007199254740991%Q with (inject_Z (2 ^ 53 - 1)). apply inject_Z_le. lia. }
  rewrite P53 in *. lra.
Qed.

(** [Math.floor(sample * n)] stays below [n]: the rounded product of a double
    of [[0, 1)] and a number [n >= 1] is below [n]. *)
Lemma fl_unit_scale (r n : Q) :
  isDouble r -> (0 <= r)%Q -> (r < 1)%Q -> (1 <= n)%Q ->
  (0 <= fl (r * n))%Q /\ (fl (r * n) < n)%Q.
Proof.
  intros Hd H0 H1 Hn. split; [apply fl_nonneg; nra|].
  pose proof (double_below_one r Hd H0 H1) as Hr.
  apply fl_below; [nra|exact Hn|].
  assert (P53 : (pow2 (-53) == 1 # 9007199254740992)%Q) by reflexivity.
  rewrite P53 in *. nra.
Qed.

(** Every double is a multiple of the least subnormal. *)
Lemma isDouble_grid (x : Q) :
  isDouble x -> exists k : Z, (x == inject_Z k * pow2 (-1074))%Q.
Proof.
  assert (Hpos : forall y, (0 < y)%Q ->
            exists k : Z, (flPos y == inject_Z k * pow2 (-1074))%Q).
  { intros y Hy. unfold flPos. pose proof (ulpExp_mag y) as [_ He].
    exists (roundEven (y / pow2 (ulpExp y)) * 2 ^ (ulpExp y + 1074)).
    rewrite inject_Z_mult, <- pow2_Z by lia.
    rewrite <- Qmult_assoc, <- pow2_add.
    now replace (ulpExp y + 1074 + -1074) with (ulpExp y) by lia. }
  intros Hd. unfold isDouble in Hd.
  destruct (Q_dec x 0) as [[H|H]|H].
  - rewrite fl_neg in Hd by exact H. destruct (Hpos (- x)%Q ltac:(lra)) as [k Hk].
    exists (- k). rewrite inject_Z_opp. rewrite <- Hd, Hk. ring.
  - rewrite fl_pos in Hd by exact H. destruct (Hpos x H) as [k Hk].
    exists k. now rewrite <- Hd.
  - exists 0. rewrite H. reflexivity.
Qed.

(** The error of rounding a number below [2^(k+1)] is at most [2^(k-53)]. *)
Lemma fl_error_bound (x : Q) (k : Z) :
  (0 <= x)%Q -> (x < pow2 (k + 1))%Q -> -1022 <= k ->
  (fl x - x <= pow2 (k - 53))%Q /\ (x - fl x <= pow2 (k - 53))%Q.
Proof.
  intros Hx Hk Hnorm. pose proof (pow2_pos (k - 53)) as Pk.
  destruct (Qlt_le_dec 0 x) as [Hpos|Hz]; [|rewrite fl_zero by lra; split; lra].
  rewrite fl_pos by exact Hpos.
  destruct (flPos_error x Hpos) as [H1 H2].
  destruct (mag_spec x Hpos) as [Mlo _].
  assert (Hm : mag x < k + 1) by (apply pow2_lt_inv; lra).
  assert (He : (pow2 (ulpExp x - 1) <= pow2 (k - 53))%Q).
  { apply pow2_le. unfold ulpExp. lia. }
  split; lra.
Qed.


(** Rounding does not cross an integer of the exact range. *)
Lemma fl_le_Z (x : Q) (z : Z) :
  Z.abs z <= 2 ^ 53 -> (x <= inject_Z z)%Q -> (fl x <= inject_Z z)%Q.
Proof. intros Hz Hx. rewrite <- (fl_Z z Hz). now apply fl_mono. Qed.

Lemma fl_ge_Z (x : Q) (z : Z) :
  Z.abs z <= 2 ^ 53 -> (inject_Z z <= x)%Q -> (inject_Z z <= fl x)%Q.
Proof. intros Hz Hx. rewrite <- (fl_Z z Hz). now apply fl_mono. Qed.




Lemma fl_ge_double (x y : Q) : isDouble y -> (y <= x)%Q -> (y <= fl x)%Q.
Proof. intros Hy Hxy. unfold isDouble in Hy. rewrite <- Hy. now apply fl_mono. Qed.

(** The result of rounding is a double. *)
Lemma fl_idempotent (x : Q) : isDouble (fl x).
Proof.
  assert (Hpos : forall y, (0 < y)%Q -> (fl (flPos y) == flPos y)%Q).
  { intros y Hy. unfold flPos at 2. pose proof (ulpExp_mag y) as [He1 He2].
    destruct (mag_spec y Hy) as [_ Mhi].
    pose proof (pow2_pos (ulpExp y)) as Pe.
    assert (Hq : (y / pow2 (ulpExp y) <= inject_Z (2 ^ 53))%Q).
    { apply Qle_shift_div_r; [exact Pe|].
      rewrite <- pow2_Z, <- pow2_add by lia.
      assert (pow2 (mag y + 1) <= pow2 (53 + ulpExp y))%Q by (apply pow2_le; lia).
      lra. }
    assert (Hq0 : (0 <= y / pow2 (ulpExp y))%Q).
    { apply Qle_shift_div_l; [exact Pe|]. lra. }
    pose proof (roundEven_mono _ _ Hq) as Hm. rewrite roundEven_Z in Hm.
    pose proof (roundEven_nonneg _ Hq0) as Hm0.
    unfold flPos.
    destruct (Z.eq_dec (roundEven (y / pow2 (ulpExp y))) (2 ^ 53)) as [Htop|Hlow].
    - rewrite Htop.
      assert (E : (inject_Z (2 ^ 53) * pow2 (ulpExp y)
                   == inject_Z 1 * pow2 (53 + ulpExp y))%Q).
      { rewrite pow2_add, <- pow2_Z by lia. change (inject_Z 1) with 1%Q. ring. }
      rewrite E. apply fl_exact; lia.
    - apply fl_exact; lia. }
  unfold isDouble. destruct (Q_dec x 0) as [[H|H]|H].
  - rewrite (fl_neg x H), fl_opp, Hpos by lra. reflexivity.
  - rewrite (fl_pos x H). now apply Hpos.
  - rewrite (fl_zero x H). reflexivity.
Qed.

(* ===================================================================== *)
(** ** Arithmetic of the built-ins                                        *)
(* ===================================================================== *)

Lemma Qle_bool_false (x y : Q) : Qle_bool x y = false <-> (y < x)%Q.
Proof.
  split; intros H.
  - apply Qnot_le_lt. intros Hle. apply Qle_bool_iff in Hle. congruence.
  - destruct (Qle_bool x y) eqn:E; [|reflexivity].
    apply Qle_bool_iff in E. lra.
Qed.

Lemma inject_Z_pos (z : Z) : 0 < z -> (0 < inject_Z z)%Q.
Proof. intros H. change 0%Q with (inject_Z 0). now apply inject_Z_lt. Qed.

Lemma inject_Z_nonneg (z : Z) : 0 <= z -> (0 <= inject_Z z)%Q.
Proof. intros H. change 0%Q with (inject_Z 0). now apply inject_Z_le. Qed.

Lemma inject_Z_ge_1 (z : Z) : 1 <= z -> (1 <= inject_Z z)%Q.
Proof. intros H. change 1%Q with (inject_Z 1). now apply inject_Z_le. Qed.

Lemma Math_round_mono (x y : Q) : (x <= y)%Q -> Math_round x <= Math_round y.
Proof. intros H. unfold Math_round. apply Qfloor_resp_le. lra. Qed.

Lemma Math_round_nonneg (x : Q) : (0 <= x)%Q -> 0 <= Math_round x.
Proof.
  intros Hx. unfold Math_round.
  change 0 with (Qfloor 0). apply Qfloor_resp_le. lra.
Qed.

Lemma Math_round_inject_Z (z : Z) : Math_round (inject_Z z) = z.
Proof.
  unfold Math_round.
  assert (Hlo : z <= Qfloor (inject_Z z + (1 # 2))).
  { rewrite <- (Qfloor_Z z) at 1. apply Qfloor_resp_le.
    generalize (inject_Z z). intros q. lra. }
  assert (Hhi : Qfloor (inject_Z z + (1 # 2)) < z + 1).
  { apply inject_Z_lt.
    eapply Qle_lt_trans; [apply Qfloor_le|].
    rewrite inject_Z_plus. change (inject_Z 1) with 1%Q.
    generalize (inject_Z z). intros q. lra. }
  lia.
Qed.

Lemma Math_round_comp (x y : Q) : (x == y)%Q -> Math_round x = Math_round y.
Proof. intros H. unfold Math_round. now rewrite H. Qed.

Lemma Math_round_bounds (y : Q) :
  (y - (1 # 2) < inject_Z (Math_round y))%Q /\
  (inject_Z (Math_round y) <= y + (1 # 2))%Q.
Proof.
  unfold Math_round. split.
  - pose proof (Qlt_floor (y + (1 # 2))) as H.
    rewrite inject_Z_plus in H. change (inject_Z 1) with 1%Q in H. lra.
  - apply Qfloor_le.
Qed.

(** [Math.floor(Math.random() * m)] is an index below [m]. *)
Lemma Qfloor_unit_scale (rnd : Q) (m : Z) :
  unitSample rnd -> 0 < m -> 0 <= Qfloor (fl (rnd * inject_Z m)) < m.
Proof.
  intros (H0 & H1 & Hd) Hm.
  destruct (fl_unit_scale rnd (inject_Z m) Hd H0 H1 (inject_Z_ge_1 m ltac:(lia)))
    as [Hlo Hhi].
  split.
  - change 0 with (Qfloor 0). now apply Qfloor_resp_le.
  - apply inject_Z_lt. eapply Qle_lt_trans; [apply Qfloor_le|exact Hhi].
Qed.

(** The roll of a draw lies in [[0, sum)]. *)
Lemma roll_range (rnd : Q) (sum : Z) :
  unitSample rnd -> 0 < sum ->
  (0 <= fl (rnd * inject_Z sum))%Q /\ (fl (rnd * inject_Z sum) < inject_Z sum)%Q.
Proof.
  intros (H0 & H1 & Hd) Hs.
  exact (fl_unit_scale rnd (inject_Z sum) Hd H0 H1 (inject_Z_ge_1 sum ltac:(lia))).
Qed.

Lemma Qfloor_ge_1 (x : Q) : (1 <= x)%Q -> 1 <= Qfloor x.
Proof. intros H. change 1 with (Qfloor 1). now apply Qfloor_resp_le. Qed.

(** [randomInt(1, maxRolls)] for [maxRolls >= 1]: an integer of
    [[1, maxRolls]]. *)
Lemma randomInt_range (maxRolls : Q) (rnd : Q) :
  unitSample rnd -> (1 <= maxRolls)%Q ->
  1 <= randomInt 1 maxRolls rnd <= Qfloor maxRolls.
Proof.
  intros Hrnd Hm. unfold randomInt. change (Qceiling 1) with 1.
  replace (Qfloor maxRolls - 1 + 1) with (Qfloor maxRolls) by lia.
  pose proof (Qfloor_ge_1 maxRolls Hm).
  pose proof (Qfloor_unit_scale rnd (Qfloor maxRolls) Hrnd ltac:(lia)). lia.
Qed.

(** [randomInt(1, maxRolls)] for a fraction [maxRolls] of [(0, 1)]: 1. *)
Lemma randomInt_fraction (maxRolls : Q) (rnd : Q) :
  (0 <= maxRolls)%Q -> (maxRolls < 1)%Q -> randomInt 1 maxRolls rnd = 1.
Proof.
  intros H0 H1. unfold randomInt. change (Qceiling 1) with 1.
  assert (Hf : Qfloor maxRolls = 0).
  { assert (0 <= Qfloor maxRolls) by (change 0 with (Qfloor 0); now apply Qfloor_resp_le).
    assert (Qfloor maxRolls < 1); [|lia].
    apply inject_Z_lt. eapply Qle_lt_trans; [apply Qfloor_le|exact H1]. }
  rewrite Hf. change (inject_Z (0 - 1 + 1)) with 0%Q.
  rewrite fl_zero by ring. reflexivity.
Qed.

Lemma unitSample_half : unitSample (1 # 2).
Proof. split; [discriminate|]. split; [reflexivity|]. vm_compute. reflexivity. Qed.

Lemma unitSample_zero : unitSample 0.
Proof. split; [discriminate|]. split; [reflexivity|]. vm_compute. reflexivity. Qed.

(* ===================================================================== *)
(** ** Sums and the weighted walk                                         *)
(* ===================================================================== *)

Lemma fold_weights_shift (es : list LootEntry) (a : Z) :
  fold_left (fun acc entry => acc + weight entry) es a = a + sumWeights es.
Proof.
  unfold sumWeights. revert a.
  induction es as [|e es IH]; intros a; simpl; [lia|].
  rewrite (IH (a + weight e)), (IH (0 + weight e)). lia.
Qed.

Lemma sumWeights_nil : sumWeights [] = 0.
Proof. reflexivity. Qed.

Lemma sumWeights_cons (e : LootEntry) (es : list LootEntry) :
  sumWeights (e :: es) = weight e + sumWeights es.
Proof. unfold sumWeights at 1. simpl. apply fold_weights_shift. Qed.

Lemma sumWeights_app (es1 es2 : list LootEntry) :
  sumWeights (es1 ++ es2) = sumWeights es1 + sumWeights es2.
Proof.
  unfold sumWeights at 1. rewrite fold_left_app.
  fold (sumWeights es1). apply fold_weights_shift.
Qed.

Lemma sumWeights_nonneg (es : list LootEntry) :
  nonnegWeights es -> 0 <= sumWeights es.
Proof.
  induction 1 as [|e es He _ IH]; [rewrite sumWeights_nil; lia|].
  rewrite sumWeights_cons. lia.
Qed.

Lemma cumulative_head (e : LootEntry) (es : list LootEntry) :
  cumulative (e :: es) 0 = weight e.
Proof.
  unfold cumulative. simpl. rewrite take_0, sumWeights_cons, sumWeights_nil. lia.
Qed.

Lemma cumulative_tail (e : LootEntry) (es : list LootEntry) (i : nat) :
  cumulative (e :: es) (S i) = weight e + cumulative es i.
Proof. unfold cumulative. simpl. now rewrite sumWeights_cons. Qed.

Lemma cumulative_last (es : list LootEntry) (i : nat) :
  (length es <= S i)%nat -> cumulative es i = sumWeights es.
Proof. intros H. unfold cumulative. now rewrite take_ge by lia. Qed.

(** The walk returns the first entry whose running total reaches the roll. *)
Lemma walk_first (es : list LootEntry) (roll : Q) (current : Z) (n : string) :
  Simple.walk roll current es = Some n <->
  exists i e, es !! i = Some e /\ n = name e /\
    (roll <= inject_Z (current + cumulative es i))%Q /\
    forall j, (j < i)%nat -> (inject_Z (current + cumulative es j) < roll)%Q.
Proof.
  revert current. induction es as [|e es IH]; intros current; simpl.
  - split; [discriminate|]. intros (i & e & Hi & _). now rewrite lookup_nil in Hi.
  - destruct (Qle_bool roll (inject_Z (current + weight e))) eqn:Hle.
    + apply Qle_bool_iff in Hle. split.
      * intros [= <-]. exists 0%nat, e. rewrite cumulative_head.
        repeat split; [assumption|]. intros j Hj. lia.
      * intros (i & e' & Hi & -> & _ & Hbefore). destruct i as [|i].
        { simpl in Hi. now injection Hi as ->. }
        specialize (Hbefore 0%nat ltac:(lia)). rewrite cumulative_head in Hbefore. lra.
    + apply Qle_bool_false in Hle. rewrite IH. split.
      * intros (i & e' & Hi & -> & Hreach & Hbefore).
        exists (S i), e'. rewrite cumulative_tail.
        replace (current + (weight e + cumulative es i))
          with (current + weight e + cumulative es i) by lia.
        repeat split; [assumption..|].
        intros [|j] Hj; [now rewrite cumulative_head|].
        rewrite cumulative_tail.
        replace (current + (weight e + cumulative es j))
          with (current + weight e + cumulative es j) by lia.
        apply Hbefore. lia.
      * intros (i & e' & Hi & -> & Hreach & Hbefore). destruct i as [|i].
        { rewrite cumulative_head in Hreach. lra. }
        exists i, e'. simpl in Hi. rewrite cumulative_tail in Hreach.
        replace (current + (weight e + cumulative es i))
          with (current + weight e + cumulative es i) in Hreach by lia.
        repeat split; [assumption..|].
        intros j Hj. specialize (Hbefore (S j) ltac:(lia)).
        rewrite cumulative_tail in Hbefore.
        now replace (current + (weight e + cumulative es j))
          with (current + weight e + cumulative es j) in Hbefore by lia.
Qed.

(** A roll that the total reaches is caught by some entry. *)
Lemma walk_reaches (es : list LootEntry) (roll : Q) (current : Z) :
  (inject_Z current < roll)%Q ->
  (roll <= inject_Z (current + sumWeights es))%Q ->
  is_Some (Simple.walk roll current es).
Proof.
  revert current. induction es as [|e es IH]; intros current Hlo Hhi.
  - rewrite sumWeights_nil, Z.add_0_r in Hhi. lra.
  - simpl. destruct (Qle_bool roll (inject_Z (current + weight e))) eqn:Hle; [eauto|].
    apply Qle_bool_false in Hle. apply IH; [assumption|].
    rewrite sumWeights_cons in Hhi.
    now replace (current + weight e + sumWeights es)
      with (current + (weight e + sumWeights es)) by lia.
Qed.

Lemma walk_nonempty (es : list LootEntry) (roll : Q) :
  es <> [] -> (roll <= inject_Z (sumWeights es))%Q ->
  is_Some (Simple.walk roll 0 es).
Proof.
  intros Hne Hhi. destruct es as [|e es]; [congruence|].
  cbn [Simple.walk].
  destruct (Qle_bool roll (inject_Z (0 + weight e))) eqn:Hle; [eauto|].
  apply Qle_bool_false in Hle. rewrite Z.add_0_l in *.
  apply walk_reaches; [assumption|].
  now rewrite <- sumWeights_cons.
Qed.

(** A walk only ever returns the name of an entry it was given. *)
Lemma walk_name (es : list LootEntry) (roll : Q) (current : Z) (n : string) :
  Simple.walk roll current es = Some n -> exists e, e ∈ es /\ name e = n.
Proof.
  intros H. apply walk_first in H as (i & e & Hi & -> & _).
  exists e. split; [|reflexivity]. eapply list_elem_of_lookup_2, Hi.
Qed.

(* ===================================================================== *)
(** ** The shape of a single draw                                         *)
(* ===================================================================== *)

Section SingleDraw.
Import Chest ChestSpec.

(** On weights that are numbers the chest-aware sum and walk are the ones of
    the first version. *)
Lemma fold_plus_numeric (es : list LootEntry) (a : Z) :
  fold_left (fun acc e => plus acc (entryWeight e)) (numeric <$> es) (Number a)
  = Number (a + sumWeights es).
Proof.
  revert a. induction es as [|e es IH]; intros a; simpl.
  - now rewrite sumWeights_nil, Z.add_0_r.
  - rewrite IH, sumWeights_cons. f_equal. lia.
Qed.

Lemma sumEntries_numeric (es : list LootEntry) :
  sumEntries (numeric <$> es) = Number (sumWeights es).
Proof. unfold sumEntries. now rewrite fold_plus_numeric. Qed.

Lemma walk_numeric (roll : Q) (current : Z) (es : list LootEntry) :
  walk (Some roll) (Number current) (numeric <$> es) = Simple.walk roll current es.
Proof.
  revert current. induction es as [|e es IH]; intros current; simpl; [reflexivity|].
  now rewrite IH.
Qed.

(** A roll that is [NaN] is caught by no entry. *)
Lemma walk_NaN (current : Value) (es : list Entry) : walk None current es = None.
Proof. revert current. induction es as [|e es IH]; intros current; simpl; auto. Qed.

Lemma walk_entryName (roll : option Q) (current : Value) (es : list Entry) (n : string) :
  walk roll current es = Some n -> n ∈ entryName <$> es.
Proof.
  revert current. induction es as [|e es IH]; intros current; simpl; [discriminate|].
  destruct (lessEq roll (plus current (entryWeight e))).
  - intros [= <-]. apply elem_of_cons. now left.
  - intros H. apply elem_of_cons. right. exact (IH _ H).
Qed.

Lemma applyOverrides_names (config : ChestConfig) (es : list LootEntry) :
  entryName <$> applyOverrides config es = name <$> es.
Proof.
  unfold applyOverrides. destruct (weightOverrides config);
    rewrite <- list_fmap_compose; reflexivity.
Qed.

Lemma applyBoost_names (rarityBoost : Q) (es : list Entry) :
  entryName <$> applyBoost rarityBoost es = entryName <$> es.
Proof.
  unfold applyBoost. destruct (negb _); [|reflexivity].
  rewrite <- list_fmap_compose. reflexivity.
Qed.

Lemma adjusted_names (r : Roller) (chestType : ChestType) (rarityBoost : Q) :
  entryName <$> adjustedEntries r chestType rarityBoost =
  name <$> filterEntries (chestConfigs r chestType) (poolEntries (pool r)).
Proof.
  unfold adjustedEntries. now rewrite applyBoost_names, applyOverrides_names.
Qed.

Lemma adjusted_nil (r : Roller) (chestType : ChestType) (rarityBoost : Q) :
  filterEntries (chestConfigs r chestType) (poolEntries (pool r)) = [] ->
  adjustedEntries r chestType rarityBoost = [].
Proof.
  intros H. apply (fmap_nil_inv entryName). now rewrite adjusted_names, H.
Qed.

(** A draw whose adjusted weights sum to zero (as they do when there are
    none) is empty and leaves the roller as it was. *)
Lemma getLoot_empty (r : Roller) (chestType : ChestType) (rarityBoost rnd : Q) :
  isZero (sumEntries (adjustedEntries r chestType rarityBoost)) = true ->
  getLoot chestType rarityBoost rnd r = (None, r).
Proof.
  unfold adjustedEntries, getLoot, poolEntries. intros H.
  destruct (pool r) as [p|] eqn:Hp; [|reflexivity].
  destruct (length (entries p) =? 0)%nat; [reflexivity|].
  destruct (length _ =? 0)%nat; [reflexivity|].
  now rewrite H.
Qed.

(** Any other draw samples, counts and walks. *)
Lemma getLoot_walks (r : Roller) (chestType : ChestType) (rarityBoost rnd : Q) :
  isZero (sumEntries (adjustedEntries r chestType rarityBoost)) = false ->
  getLoot chestType rarityBoost rnd r =
    (walk (timesSample rnd (sumEntries (adjustedEntries r chestType rarityBoost)))
          (Number 0) (adjustedEntries r chestType rarityBoost),
     countRoll r).
Proof.
  intros Hsum.
  assert (Hne : filterEntries (chestConfigs r chestType) (poolEntries (pool r)) <> []).
  { intros Hnil. rewrite (adjusted_nil r chestType rarityBoost Hnil) in Hsum. discriminate. }
  unfold adjustedEntries, getLoot, poolEntries in *.
  destruct (pool r) as [p|] eqn:Hp; [|now elim Hne].
  destruct (entries p) as [|e0 es0] eqn:Hes; [now elim Hne|].
  cbn [length Nat.eqb].
  destruct (filterEntries (chestConfigs r chestType) (e0 :: es0)) as [|f fs] eqn:Hf;
    [now elim Hne|].
  cbn [length Nat.eqb]. now rewrite Hsum.
Qed.

(** With an entry left by the filter, a sum that is no number is not zero:
    the draw counts a roll that no entry can catch. *)
Lemma getLoot_NaN (r : Roller) (chestType : ChestType) (rarityBoost rnd : Q) :
  sumEntries (adjustedEntries r chestType rarityBoost) = NotNumber ->
  getLoot chestType rarityBoost rnd r = (None, countRoll r).
Proof.
  intros H. rewrite getLoot_walks by now rewrite H.
  rewrite H. simpl. now rewrite walk_NaN.
Qed.

(** A draw whose adjusted weights are the numbers of [es]. *)
Lemma getLoot_numeric (r : Roller) (chestType : ChestType) (rarityBoost rnd : Q)
    (es : list LootEntry) :
  adjustedEntries r chestType rarityBoost = numeric <$> es ->
  getLoot chestType rarityBoost rnd r =
    if sumWeights es =? 0 then (None, r)
    else (Simple.walk (fl (rnd * inject_Z (sumWeights es))) 0 es, countRoll r).
Proof.
  intros Hes. destruct (Z.eqb_spec (sumWeights es) 0) as [Hz|Hnz].
  - apply getLoot_empty. rewrite Hes, sumEntries_numeric. simpl. now apply Z.eqb_eq.
  - rewrite getLoot_walks; rewrite Hes, sumEntries_numeric; simpl.
    + now rewrite walk_numeric.
    + now apply Z.eqb_neq.
Qed.

Lemma boost_test (rarityBoost : Q) :
  negb (Qle_bool rarityBoost 1) = if Qlt_le_dec 1 rarityBoost then true else false.
Proof.
  destruct (Qlt_le_dec 1 rarityBoost) as [Hlt|Hle].
  - apply Qle_bool_false in Hlt. now rewrite Hlt.
  - apply Qle_bool_iff in Hle. now rewrite Hle.
Qed.

(** The value the code gives the weight of a filtered entry. *)
Lemma adjusted_pointwise (r : Roller) (chestType : ChestType) (rarityBoost : Q) :
  let config := chestConfigs r chestType in
  adjustedEntries r chestType rarityBoost =
  map (fun e =>
         let w := match weightOverrides config with
                  | Some overrides =>
                      default (Number (weight e)) (getProperty overrides (name e))
                  | None => Number (weight e)
                  end in
         {| entryName := name e;
            entryWeight := if Qlt_le_dec 1 rarityBoost then
                             if decide (name e ∈ RARE_PLUS_NAMES)
                             then boost w rarityBoost else w
                           else w |})
      (filterEntries config (poolEntries (pool r))).
Proof.
  intros config. unfold adjustedEntries, applyBoost, applyOverrides. fold config.
  rewrite boost_test.
  destruct (Qlt_le_dec 1 rarityBoost); destruct (weightOverrides config);
    rewrite ?map_map; reflexivity.
Qed.

(** Where no inherited member is read the adjusted entries are the eligible
    entries of the spec, with numbers for weights. *)
Lemma adjusted_numeric (r : Roller) (chestType : ChestType) (rarityBoost : Q) :
  plainNames (poolEntries (pool r)) \/
  weightOverrides (chestConfigs r chestType) = None ->
  adjustedEntries r chestType rarityBoost =
  numeric <$> eligibleEntries r chestType rarityBoost.
Proof.
  intros Hplain. rewrite adjusted_pointwise. unfold eligibleEntries.
  rewrite <- list_fmap_compose. apply list_fmap_ext.
  intros i e Hi. cbn zeta. unfold numeric, compose, boostedWeight, overriddenWeight. cbn.
  assert (Hin : e ∈ poolEntries (pool r)).
  { apply list_elem_of_lookup_2 in Hi. unfold filterEntries in Hi.
    now apply list_elem_of_filter in Hi as [_ Hi]. }
  assert (Hw : match weightOverrides (chestConfigs r chestType) with
               | Some overrides =>
                   default (Number (weight e)) (getProperty overrides (name e))
               | None => Number (weight e)
               end
               = Number match weightOverrides (chestConfigs r chestType) with
                        | Some overrides =>
                            match overrides !! name e with
                            | Some w => w
                            | None => weight e
                            end
                        | None => weight e
                        end).
  { destruct (weightOverrides (chestConfigs r chestType)) as [overrides|];
      [|reflexivity].
    destruct Hplain as [Hplain|Hnone]; [|discriminate].
    unfold getProperty. destruct (overrides !! name e); [reflexivity|].
    rewrite decide_False; [reflexivity|].
    exact (proj1 (Forall_forall _ _) Hplain e Hin). }
  rewrite Hw. f_equal.
  destruct (Qlt_le_dec 1 rarityBoost); [|reflexivity].
  unfold RARE_PLUS_NAMES. now destruct (decide _).
Qed.

Lemma eligible_names (r : Roller) (chestType : ChestType) (rarityBoost : Q) :
  name <$> eligibleEntries r chestType rarityBoost =
  name <$> filterEntries (chestConfigs r chestType) (poolEntries (pool r)).
Proof. unfold eligibleEntries. rewrite <- list_fmap_compose. reflexivity. Qed.

Lemma eligible_nil_iff (r : Roller) (chestType : ChestType) (rarityBoost : Q) :
  eligibleEntries r chestType rarityBoost = [] <->
  filterEntries (chestConfigs r chestType) (poolEntries (pool r)) = [].
Proof.
  split; intros H.
  - apply (fmap_nil_inv name). now rewrite <- (eligible_names r chestType rarityBoost), H.
  - apply (fmap_nil_inv name). now rewrite eligible_names, H.
Qed.

End SingleDraw.

(* ===================================================================== *)
(** ** C1: weighted selection                                             *)
(* ===================================================================== *)

Section WeightedSelection.
Import Chest ChestSpec.

(** The first version of the hook walks the pool itself with a roll below
    the pool sum. *)
Lemma Simple_getLoot_walks (r : Simple.Roller) (rnd : Q) :
  Simple.poolSum (Simple.pool r) <> 0 ->
  Simple.getLoot rnd r =
    (Simple.walk (fl (rnd * inject_Z (Simple.poolSum (Simple.pool r)))) 0
                 (poolEntries (Simple.pool r)),
     Simple.countRoll r).
Proof.
  unfold Simple.getLoot, poolEntries. intros Hsum.
  destruct (Simple.pool r) as [p|] eqn:Hp; [|now elim Hsum].
  destruct (entries p) as [|e0 es0] eqn:Hes.
  { cbn in Hsum. rewrite Hes in Hsum. now elim Hsum. }
  cbn [length Nat.eqb].
  apply Z.eqb_neq in Hsum. rewrite Hsum. unfold Simple.countRoll.
  now rewrite Hp.
Qed.

Lemma Simple_poolSum (p : option LootPool) :
  Simple.poolSum p = sumWeights (poolEntries p).
Proof. now destruct p. Qed.





End WeightedSelection.

(* ===================================================================== *)
(** ** C2: the construction invariant                                     *)
(* ===================================================================== *)

Section Construction.
Import Chest ChestSpec.

Lemma Simple_useLoot_cases (p : option LootPool) :
  (10000 < Simple.poolSum p /\ exists msg, Simple.useLoot p = Throw (Error msg)) \/
  (Simple.poolSum p <= 10000 /\
   Simple.useLoot p = Normal {| Simple.pool := p; Simple.totalRollsRef := 0 |}).
Proof.
  unfold Simple.useLoot, Simple.POOL_BASE_WEIGHT.
  destruct (Z.ltb_spec 10000 (Simple.poolSum p)); [left|right]; eauto.
Qed.

Lemma useLoot_cases (p : option LootPool) :
  (10000 < poolSum p /\ exists msg, useLoot p = Throw (Error msg)) \/
  (poolSum p <= 10000 /\
   useLoot p = Normal {| pool := p; chestConfigs := CHEST_CONFIGS;
                         totalRollsRef := 0 |}).
Proof.
  unfold useLoot, POOL_BASE_WEIGHT.
  destruct (Z.ltb_spec 10000 (poolSum p)); [left|right]; eauto.
Qed.

(** C2.  Mounting the hook on a pool throws (an [Error] naming the pool sum
    and the base weight, the spec's ConfigurationError) exactly when the sum
    of the pool's weights exceeds 10000; for every pool whose sum is at most
    10000 it returns a roller on that pool with a zero counter.  Both versions
    of the hook. *)
Theorem useLoot_fails_iff_over_base (p : option LootPool) :
  ((exists msg, useLoot p = Throw (Error msg)) <-> 10000 < sumWeights (poolEntries p)) /\
  (sumWeights (poolEntries p) <= 10000 <->
   useLoot p = Normal {| pool := p; chestConfigs := CHEST_CONFIGS;
                         totalRollsRef := 0 |}) /\
  ((exists msg, Simple.useLoot p = Throw (Error msg)) <->
   10000 < sumWeights (poolEntries p)) /\
  (sumWeights (poolEntries p) <= 10000 <->
   Simple.useLoot p = Normal {| Simple.pool := p; Simple.totalRollsRef := 0 |}).
Proof.
  assert (Hc : poolSum p = sumWeights (poolEntries p)) by now destruct p.
  assert (Hs : Simple.poolSum p = sumWeights (poolEntries p)) by now destruct p.
  rewrite <- Hc at 1 2. rewrite <- Hs.
  destruct (useLoot_cases p) as [[Hover [msg Hthrow]]|[Hfit Hok]];
    destruct (Simple_useLoot_cases p) as [[Hover' [msg' Hthrow']]|[Hfit' Hok']];
    try (rewrite Hc, <- Hs in *; lia).
  - rewrite Hthrow, Hthrow'. repeat split; eauto; try discriminate; lia.
  - rewrite Hok, Hok'. repeat split; eauto; try lia; intros [? [=]].
Qed.

Lemma useLoot_fails_iff_over_base_witness :
  useLoot (Some rarityPool) = Normal rarityRoller /\
  exists msg,
    useLoot (Some {| poolName := "heavy";
                     entries := [ {| name := "common"; weight := 10001 |} ] |})
    = Throw (Error msg).
Proof.
  split.
  - apply (useLoot_fails_iff_over_base (Some rarityPool)). vm_compute. discriminate.
  - apply (useLoot_fails_iff_over_base
             (Some {| poolName := "heavy";
                      entries := [ {| name := "common"; weight := 10001 |} ] |})).
    vm_compute. reflexivity.
Defined.

End Construction.

(* ===================================================================== *)
(** ** C3: the odds table                                                 *)
(* ===================================================================== *)

Section Odds.
Import Chest ChestSpec.

Lemma fold_setChance_other (chance : Z -> number) (es : list LootEntry)
    (table : gmap string number) (n : string) :
  n ∉ name <$> es ->
  fold_left (setChance chance) es table !! n = table !! n.
Proof.
  revert table. induction es as [|e es IH]; intros table Hn; [reflexivity|].
  rewrite fmap_cons, not_elem_of_cons in Hn. destruct Hn as [Hne Hn].
  simpl. rewrite IH by assumption. unfold setChance.
  destruct (decide (name e = "__proto__")); [reflexivity|].
  now rewrite lookup_insert_ne.
Qed.

(** The table holds, under a name other than ["__proto__"], the chance of
    the last entry of that name. *)
Lemma fold_setChance_last (chance : Z -> number) (es : list LootEntry)
    (table : gmap string number) (i : nat) (e : LootEntry) :
  es !! i = Some e -> name e <> "__proto__" ->
  (forall j e', (i < j)%nat -> es !! j = Some e' -> name e' <> name e) ->
  fold_left (setChance chance) es table !! name e = Some (chance (weight e)).
Proof.
  intros Hi Hproto Hlater.
  rewrite <- (take_drop_middle es i e Hi), fold_left_app. simpl.
  rewrite fold_setChance_other.
  - unfold setChance. rewrite decide_False by exact Hproto. apply lookup_insert_eq.
  - intros Hin. apply list_elem_of_fmap in Hin as (e' & Hname & Hin).
    apply list_elem_of_lookup in Hin as [k Hk].
    rewrite lookup_drop in Hk.
    apply (Hlater (S i + k)%nat e'); [lia|assumption|congruence].
Qed.

(** The keys of the table: the entry names, ["__proto__"] left out. *)
Lemma fold_setChance_keys (chance : Z -> number) (es : list LootEntry)
    (table : gmap string number) (n : string) :
  is_Some (fold_left (setChance chance) es table !! n) <->
  (n ∈ name <$> es /\ n <> "__proto__") \/ is_Some (table !! n).
Proof.
  revert table. induction es as [|e es IH]; intros table; simpl.
  - rewrite elem_of_nil. tauto.
  - rewrite IH, elem_of_cons. unfold setChance.
    destruct (decide (name e = "__proto__")) as [Hp|Hp].
    + split; [tauto|]. intros [[[Heq|Hin] Hn]|Hs]; [congruence|tauto..].
    + destruct (decide (name e = n)) as [<-|Hne].
      * rewrite lookup_insert_eq. split; [|eauto]. intros _. left. tauto.
      * rewrite lookup_insert_ne by assumption. split; [tauto|].
        intros [[[Heq|Hin] Hn]|Hs]; [congruence|tauto..].
Qed.

Lemma distinctNames_later (es : list LootEntry) (i j : nat) (e e' : LootEntry) :
  distinctNames es -> es !! i = Some e -> es !! j = Some e' ->
  (i < j)%nat -> name e' <> name e.
Proof.
  intros Hnd Hi Hj Hlt Heq.
  assert (i = j); [|lia].
  eapply (NoDup_lookup _ _ _ (name e) Hnd).
  - now rewrite list_lookup_fmap, Hi.
  - now rewrite list_lookup_fmap, Hj, <- Heq.
Qed.

Lemma toFixed2_nonneg (x : Q) :
  (0 <= x)%Q -> toFixed2 x = Math_round (x * 100).
Proof.
  intros Hx. unfold toFixed2, Math_round.
  apply Qle_bool_iff in Hx. now rewrite Hx.
Qed.

Lemma toPercentage_zero (total : Z) : toPercentage 0 total = Finite 0.
Proof. reflexivity. Qed.

Lemma Qfloor_unique (x : Q) (n : Z) :
  (inject_Z n <= x)%Q -> (x < inject_Z n + 1)%Q -> Qfloor x = n.
Proof.
  intros Hlo Hhi.
  pose proof (Qfloor_le x) as H1. pose proof (Qlt_floor x) as H2.
  rewrite inject_Z_plus in H2. change (inject_Z 1) with 1%Q in H2.
  assert (n < Qfloor x + 1) by (apply inject_Z_lt; rewrite inject_Z_plus;
                                change (inject_Z 1) with 1%Q; lra).
  assert (Qfloor x < n + 1) by (apply inject_Z_lt; rewrite inject_Z_plus;
                                change (inject_Z 1) with 1%Q; lra).
  lia.
Qed.

(** Away from a tie, a value within [d] of [a] rounds as [a] does. *)
Lemma Math_round_near (a b d : Q) :
  (0 <= d)%Q -> (d < 1 # 2)%Q -> (b - a <= d)%Q -> (a - b <= d)%Q ->
  (a - inject_Z (Qfloor a) < (1 # 2) - d)%Q \/
  ((1 # 2) + d < a - inject_Z (Qfloor a))%Q ->
  Math_round b = Math_round a.
Proof.
  intros Hd0 Hd1 Hba Hab Haway.
  pose proof (Qfloor_le a) as H1. pose proof (Qlt_floor a) as H2.
  rewrite inject_Z_plus in H2. change (inject_Z 1) with 1%Q in H2.
  unfold Math_round. destruct Haway as [Hlow|Hhigh].
  - rewrite (Qfloor_unique (a + (1 # 2)) (Qfloor a)) by lra.
    apply Qfloor_unique; lra.
  - rewrite (Qfloor_unique (a + (1 # 2)) (Qfloor a + 1))
      by (rewrite inject_Z_plus; change (inject_Z 1) with 1%Q; lra).
    apply Qfloor_unique; rewrite inject_Z_plus; change (inject_Z 1) with 1%Q; lra.
Qed.

(** The quotient and product of [toPercentage] in doubles, for a share of a
    positive total: within [2^-45] of the exact percentage. *)
Lemma percentage_double (w s : Z) :
  0 <= w <= s -> 0 < s ->
  let x := (inject_Z w / inject_Z s * 100)%Q in
  let y := fl (fl (inject_Z w / inject_Z s) * 100) in
  (0 <= x)%Q /\ (x <= 100)%Q /\ (0 <= y)%Q /\ (y <= 100)%Q /\
  (y - x <= pow2 (-45))%Q /\ (x - y <= pow2 (-45))%Q.
Proof.
  intros [Hw Hws] Hs x y.
  pose proof (inject_Z_pos s Hs) as Hs'. pose proof (inject_Z_nonneg w Hw) as Hw'.
  assert (Ht0 : (0 <= inject_Z w / inject_Z s)%Q).
  { apply Qle_shift_div_l; [assumption|]. lra. }
  assert (Ht1 : (inject_Z w / inject_Z s <= 1)%Q).
  { apply Qle_shift_div_r; [assumption|]. rewrite Qmult_1_l. now apply inject_Z_le. }
  set (t := (inject_Z w / inject_Z s)%Q) in *.
  assert (Hf0 : (0 <= fl t)%Q) by now apply fl_nonneg.
  assert (Hf1 : (fl t <= 1)%Q).
  { apply (fl_le_Z t 1); [vm_compute; discriminate|exact Ht1]. }
  destruct (fl_error_bound t 0) as [Ht_up Ht_dn]; [assumption| |lia|].
  { change (pow2 (0 + 1)) with 2%Q. lra. }
  change (pow2 (0 - 53)) with (1 # 9007199254740992)%Q in Ht_up, Ht_dn.
  assert (Hy0 : (0 <= y)%Q) by (apply fl_nonneg; lra).
  assert (Hy1 : (y <= 100)%Q).
  { apply (fl_le_Z _ 100); [vm_compute; discriminate|].
    change (inject_Z 100) with 100%Q. lra. }
  destruct (fl_error_bound (fl t * 100) 6) as [Hz_up Hz_dn]; [lra| |lia|].
  { change (pow2 (6 + 1)) with 128%Q. lra. }
  change (pow2 (6 - 53)) with (1 # 140737488355328)%Q in Hz_up, Hz_dn.
  fold y in Hz_up, Hz_dn.
  change (pow2 (-45)) with (1 # 35184372088832)%Q.
  unfold x. repeat split; lra.
Qed.

(** [toPercentage] of a share of a positive total. *)
Lemma toPercentage_share (w s : Z) :
  0 <= w <= s -> 0 < s ->
  let x := (inject_Z w / inject_Z s * 100)%Q in
  exists q,
    toPercentage w s = Finite q /\
    (0 <= q)%Q /\ (q <= 100)%Q /\
    (q - x <= (1 # 200) + pow2 (-44))%Q /\ (x - q <= (1 # 200) + pow2 (-44))%Q /\
    (awayFromTie x -> (q == fl (specChance w s))%Q).
Proof.
  intros Hws Hs x.
  destruct (percentage_double w s Hws Hs) as (Hx0 & Hx1 & Hy0 & Hy1 & Hup & Hdn).
  fold x in Hx0, Hx1, Hup, Hdn.
  set (y := fl (fl (inject_Z w / inject_Z s) * 100)) in *.
  change (pow2 (-45)) with (1 # 35184372088832)%Q in Hup, Hdn.
  assert (Hq : toPercentage w s = Finite (parseFloat2 (Math_round (y * 100)))).
  { unfold toPercentage. destruct (Z.eqb_spec w 0) as [->|Hnz].
    - reflexivity.
    - destruct (Z.eqb_spec s 0) as [->|_]; [lia|].
      now rewrite toFixed2_nonneg by exact Hy0. }
  exists (parseFloat2 (Math_round (y * 100))). split; [exact Hq|].
  pose proof (Math_round_bounds (y * 100)) as [Hm_lo Hm_hi].
  assert (Hm0 : 0 <= Math_round (y * 100)) by (apply Math_round_nonneg; lra).
  assert (Hm1 : Math_round (y * 100) <= 10000).
  { rewrite <- (Math_round_inject_Z 10000). apply Math_round_mono.
    change (inject_Z 10000) with 10000%Q. lra. }
  set (N := Math_round (y * 100)) in *.
  apply inject_Z_le in Hm0, Hm1.
  change (inject_Z 0) with 0%Q in Hm0. change (inject_Z 10000) with 10000%Q in Hm1.
  assert (HN : (inject_Z N / 100 == inject_Z N * (1 # 100))%Q) by field.
  unfold parseFloat2. rewrite Qred_correct.
  destruct (fl_error_bound (inject_Z N / 100) 6) as [Hp_up Hp_dn]; [lra| |lia|].
  { change (pow2 (6 + 1)) with 128%Q. lra. }
  change (pow2 (6 - 53)) with (1 # 140737488355328)%Q in Hp_up, Hp_dn.
  change (pow2 (-44)) with (1 # 17592186044416)%Q.
  split; [apply fl_nonneg; lra|]. split.
  { apply (fl_le_Z _ 100); [vm_compute; discriminate|].
    change (inject_Z 100) with 100%Q. lra. }
  split; [lra|]. split; [lra|].
  intros Haway. unfold specChance, roundHundredths. fold x.
  assert (HNx : N = Math_round (x * 100)).
  { unfold N. apply (Math_round_near (x * 100) (y * 100) (pow2 (-36))).
    - change (pow2 (-36)) with (1 # 68719476736)%Q. lra.
    - change (pow2 (-36)) with (1 # 68719476736)%Q. lra.
    - change (pow2 (-36)) with (1 # 68719476736)%Q. lra.
    - change (pow2 (-36)) with (1 # 68719476736)%Q. lra.
    - exact Haway. }
  now rewrite HNx.
Qed.

Lemma weight_le_sum (es : list LootEntry) (e : LootEntry) :
  nonnegWeights es -> e ∈ es -> 0 <= weight e <= sumWeights es.
Proof.
  intros Hnn Hin. apply list_elem_of_split in Hin as (l1 & l2 & ->).
  unfold nonnegWeights in Hnn. apply Forall_app in Hnn as [H1 H2].
  apply Forall_cons in H2 as [He H2].
  pose proof (sumWeights_nonneg _ H1). pose proof (sumWeights_nonneg _ H2).
  rewrite sumWeights_app, sumWeights_cons. lia.
Qed.

(** C3, as the code has it.  [getLootChances] maps the name of every entry
    of the base pool, other than ["__proto__"], to the result of
    [toPercentage]: a double between 0 and 100 within half a hundredth (and
    [2^-44]) of the entry's weight over the pool sum as a percentage; it is
    the double nearest to that percentage rounded to two decimal places
    whenever the percentage is not within [2^-36] hundredths of a rounding
    tie, where the double arithmetic can round the other way, and it is 0 for
    a zero weight.  (An entry shadowed by a later one of the same name gives
    way to it.)  The keys are the entry names without ["__proto__"]; the table
    depends on the pool alone, whatever the chest table and the counter; it is
    empty for a pool without entries; and on the rarity pool it is common 60,
    uncommon 25, rare 10, epic 4, legendary 0.9, mythic 0.1, as doubles. *)
Theorem getLootChances_spec :
  (forall (r : Roller) (i : nat) (e : LootEntry),
      nonnegWeights (poolEntries (pool r)) ->
      poolEntries (pool r) !! i = Some e ->
      name e <> "__proto__" ->
      (distinctNames (poolEntries (pool r)) \/
       forall j e', (i < j)%nat -> poolEntries (pool r) !! j = Some e' ->
                    name e' <> name e) ->
      let s := sumWeights (poolEntries (pool r)) in
      let x := (inject_Z (weight e) / inject_Z s * 100)%Q in
      exists q,
        getLootChances r !! name e = Some (Finite q) /\
        (0 <= q)%Q /\ (q <= 100)%Q /\
        (0 < s ->
         (q - x <= (1 # 200) + pow2 (-44))%Q /\ (x - q <= (1 # 200) + pow2 (-44))%Q /\
         (awayFromTie x -> (q == fl (specChance (weight e) s))%Q)) /\
        (weight e = 0 -> q = 0%Q)) /\
  (forall (r : Roller) (n : string),
      is_Some (getLootChances r !! n) <->
      n ∈ name <$> poolEntries (pool r) /\ n <> "__proto__") /\
  (forall r1 r2 : Roller, pool r1 = pool r2 -> getLootChances r1 = getLootChances r2) /\
  (forall r : Roller, poolEntries (pool r) = [] -> getLootChances r = ∅) /\
  getLootChances rarityRoller =
    <["common" := Finite 60]> (<["uncommon" := Finite 25]> (<["rare" := Finite 10]>
    (<["epic" := Finite 4]> (<["legendary" := Finite (Qred (fl (9 # 10)))]>
    (<["mythic" := Finite (Qred (fl (1 # 10)))]> ∅))))).
Proof.
  split; [|split; [|split; [|split]]].
  - intros r i e Hnonneg Hi Hproto Hlast s x.
    assert (Hlater : forall j e', (i < j)%nat -> poolEntries (pool r) !! j = Some e' ->
                                  name e' <> name e).
    { destruct Hlast as [Hnd|Hlater]; [|assumption].
      intros j e' Hlt Hj. eapply distinctNames_later; eassumption. }
    pose proof (weight_le_sum _ e Hnonneg (list_elem_of_lookup_2 _ _ _ Hi)) as Hw.
    fold s in Hw.
    assert (Htable : getLootChances r !! name e = Some (toPercentage (weight e) s)).
    { unfold getLootChances, toPercentageChance, poolSum, s.
      destruct (pool r) as [p|]; simpl in *; [|now rewrite lookup_nil in Hi].
      exact (fold_setChance_last _ _ _ i e Hi Hproto Hlater). }
    rewrite Htable.
    destruct (Z.eq_dec (weight e) 0) as [Hz|Hnz].
    + exists 0%Q. rewrite Hz, toPercentage_zero.
      split; [reflexivity|]. split; [discriminate|]. split; [discriminate|].
      split; [|reflexivity]. intros Hpos.
      destruct (toPercentage_share 0 s ltac:(lia) Hpos)
        as (q & Hq & _ & _ & Hup & Hdn & Htie).
      rewrite toPercentage_zero in Hq. injection Hq as <-.
      unfold x. rewrite Hz. split; [exact Hup|]. split; [exact Hdn|exact Htie].
    + assert (Hpos : 0 < s) by lia.
      destruct (toPercentage_share (weight e) s Hw Hpos)
        as (q & Hq & Hq0 & Hq1 & Hup & Hdn & Htie).
      exists q. rewrite Hq. split; [reflexivity|]. split; [exact Hq0|].
      split; [exact Hq1|]. split; [|lia].
      intros _. split; [exact Hup|]. split; [exact Hdn|exact Htie].
  - intros r n. unfold getLootChances. destruct (pool r) as [p|]; simpl.
    + rewrite fold_setChance_keys, lookup_empty. split; [|now left].
      intros [H|H]; [exact H|now apply is_Some_None in H].
    + rewrite lookup_empty, elem_of_nil. split; [|tauto].
      intros H. now apply is_Some_None in H.
  - intros r1 r2 Heq. unfold getLootChances, toPercentageChance. now rewrite Heq.
  - intros r Hnil. unfold getLootChances. destruct (pool r) as [p|]; [|reflexivity].
    simpl in Hnil. now rewrite Hnil.
  - vm_compute. reflexivity.
Qed.

Lemma getLootChances_spec_witness :
  exists q,
    getLootChances rarityRoller !! "legendary" = Some (Finite q) /\
    (q == fl (specChance 90 10000))%Q.
Proof.
  assert (Hnonneg : nonnegWeights (poolEntries (pool rarityRoller))).
  { repeat constructor; discriminate. }
  destruct (proj1 getLootChances_spec rarityRoller 4%nat
              {| name := "legendary"; weight := 90 |} Hnonneg eq_refl)
    as (q & Hq & _ & _ & Hspec & _).
  - discriminate.
  - right. intros j e' Hlt Hj.
    destruct j as [|[|[|[|[|[|j]]]]]]; try lia; [|discriminate Hj].
    injection Hj as <-. discriminate.
  - exists q. split; [exact Hq|].
    apply (Hspec eq_refl). left. vm_compute. reflexivity.
Defined.

(** The claim as stated fails.  In the pool [a 6, b 7994] the exact
    percentage of [a], 0.075, rounds to 0.08, but the quotient and product
    in doubles fall just below it and the table holds 0.07.  An entry named
    ["__proto__"] gets no key at all.  And of two entries of the same name
    the table holds the percentage of the later one only. *)
Lemma getLootChances_rounds_a_double :
  getLootChances
    {| pool := Some {| poolName := "p";
                       entries := [ {| name := "a"; weight := 6 |};
                                    {| name := "b"; weight := 7994 |} ] |};
       chestConfigs := CHEST_CONFIGS; totalRollsRef := 0 |} !! "a"
    = Some (Finite (Qred (fl (7 # 100)))) /\
  (specChance 6 8000 == 8 # 100)%Q /\
  (fl (7 # 100) < fl (8 # 100))%Q /\
  getLootChances
    {| pool := Some {| poolName := "p";
                       entries := [ {| name := "__proto__"; weight := 5000 |};
                                    {| name := "common"; weight := 5000 |} ] |};
       chestConfigs := CHEST_CONFIGS; totalRollsRef := 0 |} !! "__proto__"
    = None /\
  getLootChances
    {| pool := Some {| poolName := "p";
                       entries := [ {| name := "a"; weight := 1 |};
                                    {| name := "a"; weight := 3 |} ] |};
       chestConfigs := CHEST_CONFIGS; totalRollsRef := 0 |} !! "a"
    = Some (Finite 75).
Proof. vm_compute. repeat split. Qed.

End Odds.

(* ===================================================================== *)
(** ** C7: overrides first, then the boost                                *)
(* ===================================================================== *)

Section Reweighting.
Import Chest ChestSpec.



Lemma rarityPool_plain : plainNames (entries rarityPool).
Proof.
  unfold plainNames. apply (bool_decide_unpack _). vm_compute. exact I.
Defined.



End Reweighting.

(* ===================================================================== *)
(** ** C6: exclusions                                                     *)
(* ===================================================================== *)

Section Exclusions.
Import Chest ChestSpec.

Lemma getLoot_result_eligible
    (r : Roller) (chestType : ChestType) (rarityBoost rnd : Q) (n : string) :
  fst (getLoot chestType rarityBoost rnd r) = Some n ->
  exists e, e ∈ filterEntries (chestConfigs r chestType) (poolEntries (pool r)) /\
            name e = n.
Proof.
  intros Hres.
  destruct (isZero (sumEntries (adjustedEntries r chestType rarityBoost))) eqn:Hz.
  - rewrite getLoot_empty in Hres by exact Hz. discriminate.
  - rewrite getLoot_walks in Hres by exact Hz. simpl in Hres.
    apply walk_entryName in Hres. rewrite adjusted_names in Hres.
    apply list_elem_of_fmap in Hres as (e & -> & He). now exists e.
Qed.

(** C6.  Whatever the chest type, the boost and the sample, a draw that
    returns a name returns the name of an entry of the pool that the chest
    does not exclude, so never a name of the chest's exclusion set; on the
    rarity pool an epic chest never returns common, uncommon or rare. *)
Theorem getLoot_never_excluded :
  (forall (r : Roller) (chestType : ChestType) (rarityBoost rnd : Q) (n : string),
      fst (getLoot chestType rarityBoost rnd r) = Some n ->
      (n ∉ excludeRarities (chestConfigs r chestType)) /\
      exists e, e ∈ poolEntries (pool r) /\ name e = n /\
                name e ∉ excludeRarities (chestConfigs r chestType)) /\
  (forall (r : Roller) (rarityBoost rnd : Q),
      pool r = Some rarityPool -> chestConfigs r = CHEST_CONFIGS ->
      fst (getLoot epic rarityBoost rnd r) <> Some "common" /\
      fst (getLoot epic rarityBoost rnd r) <> Some "uncommon" /\
      fst (getLoot epic rarityBoost rnd r) <> Some "rare").
Proof.
  assert (Hgen : forall r chestType rarityBoost rnd n,
             fst (getLoot chestType rarityBoost rnd r) = Some n ->
             (n ∉ excludeRarities (chestConfigs r chestType)) /\
             exists e, e ∈ poolEntries (pool r) /\ name e = n /\
                       name e ∉ excludeRarities (chestConfigs r chestType)).
  { intros r chestType rarityBoost rnd n Hres.
    apply getLoot_result_eligible in Hres as (e & He & <-).
    unfold filterEntries in He. apply list_elem_of_filter in He as [Hex He].
    split; [assumption|]. now exists e. }
  split; [exact Hgen|].
  intros r rarityBoost rnd Hpool Hcfg.
  assert (Hex : forall n, n ∈ ["common"; "uncommon"; "rare"] ->
                          fst (getLoot epic rarityBoost rnd r) <> Some n).
  { intros n Hn Hres. apply Hgen in Hres as [Hnot _].
    rewrite Hcfg in Hnot. now apply Hnot. }
  repeat split; apply Hex; repeat first [left; reflexivity | right]; constructor.
Qed.

Lemma getLoot_never_excluded_witness :
  ("epic" ∉ excludeRarities (CHEST_CONFIGS epic)) /\
  exists e, e ∈ entries rarityPool /\ name e = "epic".
Proof.
  destruct (proj1 getLoot_never_excluded rarityRoller epic 1%Q (1 # 2) "epic" eq_refl)
    as (Hnot & e & He & Hname & _).
  split; [exact Hnot|]. exists e. split; assumption.
Defined.

End Exclusions.

(* ===================================================================== *)
(** ** What a draw and a batch do to the roller                           *)
(* ===================================================================== *)

Section RollerState.
Import Chest ChestSpec.

(** A draw leaves the roller as it was or counts one roll. *)
Lemma getLoot_state (r : Roller) (chestType : ChestType) (rarityBoost rnd : Q) :
  snd (getLoot chestType rarityBoost rnd r) = r \/
  snd (getLoot chestType rarityBoost rnd r) = countRoll r.
Proof.
  destruct (isZero (sumEntries (adjustedEntries r chestType rarityBoost))) eqn:Hz.
  - left. now rewrite getLoot_empty.
  - right. now rewrite getLoot_walks.
Qed.


Lemma getLoot_frame (r : Roller) (chestType : ChestType) (rarityBoost rnd : Q) :
  pool (snd (getLoot chestType rarityBoost rnd r)) = pool r /\
  chestConfigs (snd (getLoot chestType rarityBoost rnd r)) = chestConfigs r.
Proof.
  destruct (getLoot_state r chestType rarityBoost rnd) as [-> | ->]; now split.
Qed.

Lemma overriddenWeight_nonneg (config : ChestConfig) (e : LootEntry) :
  nonnegOverrides config -> 0 <= weight e -> 0 <= overriddenWeight config e.
Proof.
  intros Hov Hw. unfold overriddenWeight.
  destruct (weightOverrides config) as [overrides|] eqn:Hcfg; [|assumption].
  destruct (overrides !! name e) as [w|] eqn:Hlook; [|assumption].
  exact (Hov overrides Hcfg (name e) w Hlook).
Qed.

Lemma boostedWeight_nonneg (rarityBoost : Q) (n : string) (w : Z) :
  0 <= w -> 0 <= boostedWeight rarityBoost n w.
Proof.
  intros Hw. unfold boostedWeight.
  destruct (Qlt_le_dec 1 rarityBoost) as [Hlt|_]; [|assumption].
  destruct (decide _); [|assumption].
  apply Math_round_nonneg, fl_nonneg.
  pose proof (inject_Z_nonneg w Hw). nra.
Qed.

(** On a well-formed roller every adjusted weight is a weight. *)
Lemma eligible_nonneg (r : Roller) (chestType : ChestType) (rarityBoost : Q) :
  wellFormed r -> nonnegWeights (eligibleEntries r chestType rarityBoost).
Proof.
  intros [Hpool Hcfg]. unfold nonnegWeights, eligibleEntries.
  apply Forall_forall. intros e' Hin.
  apply list_elem_of_In, in_map_iff in Hin as (e & <- & Hin). simpl.
  apply boostedWeight_nonneg, overriddenWeight_nonneg; [apply Hcfg|].
  apply list_elem_of_In in Hin. unfold filterEntries in Hin.
  apply list_elem_of_filter in Hin as [_ Hin].
  exact (proj1 (Forall_forall _ _) Hpool e Hin).
Qed.

(** A draw on a well-formed roller with plain names whose adjusted weights
    do not sum to zero returns a name and counts it. *)
Lemma getLoot_hits (r : Roller) (chestType : ChestType) (rarityBoost rnd : Q) :
  wellFormed r -> plainNames (poolEntries (pool r)) -> unitSample rnd ->
  sumWeights (eligibleEntries r chestType rarityBoost) <> 0 ->
  is_Some (fst (getLoot chestType rarityBoost rnd r)) /\
  snd (getLoot chestType rarityBoost rnd r) = countRoll r.
Proof.
  intros Hwf Hplain Hrnd Hnz.
  pose proof (sumWeights_nonneg _ (eligible_nonneg r chestType rarityBoost Hwf)) as Hnn.
  assert (Hpos : 0 < sumWeights (eligibleEntries r chestType rarityBoost)) by lia.
  rewrite (getLoot_numeric r chestType rarityBoost rnd _
             (adjusted_numeric r chestType rarityBoost (or_introl Hplain))).
  apply Z.eqb_neq in Hnz. rewrite Hnz. split; [|reflexivity]. simpl.
  apply walk_nonempty.
  - intros Hnil. rewrite Hnil, sumWeights_nil in Hpos. lia.
  - apply Qlt_le_weak, roll_range; assumption.
Qed.

(** Such a draw is empty exactly when the sum is zero, and then leaves the
    roller alone. *)
Lemma getLoot_misses (r : Roller) (chestType : ChestType) (rarityBoost rnd : Q) :
  plainNames (poolEntries (pool r)) ->
  sumWeights (eligibleEntries r chestType rarityBoost) = 0 ->
  getLoot chestType rarityBoost rnd r = (None, r).
Proof.
  intros Hplain Hz.
  rewrite (getLoot_numeric r chestType rarityBoost rnd _
             (adjusted_numeric r chestType rarityBoost (or_introl Hplain))).
  apply Z.eqb_eq in Hz. now rewrite Hz.
Qed.

Lemma wellFormed_frame (r r' : Roller) :
  pool r' = pool r -> chestConfigs r' = chestConfigs r ->
  wellFormed r -> wellFormed r'.
Proof. unfold wellFormed. now intros -> ->. Qed.

(** On a well-formed roller with plain names the counter moves by one
    exactly when the draw returns a name. *)
Lemma getLoot_counter (r : Roller) (chestType : ChestType) (rarityBoost rnd : Q) :
  wellFormed r -> plainNames (poolEntries (pool r)) -> unitSample rnd ->
  match fst (getLoot chestType rarityBoost rnd r) with
  | Some _ => snd (getLoot chestType rarityBoost rnd r) = countRoll r
  | None => snd (getLoot chestType rarityBoost rnd r) = r
  end.
Proof.
  intros Hwf Hplain Hrnd.
  destruct (Z.eq_dec (sumWeights (eligibleEntries r chestType rarityBoost)) 0) as [Hz|Hnz].
  - now rewrite getLoot_misses.
  - destruct (getLoot_hits r chestType rarityBoost rnd Hwf Hplain Hrnd Hnz) as [[n ->] ->].
    reflexivity.
Qed.

Lemma mapGetLoot_length (n i : nat) (chestType : ChestType) (rarityBoost : Q)
    (rnds : nat -> Q) (r : Roller) :
  length (fst (mapGetLoot n i chestType rarityBoost rnds r)) = n.
Proof.
  revert i r. induction n as [|n IH]; intros i r; [reflexivity|]. simpl.
  destruct (getLoot chestType rarityBoost (rnds i) r) as [item r1].
  specialize (IH (S i) r1).
  destruct (mapGetLoot n (S i) chestType rarityBoost rnds r1) as [items r2].
  simpl in *. now rewrite IH.
Qed.

Lemma mapGetLoot_frame (n i : nat) (chestType : ChestType) (rarityBoost : Q)
    (rnds : nat -> Q) (r : Roller) :
  pool (snd (mapGetLoot n i chestType rarityBoost rnds r)) = pool r /\
  chestConfigs (snd (mapGetLoot n i chestType rarityBoost rnds r)) = chestConfigs r.
Proof.
  revert i r. induction n as [|n IH]; intros i r; [now split|]. simpl.
  pose proof (getLoot_frame r chestType rarityBoost (rnds i)) as [Hp Hc].
  destruct (getLoot chestType rarityBoost (rnds i) r) as [item r1].
  specialize (IH (S i) r1).
  destruct (mapGetLoot n (S i) chestType rarityBoost rnds r1) as [items r2].
  simpl in *. destruct IH as [-> ->]. now split.
Qed.

(** The draws of a batch are successive single draws. *)
Lemma mapGetLoot_each (n i : nat) (chestType : ChestType) (rarityBoost : Q)
    (rnds : nat -> Q) (r : Roller) :
  mapGetLoot n i chestType rarityBoost rnds r =
  getLootEach (map (fun k => (chestType, rarityBoost, rnds k)) (seq i n)) r.
Proof.
  revert i r. induction n as [|n IH]; intros i r; [reflexivity|]. simpl.
  destruct (getLoot chestType rarityBoost (rnds i) r) as [item r1].
  now rewrite IH.
Qed.

Lemma getLootEach_length (calls : list (ChestType * Q * Q)) (r : Roller) :
  length (fst (getLootEach calls r)) = length calls.
Proof.
  revert r. induction calls as [|[[c b] u] calls IH]; intros r; [reflexivity|]. simpl.
  destruct (getLoot c b u r) as [item r1]. specialize (IH r1).
  destruct (getLootEach calls r1) as [items r2]. simpl in *. now rewrite IH.
Qed.

Lemma getLootEach_frame (calls : list (ChestType * Q * Q)) (r : Roller) :
  pool (snd (getLootEach calls r)) = pool r /\
  chestConfigs (snd (getLootEach calls r)) = chestConfigs r.
Proof.
  revert r. induction calls as [|[[c b] u] calls IH]; intros r; [now split|]. simpl.
  pose proof (getLoot_frame r c b u) as [Hp Hc].
  destruct (getLoot c b u r) as [item r1]. specialize (IH r1).
  destruct (getLootEach calls r1) as [items r2].
  simpl in *. destruct IH as [-> ->]. now split.
Qed.

(** Successive draws count one roll for each name they return. *)
Lemma getLootEach_counter (calls : list (ChestType * Q * Q)) (r : Roller) :
  wellFormed r -> plainNames (poolEntries (pool r)) ->
  Forall (fun c => unitSample (snd c)) calls ->
  totalRollsRef (snd (getLootEach calls r)) =
  totalRollsRef r + Z.of_nat (length (filterNotNull (fst (getLootEach calls r)))).
Proof.
  intros Hwf Hplain Hrnds. revert r Hwf Hplain.
  induction Hrnds as [|[[c b] u] calls Hu _ IH]; intros r Hwf Hplain; [simpl; lia|]. simpl.
  pose proof (getLoot_counter r c b u Hwf Hplain Hu) as Hc.
  pose proof (getLoot_frame r c b u) as [Hp Hcfg].
  destruct (getLoot c b u r) as [item r1]. simpl in Hc, Hp, Hcfg.
  specialize (IH r1 (wellFormed_frame r r1 Hp Hcfg Hwf)).
  rewrite Hp in IH. specialize (IH Hplain).
  destruct (getLootEach calls r1) as [items r2].
  simpl in *. rewrite IH. unfold filterNotNull in *.
  destruct item as [x|]; subst r1; simpl; lia.
Qed.


Lemma getLootEach_counter_bounds (calls : list (ChestType * Q * Q)) (r : Roller) :
  totalRollsRef r <= totalRollsRef (snd (getLootEach calls r))
    <= totalRollsRef r + Z.of_nat (length calls).
Proof.
  revert r. induction calls as [|[[c b] u] calls IH]; intros r; [simpl; lia|]. simpl.
  pose proof (getLoot_state r c b u) as Hst.
  destruct (getLoot c b u r) as [item r1]. specialize (IH r1).
  destruct (getLootEach calls r1) as [items r2].
  simpl in *. destruct Hst as [-> | ->]; simpl in IH; lia.
Qed.

Lemma batchCalls_length (chestType : ChestType) (rarityBoost : Q) (rnds : nat -> Q)
    (n : nat) :
  length (batchCalls chestType rarityBoost rnds n) = n.
Proof. unfold batchCalls. now rewrite length_map, length_seq. Qed.

Lemma batchCalls_unit (chestType : ChestType) (rarityBoost : Q) (rnds : nat -> Q)
    (n : nat) :
  (forall k, unitSample (rnds k)) ->
  Forall (fun c => unitSample (snd c)) (batchCalls chestType rarityBoost rnds n).
Proof.
  intros Hrnds. unfold batchCalls. apply Forall_forall. intros c Hin.
  apply list_elem_of_fmap in Hin as (k & -> & _). apply Hrnds.
Qed.

Lemma filterNotNull_all (items : list (option string)) :
  Forall is_Some items -> length (filterNotNull items) = length items.
Proof.
  unfold filterNotNull. induction 1 as [|item items [x ->] _ IH]; [reflexivity|].
  simpl. f_equal. exact IH.
Qed.




Lemma getLoots_of_drawLoots (r : Roller) (options : option Options)
    (rndCount : Q) (rnds : nat -> Q) :
  getLoots options rndCount rnds r =
  match drawLoots options rndCount rnds r with
  | (Normal raw, r') => (Normal (filterNotNull raw), r')
  | (Throw e, r') => (Throw e, r')
  end.
Proof. reflexivity. Qed.

(** [new Array(len)] returns exactly for a length that is an integer of
    [[0, 2^32)]. *)
Lemma newArray_cases (len : Q) :
  (exists n : nat, (len == inject_Z (Z.of_nat n))%Q /\ Z.of_nat n < 2 ^ 32 /\
                   newArray len = Normal n) \/
  ((forall n : nat, (len == inject_Z (Z.of_nat n))%Q -> 2 ^ 32 <= Z.of_nat n) /\
   newArray len = Throw (RangeError "Invalid array length")).
Proof.
  unfold newArray.
  destruct (Qeq_bool (inject_Z (Qfloor len)) len) eqn:Ei;
    [apply Qeq_bool_iff in Ei|apply Qeq_bool_neq in Ei];
    (destruct (Qle_bool 0 len) eqn:E0;
      [apply Qle_bool_iff in E0|apply Qle_bool_false in E0]);
    (destruct (Qle_bool 4294967296 len) eqn:E1;
      [apply Qle_bool_iff in E1|apply Qle_bool_false in E1]); cbn [andb negb].
  2:{ left. exists (Z.to_nat (Qfloor len)).
      assert (H0 : 0 <= Qfloor len).
      { change 0 with (Qfloor 0). now apply Qfloor_resp_le. }
      rewrite Z2Nat.id by exact H0. split; [now symmetry|]. split; [|reflexivity].
      apply inject_Z_lt. change (inject_Z (2 ^ 32)) with 4294967296%Q. lra. }
  all: right; split; [|reflexivity]; intros n Hn.
  - apply inject_Z_le. change (inject_Z (2 ^ 32)) with 4294967296%Q. lra.
  - pose proof (inject_Z_nonneg (Z.of_nat n) ltac:(lia)). lra.
  - pose proof (inject_Z_nonneg (Z.of_nat n) ltac:(lia)). lra.
  - exfalso. apply Ei. rewrite (Qfloor_comp _ _ Hn), Qfloor_Z. now symmetry.
  - exfalso. apply Ei. rewrite (Qfloor_comp _ _ Hn), Qfloor_Z. now symmetry.
  - exfalso. apply Ei. rewrite (Qfloor_comp _ _ Hn), Qfloor_Z. now symmetry.
  - exfalso. apply Ei. rewrite (Qfloor_comp _ _ Hn), Qfloor_Z. now symmetry.
Qed.

(** The three ways a batch ends. *)
Lemma drawLoots_cases (r : Roller) (options : option Options)
    (rndCount : Q) (rnds : nat -> Q) :
  let o := default noOptions options in
  let chest := default normal (chestType o) in
  let boost := default 1%Q (rarityBoost o) in
  ((resolveMaxRolls options r <= 0)%Q /\
   drawLoots options rndCount rnds r = (Normal [], r)) \/
  ((0 < resolveMaxRolls options r)%Q /\
   exists n : nat,
     (rerollCount options rndCount r == inject_Z (Z.of_nat n))%Q /\
     Z.of_nat n < 2 ^ 32 /\
     drawLoots options rndCount rnds r =
       (Normal (fst (getLootEach (batchCalls chest boost rnds n) r)),
        snd (getLootEach (batchCalls chest boost rnds n) r))) \/
  ((0 < resolveMaxRolls options r)%Q /\
   (forall n : nat, (rerollCount options rndCount r == inject_Z (Z.of_nat n))%Q ->
                    2 ^ 32 <= Z.of_nat n) /\
   drawLoots options rndCount rnds r =
     (Throw (RangeError "Invalid array length"), r)).
Proof.
  intros o chest boost. unfold drawLoots. fold o chest boost.
  destruct (Qle_bool (resolveMaxRolls options r) 0) eqn:Hm;
    [left; split; [now apply Qle_bool_iff|reflexivity]|].
  apply Qle_bool_false in Hm. right.
  destruct (newArray_cases (rerollCount options rndCount r))
    as [(n & Hn & Hsmall & ->)|[Hnot ->]].
  - left. split; [exact Hm|]. exists n. split; [exact Hn|]. split; [exact Hsmall|].
    rewrite mapGetLoot_each. fold (batchCalls chest boost rnds n).
    now destruct (getLootEach _ _).
  - right. split; [exact Hm|]. split; [exact Hnot|reflexivity].
Qed.

End RollerState.

(* ===================================================================== *)
(** ** C8: the empty result                                               *)
(* ===================================================================== *)

Section EmptyResult.
Import Chest ChestSpec.

Lemma rarityRoller_wellFormed : wellFormed rarityRoller.
Proof.
  split.
  - repeat constructor; discriminate.
  - intros [] overrides [= <-]; simpl.
    + repeat (apply map_Forall_insert_2; [discriminate|]). apply map_Forall_empty.
    + repeat (apply map_Forall_insert_2; [discriminate|]). apply map_Forall_empty.
Defined.






End EmptyResult.

(* ===================================================================== *)
(** ** C4: the roll counter                                               *)
(* ===================================================================== *)

Section RollCounter.
Import Chest ChestSpec.



Lemma exec_frame (c : Call) (r : Roller) :
  pool (exec c r) = pool r /\ chestConfigs (exec c r) = chestConfigs r.
Proof.
  destruct c as [| |c b rnd|options rndCount rnds|]; simpl; try now split.
  - apply getLoot_frame.
  - rewrite getLoots_of_drawLoots.
    destruct (drawLoots_cases r options rndCount rnds)
      as [[_ ->]|[(_ & n & _ & _ & ->)|(_ & _ & ->)]]; simpl; try now split.
    apply getLootEach_frame.
Qed.






End RollCounter.

(* ===================================================================== *)
(** ** C5: the size of a batch                                            *)
(* ===================================================================== *)

Section BatchSize.
Import Chest ChestSpec.

Lemma Qmin_inject_Z (a b : Z) : (Qmin (inject_Z a) (inject_Z b) == inject_Z (Z.min a b))%Q.
Proof.
  destruct (Q.min_spec (inject_Z a) (inject_Z b)) as [[Hlt ->]|[Hle ->]].
  - apply (proj1 (inject_Z_lt _ _)) in Hlt. now rewrite Z.min_l by lia.
  - apply (proj1 (inject_Z_le _ _)) in Hle. now rewrite Z.min_r by lia.
Qed.

Lemma Qmin_comp_r (x y z : Q) : (y == z)%Q -> (Qmin x y == Qmin x z)%Q.
Proof.
  intros Hyz.
  destruct (Q.min_spec x y) as [[H1 ->]|[H1 ->]];
    destruct (Q.min_spec x z) as [[H2 ->]|[H2 ->]]; lra.
Qed.




(** With a multiplier [>= 0] and an integer [maxRolls] of [[1, 2^31)] the
    count of a batch is a length an array can have. *)
Lemma rerollCount_length (r : Roller) (options : option Options) (rndCount : Q) (M : Z) :
  unitSample rndCount ->
  (0 <= default 1 (multiplier (default noOptions options)))%Q ->
  (resolveMaxRolls options r == inject_Z M)%Q -> 1 <= M < 2 ^ 31 ->
  exists n : nat,
    (rerollCount options rndCount r == inject_Z (Z.of_nat n))%Q /\ Z.of_nat n < 2 ^ 32.
Proof.
  intros Hrnd Hmul HM Hrange. unfold rerollCount, baseCount.
  set (b := randomInt 1 (resolveMaxRolls options r) rndCount).
  set (m := default 1%Q (multiplier (default noOptions options))) in *.
  assert (Hone : (1 <= resolveMaxRolls options r)%Q).
  { rewrite HM. apply inject_Z_ge_1. lia. }
  pose proof (randomInt_range _ rndCount Hrnd Hone) as [Hb _]. fold b in Hb.
  assert (Hround : 0 <= Math_round (fl (inject_Z b * m))).
  { apply Math_round_nonneg, fl_nonneg.
    pose proof (inject_Z_nonneg b ltac:(lia)). nra. }
  assert (Htwice : (fl (resolveMaxRolls options r * 2) == inject_Z (M * 2))%Q).
  { assert (E : (resolveMaxRolls options r * 2 == inject_Z (M * 2))%Q).
    { rewrite HM, inject_Z_mult. reflexivity. }
    rewrite E. apply fl_Z. lia. }
  exists (Z.to_nat (Z.min (Math_round (fl (inject_Z b * m))) (M * 2))).
  rewrite Z2Nat.id by lia. split; [|lia].
  rewrite (Qmin_comp_r _ _ _ Htwice). apply Qmin_inject_Z.
Qed.




End BatchSize.

(* ===================================================================== *)
(** ** C9: the pool and the chest table are only read                     *)
(* ===================================================================== *)

Section Frame.
Import Chest ChestSpec.

Lemma execAll_frame (cs : list Call) (r : Roller) :
  pool (execAll cs r) = pool r /\ chestConfigs (execAll cs r) = chestConfigs r.
Proof.
  unfold execAll. revert r. induction cs as [|c cs IH]; intros r; [now split|].
  simpl. destruct (IH (exec c r)) as [-> ->]. apply exec_frame.
Qed.

(** C9.  After any sequence of calls of the roller's operations the pool
    (its entries, with their names, weights and order) and the chest table are
    the ones the roller started with: the roller differs from the initial one
    in its counter at most.  For a mounted hook they are the pool it was given
    and [CHEST_CONFIGS]. *)
Theorem operations_only_change_counter :
  (forall (cs : list Call) (r : Roller),
      pool (execAll cs r) = pool r /\
      chestConfigs (execAll cs r) = chestConfigs r /\
      execAll cs r = {| pool := pool r; chestConfigs := chestConfigs r;
                        totalRollsRef := getRollCount (execAll cs r) |}) /\
  (forall (p : option LootPool) (r : Roller) (cs : list Call),
      useLoot p = Normal r ->
      pool (execAll cs r) = p /\ chestConfigs (execAll cs r) = CHEST_CONFIGS).
Proof.
  split.
  - intros cs r. destruct (execAll_frame cs r) as [Hp Hc].
    split; [exact Hp|]. split; [exact Hc|].
    rewrite <- Hp, <- Hc. now destruct (execAll cs r).
  - intros p r cs Hmount. destruct (execAll_frame cs r) as [-> ->].
    destruct (useLoot_cases p) as [[_ [msg Hthrow]]|[_ Hok]]; [congruence|].
    rewrite Hok in Hmount. injection Hmount as <-. now split.
Qed.

Lemma operations_only_change_counter_witness :
  pool (execAll [CallGetLootChances; CallGetLoot rare (3 # 2) (1 # 2);
                 CallGetLoots (withChest epic) (1 # 2) (fun _ => (1 # 4)%Q);
                 CallGetRollCount] rarityRoller) = Some rarityPool /\
  chestConfigs (execAll [CallGetLootChances; CallGetLoot rare (3 # 2) (1 # 2);
                         CallGetLoots (withChest epic) (1 # 2) (fun _ => (1 # 4)%Q);
                         CallGetRollCount] rarityRoller) = CHEST_CONFIGS.
Proof.
  apply (proj2 operations_only_change_counter (Some rarityPool)). reflexivity.
Defined.

End Frame.

(* ===================================================================== *)
(** ** C10: the two versions of the hook                                  *)
(* ===================================================================== *)

Section TwoVersions.
Import Chest ChestSpec.

Lemma Simple_getLoot_empty (r : Simple.Roller) (rnd : Q) :
  Simple.poolSum (Simple.pool r) = 0 -> Simple.getLoot rnd r = (None, r).
Proof.
  intros Hz. unfold Simple.getLoot.
  destruct (Simple.pool r) as [p|] eqn:Hp; [|reflexivity].
  destruct (length (entries p) =? 0)%nat; [reflexivity|].
  apply Z.eqb_eq in Hz. now rewrite Hz.
Qed.

Lemma filterEntries_nothing_excluded (config : ChestConfig) (es : list LootEntry) :
  excludeRarities config = [] -> filterEntries config es = es.
Proof.
  intros Hnone. unfold filterEntries. rewrite Hnone.
  induction es as [|e es IH]; [reflexivity|].
  rewrite filter_cons_True by apply not_elem_of_nil. now rewrite IH.
Qed.

(** A normal chest without boost walks the pool as it is. *)
Lemma adjusted_normal (r : Roller) :
  chestConfigs r = CHEST_CONFIGS ->
  adjustedEntries r normal 1 = numeric <$> poolEntries (pool r).
Proof.
  intros Hcfg. rewrite adjusted_numeric by (right; now rewrite Hcfg).
  f_equal. unfold eligibleEntries. rewrite Hcfg.
  rewrite filterEntries_nothing_excluded by reflexivity.
  transitivity (map id (poolEntries (pool r))); [|apply map_id].
  apply map_ext. now intros [n w].
Qed.

(** C10.  On the same pool, with the same counter and the same sample, the
    first version's [getLoot()] and the chest-aware [getLoot("normal", 1)]
    return the same result and leave the same counter; the two
    [getLootChances] return the same table for every pool; and mounting either
    version on a pool succeeds or throws alike. *)
Theorem implementations_agree :
  (forall (rs : Simple.Roller) (rc : Roller) (rnd : Q),
      sameRoller rs rc ->
      fst (Simple.getLoot rnd rs) = fst (getLoot normal 1 rnd rc) /\
      sameRoller (snd (Simple.getLoot rnd rs)) (snd (getLoot normal 1 rnd rc))) /\
  (forall (rs : Simple.Roller) (rc : Roller),
      Simple.pool rs = pool rc ->
      Simple.getLootChances rs = getLootChances rc) /\
  (forall p : option LootPool,
      match Simple.useLoot p, useLoot p with
      | Normal rs, Normal rc => sameRoller rs rc
      | Throw e1, Throw e2 => e1 = e2
      | _, _ => False
      end).
Proof.
  split; [|split].
  - intros rs rc rnd (Hpool & Hcount & Hcfg).
    rewrite (getLoot_numeric rc normal 1 rnd _ (adjusted_normal rc Hcfg)).
    destruct (Z.eq_dec (sumWeights (poolEntries (pool rc))) 0) as [Hz|Hnz].
    + rewrite Simple_getLoot_empty by now rewrite Simple_poolSum, Hpool.
      rewrite Hz. simpl. now repeat split.
    + rewrite Simple_getLoot_walks by now rewrite Simple_poolSum, Hpool.
      apply Z.eqb_neq in Hnz. rewrite Hnz.
      rewrite Simple_poolSum, Hpool.
      split; [reflexivity|].
      unfold sameRoller, Simple.countRoll, countRoll. simpl.
      split; [assumption|]. split; [now rewrite Hcount|assumption].
  - intros rs rc Hpool.
    unfold Simple.getLootChances, getLootChances,
      Simple.toPercentageChance, toPercentageChance. rewrite Hpool.
    now destruct (pool rc).
  - intros p. unfold Simple.useLoot, useLoot, Simple.POOL_BASE_WEIGHT, POOL_BASE_WEIGHT.
    replace (Simple.poolSum p) with (poolSum p) by now destruct p.
    destruct (10000 <? poolSum p); [reflexivity|]. now repeat split.
Qed.

Lemma implementations_agree_witness :
  fst (Simple.getLoot (3 # 4)
         {| Simple.pool := Some rarityPool; Simple.totalRollsRef := 0 |}) =
  fst (getLoot normal 1 (3 # 4) rarityRoller).
Proof.
  apply (proj1 implementations_agree
           {| Simple.pool := Some rarityPool; Simple.totalRollsRef := 0 |}
           rarityRoller (3 # 4)%Q).
  now repeat split.
Defined.

End TwoVersions.

(* ===================================================================== *)
(** ** The interval of rolls that selects an entry                        *)
(* ===================================================================== *)

Section SelectionInterval.
Import Chest ChestSpec.









Lemma rarityPool_distinct : distinctNames (entries rarityPool).
Proof.
  unfold distinctNames. apply (bool_decide_unpack _). vm_compute. exact I.
Defined.





End SelectionInterval.

(* ===================================================================== *)
(** ** More on batches                                                    *)
(* ===================================================================== *)

Section Batches.
Import Chest ChestSpec.

Lemma eligibleEntries_frame (r r' : Roller) (chestType : ChestType) (rarityBoost : Q) :
  pool r' = pool r -> chestConfigs r' = chestConfigs r ->
  eligibleEntries r' chestType rarityBoost = eligibleEntries r chestType rarityBoost.
Proof. unfold eligibleEntries. now intros -> ->. Qed.

(** Every draw of a batch returns a name when the adjusted weights have a
    nonzero sum. *)
Lemma batch_all_hit (n i : nat) (chestType : ChestType) (rarityBoost : Q)
    (rnds : nat -> Q) (r : Roller) :
  wellFormed r -> plainNames (poolEntries (pool r)) ->
  (forall k, unitSample (rnds k)) ->
  sumWeights (eligibleEntries r chestType rarityBoost) <> 0 ->
  Forall is_Some
    (fst (getLootEach (map (fun k => (chestType, rarityBoost, rnds k)) (seq i n)) r)).
Proof.
  intros Hwf Hplain Hrnds. revert i r Hwf Hplain.
  induction n as [|n IH]; intros i r Hwf Hplain Hnz; [constructor|]. simpl.
  pose proof (getLoot_hits r chestType rarityBoost (rnds i) Hwf Hplain (Hrnds i) Hnz)
    as [Hhit _].
  pose proof (getLoot_frame r chestType rarityBoost (rnds i)) as [Hp Hcfg].
  destruct (getLoot chestType rarityBoost (rnds i) r) as [item r1].
  simpl in Hhit, Hp, Hcfg.
  specialize (IH (S i) r1 (wellFormed_frame r r1 Hp Hcfg Hwf)).
  rewrite Hp in IH. specialize (IH Hplain).
  rewrite (eligibleEntries_frame r r1 _ _ Hp Hcfg) in IH. specialize (IH Hnz).
  destruct (getLootEach _ r1) as [items r2].
  simpl in *. now constructor.
Qed.





Lemma rerollCount_at_least_base (r : Roller) (options : option Options)
    (rndCount : Q) (M : Z) :
  unitSample rndCount ->
  (resolveMaxRolls options r == inject_Z M)%Q -> 1 <= M < 2 ^ 31 ->
  (1 <= default 1 (multiplier (default noOptions options)))%Q ->
  1 <= baseCount options rndCount r <= M /\
  (inject_Z (baseCount options rndCount r) <= rerollCount options rndCount r)%Q /\
  (rerollCount options rndCount r <= inject_Z (M * 2))%Q.
Proof.
  intros Hrnd HM Hrange Hmul. unfold rerollCount.
  set (b := baseCount options rndCount r).
  set (m := default 1%Q (multiplier (default noOptions options))) in *.
  assert (Hone : (1 <= resolveMaxRolls options r)%Q).
  { rewrite HM. apply inject_Z_ge_1. lia. }
  pose proof (randomInt_range _ rndCount Hrnd Hone) as [Hlo Hhi].
  fold (baseCount options rndCount r) in Hlo, Hhi. fold b in Hlo, Hhi.
  rewrite (Qfloor_comp _ _ HM), Qfloor_Z in Hhi.
  assert (Htwice : (fl (resolveMaxRolls options r * 2) == inject_Z (M * 2))%Q).
  { assert (E : (resolveMaxRolls options r * 2 == inject_Z (M * 2))%Q).
    { rewrite HM, inject_Z_mult. reflexivity. }
    rewrite E. apply fl_Z. lia. }
  split; [lia|]. split.
  - apply Q.min_glb.
    + apply (proj2 (inject_Z_le _ _)).
      rewrite <- (Math_round_inject_Z b) at 1. apply Math_round_mono.
      apply fl_ge_Z; [lia|].
      pose proof (inject_Z_nonneg b ltac:(lia)). nra.
    + rewrite Htwice. apply (proj2 (inject_Z_le _ _)). lia.
  - rewrite <- Htwice. apply Q.le_min_r.
Qed.

(** A batch with a multiplier of at least 1 on a chest that always drops. *)
Lemma getLoots_full_batch
    (r : Roller) (options : option Options) (rndCount : Q) (rnds : nat -> Q) (M : Z) :
  wellFormed r -> plainNames (poolEntries (pool r)) ->
  unitSample rndCount -> (forall k, unitSample (rnds k)) ->
  let o := default noOptions options in
  (resolveMaxRolls options r == inject_Z M)%Q -> 1 <= M < 2 ^ 31 ->
  (1 <= default 1 (multiplier o))%Q ->
  sumWeights (eligibleEntries r (default normal (chestType o))
                (default 1%Q (rarityBoost o))) <> 0 ->
  exists items r',
    getLoots options rndCount rnds r = (Normal items, r') /\
    (inject_Z (Z.of_nat (length items)) == rerollCount options rndCount r)%Q /\
    1 <= baseCount options rndCount r <= Z.of_nat (length items) /\
    Z.of_nat (length items) <= M * 2 /\
    totalRollsRef r' = totalRollsRef r + Z.of_nat (length items).
Proof.
  intros Hwf Hplain Hrnd Hrnds o HM Hrange Hmul Hnz.
  destruct (rerollCount_at_least_base r options rndCount M Hrnd HM Hrange Hmul)
    as (Hbase & Hlow & Htop).
  destruct (drawLoots_cases r options rndCount rnds)
    as [[Hle _]|[(_ & n & Hn & _ & Hrun)|(_ & Hout & _)]].
  - rewrite HM in Hle. apply (proj1 (inject_Z_le M 0)) in Hle. lia.
  - fold o in Hrun.
    pose proof (batch_all_hit n 0 (default normal (chestType o))
                  (default 1%Q (rarityBoost o)) rnds r Hwf Hplain Hrnds Hnz) as Hall.
    fold (batchCalls (default normal (chestType o)) (default 1%Q (rarityBoost o)) rnds n)
      in Hall.
    pose proof (getLootEach_counter _ r Hwf Hplain
                  (batchCalls_unit (default normal (chestType o))
                     (default 1%Q (rarityBoost o)) rnds n Hrnds)) as Hcount.
    eexists _, _. rewrite getLoots_of_drawLoots, Hrun.
    split; [reflexivity|].
    rewrite (filterNotNull_all _ Hall), getLootEach_length, batchCalls_length in *.
    rewrite Hn in Hlow, Htop.
    apply (proj1 (inject_Z_le _ _)) in Hlow, Htop.
    split; [now symmetry|]. repeat split; first [lia|exact Hcount].
  - exfalso.
    assert (Hint : exists n : nat,
               (rerollCount options rndCount r == inject_Z (Z.of_nat n))%Q /\
               Z.of_nat n < 2 ^ 32).
    { apply (rerollCount_length r options rndCount M Hrnd); [|exact HM|exact Hrange].
      fold o. lra. }
    destruct Hint as (n & Hn & Hsmall). specialize (Hout n Hn). lia.
Qed.



Lemma exec_counter_mono (c : Call) (r : Roller) :
  totalRollsRef r <= totalRollsRef (exec c r).
Proof.
  destruct c as [| |chestType rarityBoost rnd|options rndCount rnds|]; simpl; try lia.
  - destruct (getLoot_state r chestType rarityBoost rnd) as [-> | ->]; simpl; lia.
  - rewrite getLoots_of_drawLoots.
    destruct (drawLoots_cases r options rndCount rnds)
      as [[_ ->]|[(_ & n & _ & _ & ->)|(_ & _ & ->)]]; simpl; try lia.
    apply getLootEach_counter_bounds.
Qed.

(** X5.  Whatever the weights, the chest table and the samples (no
    well-formedness is needed), the roll counter never decreases over any
    sequence of calls, a single draw adds 0 or 1, and a batch adds at most
    the number of draws it performed. *)
Theorem roll_counter_monotone :
  (forall (cs : list Call) (r : Roller),
      getRollCount r <= getRollCount (execAll cs r)) /\
  (forall (r : Roller) (chestType : ChestType) (rarityBoost rnd : Q),
      getRollCount (snd (getLoot chestType rarityBoost rnd r)) = getRollCount r \/
      getRollCount (snd (getLoot chestType rarityBoost rnd r)) = getRollCount r + 1) /\
  (forall (r r' : Roller) (options : option Options) (rndCount : Q)
          (rnds : nat -> Q) (raw : list (option string)),
      drawLoots options rndCount rnds r = (Normal raw, r') ->
      getRollCount r <= getRollCount r' <= getRollCount r + Z.of_nat (length raw)).
Proof.
  unfold getRollCount. split; [|split].
  - intros cs. unfold execAll. induction cs as [|c cs IH]; intros r; [simpl; lia|].
    simpl. pose proof (exec_counter_mono c r). specialize (IH (exec c r)). lia.
  - intros r chestType rarityBoost rnd.
    destruct (getLoot_state r chestType rarityBoost rnd) as [-> | ->]; [now left|now right].
  - intros r r' options rndCount rnds raw Hdraw.
    destruct (drawLoots_cases r options rndCount rnds)
      as [[_ Hnone]|[(_ & n & _ & _ & Hrun)|(_ & _ & Hthrow)]].
    + rewrite Hnone in Hdraw. injection Hdraw as <- <-. simpl. lia.
    + rewrite Hrun in Hdraw. injection Hdraw as <- <-.
      rewrite getLootEach_length.
      pose proof (getLootEach_counter_bounds
                    (batchCalls (default normal (chestType (default noOptions options)))
                       (default 1%Q (rarityBoost (default noOptions options))) rnds n) r).
      lia.
    + rewrite Hthrow in Hdraw. discriminate.
Qed.

Lemma roll_counter_monotone_witness :
  getRollCount rarityRoller <=
  getRollCount (snd (getLoots (withChest rare) (1 # 2) (fun _ => (1 # 2)%Q) rarityRoller))
  <= getRollCount rarityRoller + Z.of_nat 2.
Proof.
  refine (proj2 (proj2 roll_counter_monotone) rarityRoller _ (withChest rare) (1 # 2)%Q
            (fun _ => (1 # 2)%Q) [Some "rare"; Some "rare"] _).
  vm_compute. reflexivity.
Defined.

End Batches.

(* ===================================================================== *)
(** ** The first version's batch                                          *)
(* ===================================================================== *)

Section SimpleBatch.
Import Chest ChestSpec.





Lemma newArray_comp (x y : Q) : (x == y)%Q -> newArray x = newArray y.
Proof.
  intros H. unfold newArray. rewrite (Qfloor_comp _ _ H).
  assert (E1 : Qeq_bool (inject_Z (Qfloor y)) x = Qeq_bool (inject_Z (Qfloor y)) y).
  { destruct (Qeq_bool (inject_Z (Qfloor y)) y) eqn:E.
    - apply Qeq_bool_iff. apply Qeq_bool_iff in E. now rewrite H.
    - destruct (Qeq_bool (inject_Z (Qfloor y)) x) eqn:E'; [|reflexivity].
      apply Qeq_bool_iff in E'. rewrite H in E'. apply Qeq_bool_iff in E'. congruence. }
  assert (E2 : Qle_bool 0 x = Qle_bool 0 y).
  { destruct (Qle_bool 0 y) eqn:E.
    - apply Qle_bool_iff. apply Qle_bool_iff in E. now rewrite H.
    - destruct (Qle_bool 0 x) eqn:E'; [|reflexivity].
      apply Qle_bool_iff in E'. rewrite H in E'. apply Qle_bool_iff in E'. congruence. }
  assert (E3 : Qle_bool 4294967296 x = Qle_bool 4294967296 y).
  { destruct (Qle_bool 4294967296 y) eqn:E.
    - apply Qle_bool_iff. apply Qle_bool_iff in E. now rewrite H.
    - destruct (Qle_bool 4294967296 x) eqn:E'; [|reflexivity].
      apply Qle_bool_iff in E'. rewrite H in E'. apply Qle_bool_iff in E'. congruence. }
  now rewrite E1, E2, E3.
Qed.





(** The two versions of a single draw agree. *)
Lemma getLoot_same (rs : Simple.Roller) (rc : Roller) (rnd : Q) :
  sameRoller rs rc ->
  fst (Simple.getLoot rnd rs) = fst (getLoot normal 1 rnd rc) /\
  sameRoller (snd (Simple.getLoot rnd rs)) (snd (getLoot normal 1 rnd rc)).
Proof.
  intros (Hpool & Hcount & Hcfg).
  rewrite (getLoot_numeric rc normal 1 rnd _ (adjusted_normal rc Hcfg)).
  destruct (Z.eq_dec (sumWeights (poolEntries (pool rc))) 0) as [Hz|Hnz].
  - rewrite Simple_getLoot_empty by now rewrite Simple_poolSum, Hpool.
    rewrite Hz. simpl. now repeat split.
  - rewrite Simple_getLoot_walks by now rewrite Simple_poolSum, Hpool.
    apply Z.eqb_neq in Hnz. rewrite Hnz.
    rewrite Simple_poolSum, Hpool.
    split; [reflexivity|].
    unfold sameRoller, Simple.countRoll, countRoll. simpl.
    split; [assumption|]. split; [now rewrite Hcount|assumption].
Qed.

Lemma mapGetLoot_same (n i : nat) (rnds : nat -> Q) (rs : Simple.Roller) (rc : Roller) :
  sameRoller rs rc ->
  fst (Simple.mapGetLoot n i rnds rs) = fst (mapGetLoot n i normal 1 rnds rc) /\
  sameRoller (snd (Simple.mapGetLoot n i rnds rs))
             (snd (mapGetLoot n i normal 1 rnds rc)).
Proof.
  revert i rs rc. induction n as [|n IH]; intros i rs rc Hsame; [now split|]. simpl.
  pose proof (getLoot_same rs rc (rnds i) Hsame) as [Hitem Hnext].
  destruct (Simple.getLoot (rnds i) rs) as [item rs1].
  destruct (getLoot normal 1 (rnds i) rc) as [item' rc1].
  simpl in Hitem, Hnext. subst item'.
  specialize (IH (S i) rs1 rc1 Hnext).
  destruct (Simple.mapGetLoot n (S i) rnds rs1) as [items rs2].
  destruct (mapGetLoot n (S i) normal 1 rnds rc1) as [items' rc2].
  simpl in *. destruct IH as [-> Hlast]. now split.
Qed.

(** With [{ max }] alone and [max >= 1/2] the count of the chest-aware batch
    is its [baseCount]. *)
Lemma rerollCount_max_only (rc : Roller) (m rndCount : Q) :
  unitSample rndCount -> (1 # 2 <= m)%Q -> (m <= inject_Z (2 ^ 53))%Q ->
  (rerollCount (withMax m) rndCount rc == inject_Z (randomInt 1 m rndCount))%Q.
Proof.
  intros Hrnd Hlo Hhi. unfold rerollCount, baseCount.
  change (resolveMaxRolls (withMax m) rc) with m.
  change (default 1%Q (multiplier (default noOptions (withMax m)))) with 1%Q.
  set (b := randomInt 1 m rndCount).
  assert (Hb : 1 <= b <= 2 ^ 53 /\ (inject_Z b <= m * 2)%Q).
  { destruct (Qlt_le_dec m 1) as [Hlt|Hge].
    - unfold b. rewrite randomInt_fraction by lra. split; [lia|].
      change (inject_Z 1) with 1%Q. lra.
    - pose proof (randomInt_range m rndCount Hrnd Hge) as [H1 H2]. fold b in H1, H2.
      assert (Hf : (inject_Z (Qfloor m) <= m)%Q) by apply Qfloor_le.
      assert (Qfloor m <= 2 ^ 53).
      { apply inject_Z_le. lra. }
      split; [lia|].
      apply (proj2 (inject_Z_le _ _)) in H2. lra. }
  destruct Hb as [Hb Hcap].
  assert (E : (fl (inject_Z b * 1) == inject_Z b)%Q).
  { assert (E1 : (inject_Z b * 1 == inject_Z b)%Q) by ring.
    rewrite E1. apply fl_Z. lia. }
  rewrite (Math_round_comp _ _ E), Math_round_inject_Z.
  apply Q.min_l. apply fl_ge_Z; [lia|exact Hcap].
Qed.

(** X7.  With an explicit [max] and nothing else, [max <= 0] or
    [1/2 <= max <= 2^53], the two versions of [getLoots] agree: on rollers
    holding the same pool and counter they return the same sequence (or throw
    the same error) and leave the same counter.  For [max = 0.3] they
    differ: the first version draws once, the chest-aware one throws.
    (Without [max] they differ as well: 16 rolls against 10.) *)
Theorem getLoots_versions_agree
    (rs : Simple.Roller) (rc : Roller) (m : Q) (rndCount : Q) (rnds : nat -> Q) :
  sameRoller rs rc -> unitSample rndCount ->
  ((m <= 0)%Q \/ (1 # 2 <= m)%Q /\ (m <= inject_Z (2 ^ 53))%Q ->
   fst (Simple.getLoots (Some m) rndCount rnds rs) =
     fst (getLoots (withMax m) rndCount rnds rc) /\
   sameRoller (snd (Simple.getLoots (Some m) rndCount rnds rs))
              (snd (getLoots (withMax m) rndCount rnds rc))) /\
  fst (Simple.getLoots (Some (fl (3 # 10))) 0 (fun _ => 0%Q)
         {| Simple.pool := Some rarityPool; Simple.totalRollsRef := 0 |}) =
    Normal ["common"] /\
  fst (getLoots (withMax (fl (3 # 10))) 0 (fun _ => 0%Q) rarityRoller) =
    Throw (RangeError "Invalid array length").
Proof.
  intros Hsame Hrnd. split; [|split; vm_compute; reflexivity].
  intros Hm.
  unfold Simple.getLoots, getLoots, drawLoots.
  change (resolveMaxRolls (withMax m) rc) with m.
  destruct (Qle_bool m 0) eqn:Hle; [now split|].
  apply Qle_bool_false in Hle.
  destruct Hm as [Hm|[Hlo Hhi]]; [lra|].
  rewrite (newArray_comp _ _ (rerollCount_max_only rc m rndCount Hrnd Hlo Hhi)).
  simpl.
  destruct (newArray (inject_Z (randomInt 1 m rndCount))) as [n|exn]; [|now split].
  pose proof (mapGetLoot_same n 0 rnds rs rc Hsame) as [Hitems Hlast].
  destruct (Simple.mapGetLoot n 0 rnds rs) as [items rs'].
  destruct (mapGetLoot n 0 normal 1 rnds rc) as [items' rc'].
  simpl in *. subst items'. now split.
Qed.

Lemma getLoots_versions_agree_witness :
  fst (Simple.getLoots (Some 3%Q) (1 # 2) (fun _ => (3 # 4)%Q)
         {| Simple.pool := Some rarityPool; Simple.totalRollsRef := 0 |}) =
  fst (getLoots (withMax 3) (1 # 2) (fun _ => (3 # 4)%Q) rarityRoller).
Proof.
  apply (getLoots_versions_agree
           {| Simple.pool := Some rarityPool; Simple.totalRollsRef := 0 |}
           rarityRoller 3 (1 # 2) (fun _ => (3 # 4)%Q)).
  - now repeat split.
  - exact unitSample_half.
  - right. split; discriminate.
Defined.

End SimpleBatch.

(* ===================================================================== *)
(** ** Rounding and percentages                                           *)
(* ===================================================================== *)

Section Rounding.
Import Chest ChestSpec MathLib.

Lemma factor_exact (decimals : nat) :
  (decimals <= 22)%nat ->
  (fl (inject_Z (10 ^ Z.of_nat decimals)) == inject_Z (10 ^ Z.of_nat decimals))%Q.
Proof.
  intros Hd.
  assert (E : 10 ^ Z.of_nat decimals = 5 ^ Z.of_nat decimals * 2 ^ Z.of_nat decimals).
  { change 10 with (5 * 2). apply Z.pow_mul_l. }
  rewrite E, inject_Z_mult, <- pow2_Z by lia.
  apply fl_exact; [|lia].
  assert (0 < 5 ^ Z.of_nat decimals) by (apply Z.pow_pos_nonneg; lia).
  assert (5 ^ Z.of_nat decimals <= 5 ^ 22) by (apply Z.pow_le_mono_r; lia).
  assert (5 ^ 22 < 2 ^ 53) by reflexivity. lia.
Qed.

Lemma factor_pos (decimals : nat) : (0 < fl (inject_Z (10 ^ Z.of_nat decimals)))%Q.
Proof.
  assert (H1 : 1 <= 10 ^ Z.of_nat decimals).
  { assert (0 < 10 ^ Z.of_nat decimals) by (apply Z.pow_pos_nonneg; lia). lia. }
  apply Qlt_le_trans with (inject_Z 1); [reflexivity|].
  apply fl_ge_Z; [vm_compute; discriminate|].
  now apply (proj2 (inject_Z_le _ _)).
Qed.

(** X8.  For [decimals <= 22] (where [10 ** decimals] is exact)
    [roundTo(value, decimals)] never decreases in [value] over the values of
    magnitude at most [2^53], and leaves an integer [k] with
    [|k| * 10^decimals <= 2^53] as it is; with no decimals it is [Math.round]
    on the doubles up to [2^53]; and it rounds the double [0.075] to [0.08]
    and the double [1.005] to [1]: the product with the factor is rounded to a
    double before [Math.round] sees it. *)
Theorem roundTo_spec :
  (forall (x y : Q) (decimals : nat),
      (decimals <= 22)%nat ->
      (- inject_Z (2 ^ 53) <= x)%Q -> (x <= y)%Q -> (y <= inject_Z (2 ^ 53))%Q ->
      (roundTo x decimals <= roundTo y decimals)%Q) /\
  (forall (k : Z) (decimals : nat),
      (decimals <= 22)%nat -> Z.abs k * 10 ^ Z.of_nat decimals <= 2 ^ 53 ->
      (roundTo (inject_Z k) decimals == inject_Z k)%Q) /\
  (forall value : Q,
      isDouble value -> (- inject_Z (2 ^ 53) <= value)%Q -> (value <= inject_Z (2 ^ 53))%Q ->
      (roundTo value 0 == inject_Z (Math_round value))%Q) /\
  (roundTo (fl (75 # 1000)) 2 == fl (8 # 100))%Q /\
  (fl (75 # 1000) < 75 # 1000)%Q /\
  (roundTo (fl (1005 # 1000)) 2 == 1)%Q.
Proof.
  split; [|split; [|split; [|split; [|split]]]].
  - intros x y decimals _ _ Hxy _. unfold roundTo.
    pose proof (factor_pos decimals) as Hf.
    set (factor := fl (inject_Z (10 ^ Z.of_nat decimals))) in *.
    apply fl_mono.
    assert (Hm : Math_round (fl (x * factor)) <= Math_round (fl (y * factor))).
    { apply Math_round_mono, fl_mono. nra. }
    apply (proj2 (inject_Z_le _ _)) in Hm.
    unfold Qdiv. apply Qmult_le_compat_r; [exact Hm|].
    apply Qinv_le_0_compat. lra.
  - intros k decimals Hd Hk. unfold roundTo.
    pose proof (factor_pos decimals) as Hf.
    pose proof (factor_exact decimals Hd) as Hfx.
    set (factor := fl (inject_Z (10 ^ Z.of_nat decimals))) in *.
    assert (Hp : 0 < 10 ^ Z.of_nat decimals) by (apply Z.pow_pos_nonneg; lia).
    assert (E1 : (fl (inject_Z k * factor) == inject_Z (k * 10 ^ Z.of_nat decimals))%Q).
    { rewrite Hfx, <- inject_Z_mult. apply fl_Z. rewrite Z.abs_mul. lia. }
    rewrite (Math_round_comp _ _ E1), Math_round_inject_Z.
    assert (E2 : (inject_Z (k * 10 ^ Z.of_nat decimals) / factor == inject_Z k)%Q).
    { rewrite inject_Z_mult, <- Hfx. field. lra. }
    rewrite E2. apply fl_Z. nia.
  - intros value Hd Hlo Hhi. unfold roundTo.
    set (factor := fl (inject_Z (10 ^ Z.of_nat 0))).
    assert (F : (factor == 1)%Q) by (vm_compute; reflexivity).
    assert (E1 : (fl (value * factor) == value)%Q).
    { assert (E : (value * factor == value)%Q) by (rewrite F; ring).
      rewrite E. exact Hd. }
    rewrite (Math_round_comp _ _ E1).
    assert (E2 : (inject_Z (Math_round value) / factor == inject_Z (Math_round value))%Q)
      by (rewrite F; field).
    rewrite E2. apply fl_Z.
    assert (H1 : Math_round value <= Math_round (inject_Z (2 ^ 53)))
      by now apply Math_round_mono.
    assert (H2 : Math_round (- inject_Z (2 ^ 53)) <= Math_round value)
      by now apply Math_round_mono.
    rewrite Math_round_inject_Z in H1.
    rewrite <- inject_Z_opp, Math_round_inject_Z in H2. lia.
  - vm_compute. reflexivity.
  - vm_compute. reflexivity.
  - vm_compute. reflexivity.
Qed.

Lemma roundTo_spec_witness :
  (roundTo (inject_Z 7) 2 == inject_Z 7)%Q /\ (roundTo 1 0 <= roundTo 2 0)%Q.
Proof.
  split.
  - apply (proj1 (proj2 roundTo_spec) 7 2%nat); [lia|vm_compute; discriminate].
  - apply (proj1 roundTo_spec 1%Q 2%Q 0%nat); [lia|discriminate..].
Defined.



End Rounding.

(* ===================================================================== *)
(** ** The odds add up                                                    *)
(* ===================================================================== *)

Section OddsTotal.
Import Chest ChestSpec.

Lemma Qplus_swap (a b y : Q) : (a + (b + y))%Q = (b + (a + y))%Q.
Proof.
  destruct a as [na da], b as [nb db], y as [ny dy].
  unfold Qplus. simpl. f_equal; [rewrite !Pos2Z.inj_mul; ring|].
  rewrite !Pos.mul_assoc. f_equal. apply Pos.mul_comm.
Qed.

Lemma tableTotal_insert (table : gmap string number) (n : string) (v : number) :
  table !! n = None ->
  tableTotal (<[n := v]> table) = (finitePart v + tableTotal table)%Q.
Proof.
  intros Hfresh. unfold tableTotal.
  apply (map_fold_insert_L (fun _ value acc => (finitePart value + acc)%Q));
    [|exact Hfresh].
  intros j1 j2 z1 z2 y _ _ _. apply Qplus_swap.
Qed.

Lemma fold_setChance_snoc (chance : Z -> number) (es : list LootEntry) (e : LootEntry) :
  name e <> "__proto__" ->
  fold_left (setChance chance) (es ++ [e]) ∅ =
  <[name e := chance (weight e)]> (fold_left (setChance chance) es ∅).
Proof.
  intros Hne. rewrite fold_left_app. simpl. unfold setChance at 1.
  now rewrite decide_False.
Qed.

(** With distinct names the table's total is the total over the entries,
    each within half a hundredth, and the rounding of the quotient, of its
    exact share. *)
Lemma tableTotal_close (s : Z) (es : list LootEntry) :
  0 < s -> nonnegWeights es -> distinctNames es ->
  "__proto__" ∉ name <$> es -> sumWeights es <= s ->
  let d := ((1 # 200) + pow2 (-44))%Q in
  (tableTotal (fold_left (setChance (fun w => toPercentage w s)) es ∅)
     - inject_Z (sumWeights es) / inject_Z s * 100
   <= inject_Z (Z.of_nat (length es)) * d)%Q /\
  (inject_Z (sumWeights es) / inject_Z s * 100
     - tableTotal (fold_left (setChance (fun w => toPercentage w s)) es ∅)
   <= inject_Z (Z.of_nat (length es)) * d)%Q.
Proof.
  intros Hs. induction es as [|e es IH] using rev_ind; intros Hnn Hnd Hproto Hsum d.
  - cbn [fold_left length]. unfold tableTotal. rewrite map_fold_empty.
    rewrite sumWeights_nil. unfold Qdiv.
    change (inject_Z (Z.of_nat 0)) with 0%Q. change (inject_Z 0) with 0%Q.
    split; lra.
  - unfold nonnegWeights in Hnn. apply Forall_app in Hnn as [Hnn He].
    apply Forall_cons in He as [He _].
    unfold distinctNames in Hnd. rewrite fmap_app in Hnd.
    apply NoDup_app in Hnd as (Hnd & Hfresh & _).
    rewrite fmap_app in Hproto. apply not_elem_of_app in Hproto as [Hproto Hpe].
    assert (Hne : name e <> "__proto__").
    { intros Heq. apply Hpe. simpl. rewrite Heq. apply elem_of_cons. now left. }
    rewrite sumWeights_app, sumWeights_cons, sumWeights_nil, Z.add_0_r in Hsum.
    pose proof (sumWeights_nonneg es Hnn) as Hes.
    specialize (IH Hnn Hnd Hproto ltac:(lia)). fold d in IH.
    rewrite fold_setChance_snoc by exact Hne. rewrite tableTotal_insert.
    2:{ apply eq_None_not_Some. rewrite fold_setChance_keys, lookup_empty.
        intros [[Hin _]|Hin]; [|now apply is_Some_None in Hin].
        apply (Hfresh (name e) Hin). simpl. apply elem_of_cons. now left. }
    destruct (toPercentage_share (weight e) s ltac:(lia) Hs)
      as (q & Hq & _ & _ & Hc1 & Hc2 & _).
    rewrite Hq. simpl finitePart.
    rewrite sumWeights_app, sumWeights_cons, sumWeights_nil, Z.add_0_r.
    rewrite length_app, Nat2Z.inj_add. simpl length.
    rewrite !inject_Z_plus. change (inject_Z (Z.of_nat 1)) with 1%Q.
    set (t := tableTotal _) in *.
    assert (Hdist : ((inject_Z (sumWeights es) + inject_Z (weight e)) / inject_Z s * 100
                     == inject_Z (sumWeights es) / inject_Z s * 100
                        + inject_Z (weight e) / inject_Z s * 100)%Q).
    { field. change 0%Q with (inject_Z 0). rewrite inject_Z_injective. lia. }
    rewrite Hdist. destruct IH as [IH1 IH2]. fold d in Hc1, Hc2.
    generalize dependent d. intros d. generalize (inject_Z (Z.of_nat (length es))).
    intros. split; lra.
Qed.

(** X10.  For a pool with weights [>= 0], distinct names, none of them
    [__proto__], and a positive sum, the percentages [getLootChances()]
    returns add up to 100 within half a hundredth, and the rounding of the
    share to a double ([2^-44]), per entry. *)
Theorem getLootChances_total (r : Roller) :
  nonnegWeights (poolEntries (pool r)) ->
  distinctNames (poolEntries (pool r)) ->
  "__proto__" ∉ name <$> poolEntries (pool r) ->
  0 < sumWeights (poolEntries (pool r)) ->
  let n := inject_Z (Z.of_nat (length (poolEntries (pool r)))) in
  (100 - n * ((1 # 200) + pow2 (-44)) <= tableTotal (getLootChances r))%Q /\
  (tableTotal (getLootChances r) <= 100 + n * ((1 # 200) + pow2 (-44)))%Q.
Proof.
  intros Hnn Hnd Hproto Hpos n. unfold getLootChances, toPercentageChance, poolSum.
  destruct (pool r) as [p|]; cbn [poolEntries] in *;
    [|rewrite sumWeights_nil in Hpos; lia].
  pose proof (tableTotal_close (sumWeights (entries p)) (entries p) Hpos Hnn Hnd
                Hproto ltac:(lia)) as [H1 H2].
  assert (Hone : (inject_Z (sumWeights (entries p)) / inject_Z (sumWeights (entries p))
                  * 100 == 100)%Q).
  { field. change 0%Q with (inject_Z 0). rewrite inject_Z_injective. lia. }
  rewrite Hone in H1, H2. fold n in H1, H2.
  set (d := ((1 # 200) + pow2 (-44))%Q) in *. clearbody d n.
  set (t := tableTotal _) in *. clearbody t. split; lra.
Qed.

Lemma getLootChances_total_witness :
  (100 - inject_Z 6 * ((1 # 200) + pow2 (-44)) <= tableTotal (getLootChances rarityRoller))%Q /\
  (tableTotal (getLootChances rarityRoller) <= 100 + inject_Z 6 * ((1 # 200) + pow2 (-44)))%Q.
Proof.
  apply (getLootChances_total rarityRoller).
  - repeat constructor; discriminate.
  - exact rarityPool_distinct.
  - apply (bool_decide_unpack _). vm_compute. exact I.
  - reflexivity.
Defined.

End OddsTotal.

(* ===================================================================== *)
(** ** lib/math.ts                                                        *)
(* ===================================================================== *)

Section MathUtilities.
Import MathLib.

Lemma clamp_cases (value min max : Q) :
  (min <= max)%Q ->
  ((value <= min)%Q /\ (clamp value min max == min)%Q) \/
  ((min <= value)%Q /\ (value <= max)%Q /\ (clamp value min max == value)%Q) \/
  ((max <= value)%Q /\ (clamp value min max == max)%Q).
Proof.
  intros Hmm. unfold clamp.
  destruct (Q.max_spec value min) as [[H1 E1]|[H1 E1]];
    destruct (Q.min_spec (Qmax value min) max) as [[H2 E2]|[H2 E2]];
    rewrite E1 in H2.
  - left. split; [lra|]. now rewrite E2, E1.
  - left. split; [lra|]. rewrite E2. lra.
  - right. left. split; [lra|]. split; [lra|]. now rewrite E2, E1.
  - right. right. split; [lra|]. exact E2.
Qed.

(** X11.  For [min <= max], [clamp] returns a value of [[min, max]]: the
    value itself when it lies inside, the nearer bound otherwise; clamping
    twice is clamping once.  Whatever the bounds, the result never exceeds
    [max]. *)
Theorem clamp_spec (value min max : Q) :
  (min <= max)%Q ->
  (min <= clamp value min max)%Q /\ (clamp value min max <= max)%Q /\
  ((min <= value)%Q -> (value <= max)%Q -> (clamp value min max == value)%Q) /\
  ((value <= min)%Q -> (clamp value min max == min)%Q) /\
  ((max <= value)%Q -> (clamp value min max == max)%Q) /\
  (clamp (clamp value min max) min max == clamp value min max)%Q /\
  (forall lo hi : Q, (clamp value lo hi <= hi)%Q).
Proof.
  intros Hmm.
  assert (Hin : forall v, (min <= v)%Q -> (v <= max)%Q -> (clamp v min max == v)%Q).
  { intros v Hlo Hhi.
    destruct (clamp_cases v min max Hmm) as [[H E]|[(H1 & H2 & E)|[H E]]];
      rewrite E; lra. }
  assert (Hrange : (min <= clamp value min max)%Q /\ (clamp value min max <= max)%Q).
  { destruct (clamp_cases value min max Hmm) as [[H E]|[(H1 & H2 & E)|[H E]]];
      rewrite E; split; lra. }
  destruct Hrange as [Hlo Hhi].
  split; [exact Hlo|]. split; [exact Hhi|]. split; [exact (Hin value)|].
  split; [|split; [|split]].
  - intros H. destruct (clamp_cases value min max Hmm) as [[_ E]|[(H1 & H2 & E)|[H' E]]];
      rewrite E; lra.
  - intros H. destruct (clamp_cases value min max Hmm) as [[H' E]|[(H1 & H2 & E)|[_ E]]];
      rewrite E; lra.
  - now apply Hin.
  - intros lo hi. unfold clamp. apply Q.le_min_r.
Qed.

Lemma clamp_spec_witness :
  (clamp 15 0 10 == 10)%Q /\ (clamp (-5) 0 10 == 0)%Q.
Proof.
  destruct (clamp_spec 15 0 10 ltac:(discriminate)) as (_ & _ & _ & _ & Habove & _).
  destruct (clamp_spec (-5) 0 10 ltac:(discriminate)) as (_ & _ & _ & Hbelow & _).
  split; [apply Habove|apply Hbelow]; discriminate.
Defined.

Lemma Qeq_bool_false (x y : Q) : ~ (x == y)%Q -> Qeq_bool x y = false.
Proof.
  intros Hne. destruct (Qeq_bool x y) eqn:E; [|reflexivity].
  apply Qeq_bool_iff in E. contradiction.
Qed.

(** The difference of two doubles that differ does not round to zero. *)
Lemma double_difference (a b : Q) :
  isDouble a -> isDouble b -> (a < b)%Q -> (0 < fl (b - a))%Q.
Proof.
  intros Ha Hb Hlt.
  destruct (isDouble_grid a Ha) as [ka Hka]. destruct (isDouble_grid b Hb) as [kb Hkb].
  pose proof (pow2_pos (-1074)) as P.
  assert (Hk : ka < kb).
  { apply inject_Z_lt. rewrite Hka, Hkb in Hlt. nra. }
  assert (Hleast : isDouble (pow2 (-1074))).
  { unfold isDouble.
    assert (E : (pow2 (-1074) == inject_Z 1 * pow2 (-1074))%Q)
      by (change (inject_Z 1) with 1%Q; ring).
    rewrite E. apply fl_exact; lia. }
  apply Qlt_le_trans with (pow2 (-1074)); [exact P|].
  apply fl_ge_double; [exact Hleast|].
  assert (Hone : (1 <= inject_Z kb - inject_Z ka)%Q).
  { unfold Qminus. rewrite <- inject_Z_opp, <- inject_Z_plus. apply inject_Z_ge_1. lia. }
  rewrite Hka, Hkb. nra.
Qed.

Lemma double_difference_nonzero (a b : Q) :
  isDouble a -> isDouble b -> ~ (a == b)%Q -> ~ (fl (b - a) == 0)%Q.
Proof.
  intros Ha Hb Hne. destruct (Q_dec a b) as [[Hlt|Hgt]|Heq]; [| |contradiction].
  - pose proof (double_difference a b Ha Hb Hlt). lra.
  - pose proof (double_difference b a Hb Ha Hgt) as Hpos.
    assert (E : (b - a == - (a - b))%Q) by ring.
    rewrite E, fl_opp. lra.
Qed.

Lemma lerp_zero (start end_ : Q) : isDouble start -> (lerp start end_ 0 == start)%Q.
Proof.
  intros Hs. unfold lerp.
  assert (E1 : (fl (end_ - start) * 0 == 0)%Q) by ring.
  rewrite (fl_zero _ E1).
  assert (E2 : (start + 0 == start)%Q) by ring.
  rewrite E2. exact Hs.
Qed.

Lemma lerp_mono (start end_ t t' : Q) :
  (start <= end_)%Q -> (t <= t')%Q -> (lerp start end_ t <= lerp start end_ t')%Q.
Proof.
  intros Hse Htt. unfold lerp.
  assert (Hd : (0 <= fl (end_ - start))%Q) by (apply fl_nonneg; lra).
  apply fl_mono.
  assert (fl (fl (end_ - start) * t) <= fl (fl (end_ - start) * t'))%Q; [|lra].
  apply fl_mono. nra.
Qed.

Lemma invLerp_mono (start end_ v v' : Q) :
  isDouble start -> isDouble end_ -> (start < end_)%Q -> (v <= v')%Q ->
  (invLerp start end_ v <= invLerp start end_ v')%Q.
Proof.
  intros Hs He Hlt Hvv. unfold invLerp.
  rewrite Qeq_bool_false by lra.
  pose proof (double_difference start end_ Hs He Hlt) as Hd.
  apply fl_mono. unfold Qdiv. apply Qmult_le_compat_r.
  - apply fl_mono. lra.
  - apply Qinv_le_0_compat. lra.
Qed.

Lemma invLerp_start (start end_ : Q) :
  ~ (start == end_)%Q -> (invLerp start end_ start == 0)%Q.
Proof.
  intros Hne. unfold invLerp. rewrite Qeq_bool_false by exact Hne.
  assert (E : (start - start == 0)%Q) by ring.
  rewrite (fl_zero _ E).
  assert (E2 : (0 / fl (end_ - start) == 0)%Q) by (unfold Qdiv; ring).
  now rewrite (fl_zero _ E2).
Qed.

Lemma invLerp_end (start end_ : Q) :
  isDouble start -> isDouble end_ -> ~ (start == end_)%Q ->
  (invLerp start end_ end_ == 1)%Q.
Proof.
  intros Hs He Hne. unfold invLerp. rewrite Qeq_bool_false by exact Hne.
  pose proof (double_difference_nonzero start end_ Hs He Hne) as Hd.
  assert (E : (fl (end_ - start) / fl (end_ - start) == 1)%Q) by (field; exact Hd).
  rewrite E. vm_compute. reflexivity.
Qed.

(** X12.  On doubles far from overflow, [lerp] is [start] at 0 and, for
    [start <= end], never decreases in [t]; [invLerp] is 0 at [start] and 1
    at [end] of a range whose ends differ, stays in [[0, 1]] and never
    decreases over an ascending range, and is 0 whatever the value on a
    range whose ends are equal.  ([lerp] at 1 need not be [end]: the sum is
    rounded, and [lerp(-2, -0.9, 1)] is not [-0.9].) *)
Theorem lerp_invLerp_ends (start end_ : Q) :
  isDouble start -> isDouble end_ -> inRange start -> inRange end_ ->
  (lerp start end_ 0 == start)%Q /\
  (~ (start == end_)%Q ->
   (invLerp start end_ start == 0)%Q /\ (invLerp start end_ end_ == 1)%Q /\
   (normalize end_ start end_ == 1)%Q) /\
  ((start == end_)%Q -> forall value, invLerp start end_ value = 0%Q) /\
  ((start < end_)%Q ->
   forall v v', (start <= v)%Q -> (v <= v')%Q -> (v' <= end_)%Q ->
     (0 <= invLerp start end_ v)%Q /\
     (invLerp start end_ v <= invLerp start end_ v')%Q /\
     (invLerp start end_ v' <= 1)%Q) /\
  ((start <= end_)%Q ->
   forall t t', (0 <= t)%Q -> (t <= t')%Q -> (t' <= 1)%Q ->
     (start <= lerp start end_ t)%Q /\
     (lerp start end_ t <= lerp start end_ t')%Q) /\
  ~ (lerp (-2) (fl (-9 # 10)) 1 == fl (-9 # 10))%Q.
Proof.
  intros Hs He _ _.
  split; [now apply lerp_zero|].
  split; [|split; [|split; [|split]]].
  - intros Hne. split; [now apply invLerp_start|].
    split; now apply invLerp_end.
  - intros Heq value. unfold invLerp. apply Qeq_bool_iff in Heq. now rewrite Heq.
  - intros Hlt v v' H1 H2 H3.
    assert (Hne : ~ (start == end_)%Q) by lra.
    split; [|split].
    + rewrite <- (invLerp_start start end_ Hne). now apply invLerp_mono.
    + now apply invLerp_mono.
    + rewrite <- (invLerp_end start end_ Hs He Hne). now apply invLerp_mono.
  - intros Hle t t' H1 H2 H3. split; [|now apply lerp_mono].
    rewrite <- (lerp_zero start end_ Hs) at 1. now apply lerp_mono.
  - vm_compute. discriminate.
Qed.

Lemma inRange_small (x : Q) : (-1024 <= x)%Q -> (x <= 1024)%Q -> inRange x.
Proof.
  intros H1 H2.
  assert (P : (pow2 10 <= pow2 1022)%Q) by (apply pow2_le; lia).
  change (pow2 10) with 1024%Q in P. split; lra.
Qed.

Lemma isDouble_Z (z : Z) : Z.abs z <= 2 ^ 53 -> isDouble (inject_Z z).
Proof. apply fl_Z. Qed.

Lemma lerp_invLerp_ends_witness :
  (lerp 0 100 0 == 0)%Q /\ (invLerp 0 100 100 == 1)%Q.
Proof.
  destruct (lerp_invLerp_ends 0 100 (isDouble_Z 0 ltac:(vm_compute; discriminate))
              (isDouble_Z 100 ltac:(vm_compute; discriminate))
              (inRange_small 0 ltac:(discriminate) ltac:(discriminate))
              (inRange_small 100 ltac:(discriminate) ltac:(discriminate)))
    as (H0 & Hends & _).
  split; [exact H0|]. apply Hends. discriminate.
Defined.

(** X13.  On doubles far from overflow, [remap] sends the start of the
    input range to the start of the output range; when the input range is a
    single point every value goes to [outMin]; and between two ascending
    ranges it never decreases and never falls below [outMin]. *)
Theorem remap_spec (value inMin inMax outMin outMax : Q) :
  isDouble inMin -> isDouble inMax -> isDouble outMin -> isDouble outMax ->
  inRange inMin -> inRange inMax -> inRange outMin -> inRange outMax ->
  (remap inMin inMin inMax outMin outMax == outMin)%Q /\
  ((inMin == inMax)%Q -> (remap value inMin inMax outMin outMax == outMin)%Q) /\
  ((inMin < inMax)%Q -> (outMin <= outMax)%Q ->
   forall v v', (inMin <= v)%Q -> (v <= v')%Q -> (v' <= inMax)%Q ->
     (outMin <= remap v inMin inMax outMin outMax)%Q /\
     (remap v inMin inMax outMin outMax <= remap v' inMin inMax outMin outMax)%Q).
Proof.
  intros Hi1 Hi2 Ho1 Ho2 _ _ _ _.
  assert (Hdegenerate : forall v, (inMin == inMax)%Q ->
                        (remap v inMin inMax outMin outMax == outMin)%Q).
  { intros v Heq. unfold remap, invLerp. apply Qeq_bool_iff in Heq. rewrite Heq.
    now apply lerp_zero. }
  split; [|split].
  - destruct (Qeq_dec inMin inMax) as [Heq|Hne]; [now apply Hdegenerate|].
    unfold remap, lerp.
    assert (E1 : (fl (outMax - outMin) * invLerp inMin inMax inMin == 0)%Q).
    { rewrite (invLerp_start inMin inMax Hne). ring. }
    rewrite (fl_zero _ E1).
    assert (E2 : (outMin + 0 == outMin)%Q) by ring.
    rewrite E2. exact Ho1.
  - apply Hdegenerate.
  - intros Hlt Hout v v' H1 H2 H3. unfold remap.
    assert (Hne : ~ (inMin == inMax)%Q) by lra.
    assert (Ht0 : (0 <= invLerp inMin inMax v)%Q).
    { rewrite <- (invLerp_start inMin inMax Hne). now apply invLerp_mono. }
    assert (Htt : (invLerp inMin inMax v <= invLerp inMin inMax v')%Q)
      by now apply invLerp_mono.
    split; [|now apply lerp_mono].
    rewrite <- (lerp_zero outMin outMax Ho1) at 1. now apply lerp_mono.
Qed.

Lemma remap_spec_witness :
  (remap 0 0 1 (-100) 100 == -100)%Q.
Proof.
  refine (proj1 (remap_spec 0 0 1 (-100) 100
                   (isDouble_Z 0 _) (isDouble_Z 1 _)
                   (isDouble_Z (-100) _) (isDouble_Z 100 _)
                   (inRange_small 0 _ _) (inRange_small 1 _ _)
                   (inRange_small (-100) _ _) (inRange_small 100 _ _)));
    vm_compute; discriminate.
Defined.




Lemma smoothstep_at (t x : Q) :
  (clamp t 0 1 == x)%Q -> (smoothstep t == fl (fl (x * x) * fl (3 - fl (2 * x))))%Q.
Proof. intros E. unfold smoothstep. now rewrite E. Qed.

(** X15.  [smoothstep] is never negative, is 0 up to 0 and 1 from 1 on, and
    is one half at one half. *)
Theorem smoothstep_spec (t : Q) :
  (0 <= smoothstep t)%Q /\
  ((t <= 0)%Q -> (smoothstep t == 0)%Q) /\
  ((1 <= t)%Q -> (smoothstep t == 1)%Q) /\
  (smoothstep (1 # 2) == 1 # 2)%Q.
Proof.
  destruct (clamp_cases t 0 1 ltac:(discriminate)) as [[H E]|[(H1 & H2 & E)|[H E]]].
  - assert (Hz : (smoothstep t == 0)%Q).
    { rewrite (smoothstep_at t 0 E). vm_compute. reflexivity. }
    split; [rewrite Hz; lra|]. split; [intros _; exact Hz|].
    split; [|vm_compute; reflexivity].
    intros H1. assert (E1 : (clamp t 0 1 == 1)%Q).
    { destruct (clamp_cases t 0 1 ltac:(discriminate)) as [[H' E']|[(Ha & Hb & E')|[H' E']]];
        rewrite E'; lra. }
    rewrite (smoothstep_at t 1 E1). vm_compute. reflexivity.
  - split.
    { unfold smoothstep. rewrite E. apply fl_nonneg.
      apply Qmult_le_0_compat.
      - apply fl_nonneg. nra.
      - apply fl_nonneg.
        assert (fl (2 * t) <= inject_Z 2)%Q; [|change (inject_Z 2) with 2%Q in *; lra].
        apply fl_le_Z; [vm_compute; discriminate|].
        change (inject_Z 2) with 2%Q. lra. }
    split; [|split; [|vm_compute; reflexivity]].
    + intros H0. assert (E0 : (clamp t 0 1 == 0)%Q) by (rewrite E; lra).
      rewrite (smoothstep_at t 0 E0). vm_compute. reflexivity.
    + intros H3. assert (E1 : (clamp t 0 1 == 1)%Q) by (rewrite E; lra).
      rewrite (smoothstep_at t 1 E1). vm_compute. reflexivity.
  - assert (Hone : (smoothstep t == 1)%Q).
    { rewrite (smoothstep_at t 1 E). vm_compute. reflexivity. }
    split; [rewrite Hone; lra|]. split; [|split; [intros _; exact Hone|vm_compute; reflexivity]].
    intros H0. assert (E0 : (clamp t 0 1 == 0)%Q).
    { destruct (clamp_cases t 0 1 ltac:(discriminate)) as [[H' E']|[(Ha & Hb & E')|[H' E']]];
        rewrite E'; lra. }
    rewrite (smoothstep_at t 0 E0). vm_compute. reflexivity.
Qed.

Lemma smoothstep_spec_witness : (smoothstep 2 == 1)%Q /\ (smoothstep (-1) == 0)%Q.
Proof.
  split.
  - apply (proj1 (proj2 (proj2 (smoothstep_spec 2)))). discriminate.
  - apply (proj1 (proj2 (smoothstep_spec (-1)))). discriminate.
Defined.

Lemma Qsquare_nonneg (a : Q) : (0 <= a * a)%Q.
Proof. nra. Qed.

(** X16.  [distanceSquared] is symmetric in the two points, never negative,
    and zero when the points coincide; it is zero as well for points so
    close that the squares underflow. *)
Theorem distanceSquared_spec (x1 y1 x2 y2 : Q) :
  (distanceSquared x1 y1 x2 y2 == distanceSquared x2 y2 x1 y1)%Q /\
  (0 <= distanceSquared x1 y1 x2 y2)%Q /\
  ((x1 == x2)%Q /\ (y1 == y2)%Q -> (distanceSquared x1 y1 x2 y2 == 0)%Q) /\
  (distanceSquared 0 0 (pow2 (-600)) 0 == 0)%Q.
Proof.
  unfold distanceSquared. split; [|split; [|split]].
  - assert (Ex : (x1 - x2 == - (x2 - x1))%Q) by ring.
    assert (Ey : (y1 - y2 == - (y2 - y1))%Q) by ring.
    rewrite Ex, Ey, !fl_opp.
    assert (Sx : (- fl (x2 - x1) * - fl (x2 - x1) == fl (x2 - x1) * fl (x2 - x1))%Q) by ring.
    assert (Sy : (- fl (y2 - y1) * - fl (y2 - y1) == fl (y2 - y1) * fl (y2 - y1))%Q) by ring.
    now rewrite Sx, Sy.
  - apply fl_nonneg.
    pose proof (fl_nonneg _ (Qsquare_nonneg (fl (x2 - x1)))).
    pose proof (fl_nonneg _ (Qsquare_nonneg (fl (y2 - y1)))). lra.
  - intros [Hx Hy].
    assert (Ex : (x2 - x1 == 0)%Q) by lra. assert (Ey : (y2 - y1 == 0)%Q) by lra.
    rewrite (fl_zero _ Ex), (fl_zero _ Ey). vm_compute. reflexivity.
  - vm_compute. reflexivity.
Qed.

End MathUtilities.

(* ===================================================================== *)
(** ** lib/math.ts: the random utilities                                  *)
(* ===================================================================== *)

Section RandomUtilities.
Import RandomLib.




Lemma arrayGet_in_range {T : Type} (array : list T) (index : Z) :
  0 <= index < Z.of_nat (length array) ->
  exists x, arrayGet array index = Some x /\ array !! Z.to_nat index = Some x.
Proof.
  intros [Hlo Hhi]. unfold arrayGet.
  destruct (Z.ltb_spec index 0) as [|_]; [lia|].
  destruct (lookup_lt_is_Some_2 array (Z.to_nat index) ltac:(lia)) as [x Hx].
  exists x. now split.
Qed.

(** X18.  [pick] gives [undefined] for an empty array, and for a sample of
    [[0, 1)] an element of a non-empty array. *)
Theorem pick_spec {T : Type} (array : list T) (rnd : Q) :
  (array = [] -> pick array rnd = None) /\
  (unitSample rnd -> array <> [] ->
   exists x, pick array rnd = Some x /\ x ∈ array).
Proof.
  split.
  - now intros ->.
  - intros Hrnd Hne. unfold pick.
    destruct array as [|a array]; [congruence|]. cbn [length Nat.eqb].
    pose proof (Qfloor_unit_scale rnd (Z.of_nat (length (a :: array))) Hrnd
                  ltac:(simpl; lia)) as Hidx.
    destruct (arrayGet_in_range (a :: array) _ Hidx) as (x & Hget & Hlook).
    exists x. split; [exact Hget|]. eapply list_elem_of_lookup_2, Hlook.
Qed.

Lemma pick_spec_witness :
  exists x, pick ["a"; "b"; "c"] (1 # 2) = Some x /\ x ∈ ["a"; "b"; "c"].
Proof.
  apply (proj2 (pick_spec ["a"; "b"; "c"] (1 # 2))).
  - exact unitSample_half.
  - discriminate.
Defined.

(** Exchanging two cells inside the array permutes it. *)
Lemma swap_permutation {T : Type} (i : nat) (j : Z) (result : list T) :
  (i < length result)%nat -> 0 <= j <= Z.of_nat i ->
  swap i j result ≡ₚ result /\ length (swap i j result) = length result.
Proof.
  intros Hi Hj. unfold swap.
  destruct (arrayGet_in_range result j ltac:(lia)) as (rj & -> & Hlj).
  destruct (lookup_lt_is_Some_2 result i Hi) as [ri Hli]. rewrite Hli. split.
  - exact (Permutation_insert_swap result i (Z.to_nat j) ri rj Hli Hlj).
  - now rewrite !length_insert.
Qed.

Lemma shuffle_index (rnd : Q) (i : nat) :
  unitSample rnd -> 0 <= Qfloor (fl (rnd * inject_Z (Z.of_nat i + 1))) <= Z.of_nat i.
Proof.
  intros Hrnd.
  pose proof (Qfloor_unit_scale rnd (Z.of_nat i + 1) Hrnd ltac:(lia)). lia.
Qed.

Lemma shuffleFrom_permutation {T : Type} (i : nat) (rnds : nat -> Q) (result : list T) :
  (forall k, unitSample (rnds k)) -> (i < length result)%nat ->
  shuffleFrom i rnds result ≡ₚ result.
Proof.
  intros Hrnds. revert result. induction i as [|i IH]; intros result Hi; [reflexivity|].
  cbn [shuffleFrom].
  pose proof (shuffle_index (rnds (S i)) (S i) (Hrnds (S i))) as Hj.
  destruct (swap_permutation (S i) _ result Hi Hj) as [Hperm Hlen].
  rewrite IH; [exact Hperm|]. rewrite Hlen. lia.
Qed.

(** X19.  With samples of [[0, 1)], [shuffle] returns a permutation of the
    array it is given: the same elements, each as often, and as many. *)
Theorem shuffle_permutation {T : Type} (array : list T) (rnds : nat -> Q) :
  (forall k, unitSample (rnds k)) ->
  shuffle array rnds ≡ₚ array /\ length (shuffle array rnds) = length array.
Proof.
  intros Hrnds.
  assert (Hperm : shuffle array rnds ≡ₚ array).
  { unfold shuffle. destruct array as [|a array]; [reflexivity|].
    apply shuffleFrom_permutation; [exact Hrnds|]. simpl. lia. }
  split; [exact Hperm|]. now rewrite Hperm.
Qed.

Lemma shuffle_permutation_witness :
  shuffle [1; 2; 3; 4; 5] (fun _ => (1 # 2)%Q) ≡ₚ [1; 2; 3; 4; 5].
Proof.
  apply (shuffle_permutation [1; 2; 3; 4; 5] (fun _ => (1 # 2)%Q)).
  intros _. exact unitSample_half.
Defined.

End RandomUtilities.

(* ===================================================================== *)
(** ** lib/math.ts: chance and the seeded generator                       *)
(* ===================================================================== *)

Section SeededRandom.
Import RandomLib.

(** X20.  For a sample of [[0, 1)], [chance(1)] is always true and
    [chance(0)] always false, a larger probability never turns a success into
    a failure, and [randomSign] is -1 or 1. *)
Theorem chance_spec (rnd : Q) :
  unitSample rnd ->
  (forall p : Q, (1 <= p)%Q -> chance p rnd = true) /\
  (forall p : Q, (p <= 0)%Q -> chance p rnd = false) /\
  (forall p p' : Q, (p <= p')%Q -> chance p rnd = true -> chance p' rnd = true) /\
  (randomSign rnd = -1 \/ randomSign rnd = 1).
Proof.
  intros (H0 & H1 & _). unfold chance, randomSign. repeat split.
  - intros p Hp. apply negb_true_iff, Qle_bool_false. lra.
  - intros p Hp. apply negb_false_iff, Qle_bool_iff. lra.
  - intros p p' Hle Hp. apply negb_true_iff, Qle_bool_false in Hp.
    apply negb_true_iff, Qle_bool_false. lra.
  - destruct (negb _); [now left|now right].
Qed.

Lemma chance_spec_witness : chance 1 (1023 # 1024) = true /\ chance 0 0 = false.
Proof.
  split.
  - apply (proj1 (chance_spec (1023 # 1024)
                    ltac:(split; [discriminate|split; [reflexivity|vm_compute; reflexivity]]))).
    discriminate.
  - apply (proj1 (proj2 (chance_spec 0 unitSample_zero))).
    discriminate.
Defined.

Lemma ushr_zero (x : Z) : ushr x 0 = x mod 2 ^ 32.
Proof. unfold ushr, ToUint32. now rewrite Z.shiftr_0_r. Qed.

Lemma uint32_fraction (u : Z) :
  0 <= u < 2 ^ 32 -> unitSample (inject_Z u / 4294967296).
Proof.
  intros [Hlo Hhi].
  assert (Hd : (inject_Z u / 4294967296 == inject_Z u * pow2 (-32))%Q).
  { change (pow2 (-32)) with (1 # 4294967296)%Q. field. }
  assert (Hu : Z.abs u < 2 ^ 53) by lia.
  apply (proj2 (inject_Z_le _ _)) in Hlo. apply (proj2 (inject_Z_lt _ _)) in Hhi.
  change (inject_Z 0) with 0%Q in Hlo.
  change (inject_Z (2 ^ 32)) with 4294967296%Q in Hhi.
  unfold unitSample, isDouble. rewrite Hd. split; [|split].
  - change (pow2 (-32)) with (1 # 4294967296)%Q.
    clear Hhi Hd. revert Hlo. generalize (inject_Z u). intros q Hlo. lra.
  - change (pow2 (-32)) with (1 # 4294967296)%Q.
    clear Hlo Hd. revert Hhi. generalize (inject_Z u). intros q Hhi. lra.
  - apply fl_exact; [exact Hu|lia].
Qed.

(** Every call of the seeded generator yields a float of [[0, 1)]. *)
Lemma rng_unit (state : Z) : unitSample (fst (rng state)).
Proof.
  unfold rng. cbn [fst]. apply uint32_fraction.
  rewrite ushr_zero. apply Z.mod_pos_bound. reflexivity.
Qed.

(** X21.  The seeded generator (mulberry32): whatever the seed and however
    often it is called, each call returns a float of [[0, 1)], the range of
    [Math.random()], and the state it keeps is the previous state plus
    [0x6d2b79f5] as an unsigned 32-bit integer; a seed that is one already is
    taken as it is. *)
Theorem seededRandom_unit (seed state : Z) :
  unitSample (fst (rng state)) /\
  snd (rng state) = (state + 1831565813) mod 2 ^ 32 /\
  0 <= snd (rng state) < 2 ^ 32 /\
  0 <= seededRandom seed < 2 ^ 32 /\
  (0 <= seed < 2 ^ 32 -> seededRandom seed = seed).
Proof.
  assert (Hstate : snd (rng state) = (state + 1831565813) mod 2 ^ 32).
  { unfold rng. cbn [snd]. apply ushr_zero. }
  split; [apply rng_unit|]. split; [exact Hstate|]. split; [|split].
  - rewrite Hstate. apply Z.mod_pos_bound. reflexivity.
  - unfold seededRandom. rewrite ushr_zero. apply Z.mod_pos_bound. reflexivity.
  - intros Hseed. unfold seededRandom. rewrite ushr_zero. now apply Z.mod_small.
Qed.

Lemma seededRandom_unit_witness : seededRandom 12345 = 12345.
Proof.
  apply (proj2 (proj2 (proj2 (proj2 (seededRandom_unit 12345 0))))).
  split; [discriminate|reflexivity].
Defined.




End SeededRandom.

(* ===================================================================== *)
(** ** App.tsx: rarity order, best rarity, sorting                        *)
(* ===================================================================== *)

Section Rarities.
Import App.

Lemma indexOf_range (array : list string) (x : string) :
  -1 <= indexOf array x < Z.of_nat (length array).
Proof.
  induction array as [|y array IH]; simpl; [lia|].
  destruct (decide (y = x)); [lia|].
  destruct (Z.ltb_spec (indexOf array x) 0); lia.
Qed.

Lemma indexOf_lookup (array : list string) (x : string) :
  0 <= indexOf array x -> array !! Z.to_nat (indexOf array x) = Some x.
Proof.
  induction array as [|y array IH]; simpl; [lia|].
  destruct (decide (y = x)) as [->|Hne]; [reflexivity|].
  destruct (Z.ltb_spec (indexOf array x) 0) as [Hneg|Hpos]; [lia|]. intros _.
  replace (Z.to_nat (indexOf array x + 1)) with (S (Z.to_nat (indexOf array x))) by lia.
  simpl. now apply IH.
Qed.

Lemma indexOf_missing (array : list string) (x : string) :
  indexOf array x = -1 <-> x ∉ array.
Proof.
  induction array as [|y array IH]; simpl.
  - split; [intros _; apply not_elem_of_nil|reflexivity].
  - rewrite not_elem_of_cons. destruct (decide (y = x)) as [->|Hne].
    + split; [discriminate|]. intros [Hx _]. congruence.
    + pose proof (indexOf_range array x).
      destruct (Z.ltb_spec (indexOf array x) 0) as [Hneg|Hpos].
      * split; [|reflexivity]. intros _. split; [congruence|]. apply IH. lia.
      * split; [lia|]. intros [_ Hnot]. apply IH in Hnot. lia.
Qed.

Lemma indexOf_position (array : list string) (k : nat) (x : string) :
  NoDup array -> array !! k = Some x -> indexOf array x = Z.of_nat k.
Proof.
  intros Hnd Hk.
  assert (Hpos : 0 <= indexOf array x).
  { destruct (Z.eq_dec (indexOf array x) (-1)) as [Hm|Hm].
    - apply indexOf_missing in Hm. exfalso. apply Hm.
      eapply list_elem_of_lookup_2, Hk.
    - pose proof (indexOf_range array x). lia. }
  pose proof (indexOf_lookup array x Hpos) as Hlook.
  pose proof (NoDup_lookup array _ _ x Hnd Hlook Hk). lia.
Qed.

Lemma RARITY_ORDER_NoDup : NoDup RARITY_ORDER.
Proof. apply (bool_decide_unpack _). vm_compute. exact I. Qed.

Lemma getRarityIdx_range (rarity : string) : -1 <= getRarityIdx rarity <= 5.
Proof.
  pose proof (indexOf_range RARITY_ORDER rarity) as H.
  change (Z.of_nat (length RARITY_ORDER)) with 6 in H. unfold getRarityIdx. lia.
Qed.

(** The loop of [getBestRarity] from a running [best]. *)
Lemma best_fold (items : list string) (best : Z) :
  let result := fold_left (fun best item =>
                             let idx := getRarityIdx item in
                             if best <? idx then idx else best) items best in
  best <= result /\
  (forall item, item ∈ items -> getRarityIdx item <= result) /\
  (result = best \/ exists item, item ∈ items /\ getRarityIdx item = result).
Proof.
  revert best. induction items as [|a items IH]; intros best; simpl.
  - split; [lia|]. split; [|now left]. intros item Hin. now apply elem_of_nil in Hin.
  - specialize (IH (if best <? getRarityIdx a then getRarityIdx a else best)).
    simpl in IH. destruct IH as (Hle & Hall & Hsrc).
    destruct (Z.ltb_spec best (getRarityIdx a)) as [Hlt|Hge].
    + split; [lia|]. split.
      * intros item Hin. apply elem_of_cons in Hin as [->|Hin]; [lia|now apply Hall].
      * right. destruct Hsrc as [->|(item & Hin & Hidx)].
        -- exists a. split; [apply elem_of_cons; now left|reflexivity].
        -- exists item. split; [apply elem_of_cons; now right|assumption].
    + split; [lia|]. split.
      * intros item Hin. apply elem_of_cons in Hin as [->|Hin]; [lia|now apply Hall].
      * destruct Hsrc as [->|(item & Hin & Hidx)]; [now left|].
        right. exists item. split; [apply elem_of_cons; now right|assumption].
Qed.

Lemma bestIndex_facts (items : list string) :
  0 <= bestIndex items /\
  (forall item, item ∈ items -> getRarityIdx item <= bestIndex items) /\
  (bestIndex items = 0 \/
   exists item, item ∈ items /\ getRarityIdx item = bestIndex items).
Proof. exact (best_fold items 0). Qed.

Lemma bestIndex_range (items : list string) : 0 <= bestIndex items <= 5.
Proof.
  destruct (bestIndex_facts items) as (Hle & _ & Hsrc).
  split; [exact Hle|].
  destruct Hsrc as [->|(item & _ & <-)]; [lia|]. apply getRarityIdx_range.
Qed.

Lemma getBestRarity_index (items : list string) :
  exists b, getBestRarity items = Some b /\ getRarityIdx b = bestIndex items.
Proof.
  pose proof (bestIndex_range items) as Hr.
  destruct (arrayGet_in_range RARITY_ORDER (bestIndex items) ltac:(simpl; lia))
    as (b & Hget & Hlook).
  exists b. split; [exact Hget|].
  unfold getRarityIdx. rewrite (indexOf_position _ _ _ RARITY_ORDER_NoDup Hlook). lia.
Qed.

(** X23.  [getBestRarity] always returns one of the six rarities, never
    [undefined]: "common" for no items or only common or unknown ones,
    otherwise the item that comes last in [RARITY_ORDER]; no item ranks above
    the one returned. *)
Theorem getBestRarity_spec (items : list string) :
  exists b,
    getBestRarity items = Some b /\
    b ∈ RARITY_ORDER /\
    (forall item, item ∈ items -> getRarityIdx item <= getRarityIdx b) /\
    (b = "common" \/ b ∈ items) /\
    ((forall item, item ∈ items -> getRarityIdx item <= 0) -> b = "common").
Proof.
  destruct (getBestRarity_index items) as (b & Hget & Hidx).
  pose proof (bestIndex_range items) as Hr.
  destruct (bestIndex_facts items) as (_ & Hall & Hsrc).
  assert (Hlook : RARITY_ORDER !! Z.to_nat (bestIndex items) = Some b).
  { rewrite <- Hidx. apply indexOf_lookup. fold (getRarityIdx b). lia. }
  assert (Hzero : bestIndex items = 0 -> b = "common").
  { intros Hz. rewrite Hz in Hlook. now injection Hlook as <-. }
  exists b. split; [exact Hget|]. split; [|split; [|split]].
  - eapply list_elem_of_lookup_2, Hlook.
  - intros item Hin. rewrite Hidx. now apply Hall.
  - destruct Hsrc as [Hz|(item & Hin & Hitem)]; [left; now apply Hzero|].
    destruct (Z.eq_dec (bestIndex items) 0) as [Hz|Hnz]; [left; now apply Hzero|].
    right. assert (Hpos : 0 <= getRarityIdx item) by lia.
    pose proof (indexOf_lookup RARITY_ORDER item Hpos) as Hl.
    fold (getRarityIdx item) in Hl. rewrite Hitem, Hlook in Hl.
    injection Hl as ->. exact Hin.
  - intros Hlow. apply Hzero.
    destruct Hsrc as [Hz|(item & Hin & Hitem)]; [exact Hz|].
    specialize (Hlow item Hin). lia.
Qed.

Lemma insertByRarity_permutation (a : string) (sorted : list string) :
  insertByRarity a sorted ≡ₚ a :: sorted.
Proof.
  induction sorted as [|b sorted IH]; simpl; [reflexivity|].
  destruct (getRarityIdx a <=? getRarityIdx b); [reflexivity|].
  rewrite IH. apply Permutation_swap.
Qed.

Lemma insertByRarity_sorted (a : string) (sorted : list string) :
  StronglySorted (fun x y => getRarityIdx x <= getRarityIdx y) sorted ->
  StronglySorted (fun x y => getRarityIdx x <= getRarityIdx y) (insertByRarity a sorted).
Proof.
  induction 1 as [|b sorted Hs IH Hb]; simpl; [repeat constructor|].
  destruct (Z.leb_spec (getRarityIdx a) (getRarityIdx b)) as [Hle|Hgt].
  - constructor; [now constructor|]. constructor; [exact Hle|].
    eapply Forall_impl; [exact Hb|]. intros y Hy. simpl in *. lia.
  - constructor; [exact IH|].
    rewrite (insertByRarity_permutation a sorted). constructor; [lia|exact Hb].
Qed.

(** A stable insertion: items of a given rank keep their order. *)
Lemma insertByRarity_stable (k : Z) (a : string) (sorted : list string) :
  StronglySorted (fun x y => getRarityIdx x <= getRarityIdx y) sorted ->
  filter (fun x => getRarityIdx x = k) (insertByRarity a sorted) =
  filter (fun x => getRarityIdx x = k) (a :: sorted).
Proof.
  induction 1 as [|b sorted Hs IH Hb]; simpl; [reflexivity|].
  destruct (Z.leb_spec (getRarityIdx a) (getRarityIdx b)) as [Hle|Hgt]; [reflexivity|].
  destruct (decide (getRarityIdx b = k)) as [Hbk|Hbk].
  - rewrite (filter_cons_True _ b) by exact Hbk. rewrite IH.
    rewrite (filter_cons_False _ a) by lia.
    rewrite (filter_cons_False _ a) by lia.
    now rewrite (filter_cons_True _ b) by exact Hbk.
  - rewrite (filter_cons_False _ b) by exact Hbk. rewrite IH.
    destruct (decide (getRarityIdx a = k)) as [Hak|Hak].
    + rewrite !(filter_cons_True _ a) by exact Hak.
      now rewrite (filter_cons_False _ b) by exact Hbk.
    + rewrite !(filter_cons_False _ a) by exact Hak.
      now rewrite (filter_cons_False _ b) by exact Hbk.
Qed.

Lemma sortByRarity_sorted (items : list string) :
  StronglySorted (fun x y => getRarityIdx x <= getRarityIdx y) (sortByRarity items).
Proof.
  induction items as [|a items IH]; simpl; [constructor|].
  now apply insertByRarity_sorted.
Qed.

Lemma sortByRarity_permutation (items : list string) : sortByRarity items ≡ₚ items.
Proof.
  induction items as [|a items IH]; simpl; [reflexivity|].
  now rewrite insertByRarity_permutation, IH.
Qed.

(** X24.  The items are revealed in an order that is a rearrangement of what
    the batch returned, from the lowest rarity to the highest (unknown names
    first), items of the same rarity keeping their draw order. *)
Theorem sortByRarity_spec (items : list string) :
  sortByRarity items ≡ₚ items /\
  StronglySorted (fun x y => getRarityIdx x <= getRarityIdx y) (sortByRarity items) /\
  (forall k : Z,
      filter (fun x => getRarityIdx x = k) (sortByRarity items) =
      filter (fun x => getRarityIdx x = k) items).
Proof.
  split; [apply sortByRarity_permutation|]. split; [apply sortByRarity_sorted|].
  intros k. induction items as [|a items IH]; [reflexivity|]. simpl.
  rewrite insertByRarity_stable by apply sortByRarity_sorted.
  destruct (decide (getRarityIdx a = k)) as [Hak|Hak].
  - rewrite !(filter_cons_True _ a) by exact Hak. now rewrite IH.
  - rewrite !(filter_cons_False _ a) by exact Hak. exact IH.
Qed.

End Rarities.

(* ===================================================================== *)
(** ** App.tsx: the reveal of a batch                                     *)
(* ===================================================================== *)

Section Reveal.
Import App.

Lemma getRevealDelay_range (rarity : string) : 150 <= getRevealDelay rarity <= 650.
Proof.
  unfold getRevealDelay.
  repeat match goal with |- context [if ?c then _ else _] => destruct c end; lia.
Qed.

Lemma scheduleFrom_spec (i len : nat) (b c : Z) (sorted : list string) :
  let rs := fst (scheduleFrom i len b c sorted) in
  let final := snd (scheduleFrom i len b c sorted) in
  item <$> rs = sorted /\
  (forall rv, rs !! 0%nat = Some rv ->
     delay rv = c + (if (i =? 0)%nat then 100 else getRevealDelay (item rv))) /\
  (forall k rv rv', rs !! k = Some rv -> rs !! S k = Some rv' ->
     delay rv' = delay rv + getRevealDelay (item rv')) /\
  final = match last rs with Some rv => delay rv | None => c end /\
  (forall k rv, rs !! k = Some rv ->
     isBest rv = (Z.of_nat (i + k) =? Z.of_nat len - 1) && (2 <=? b) /\
     isRarePlus rv = (2 <=? getRarityIdx (item rv))).
Proof.
  revert i c. induction sorted as [|it sorted IH]; intros i c; cbn [scheduleFrom].
  - simpl. repeat split; try discriminate.
  - specialize (IH (S i) (c + (if (i =? 0)%nat then 100 else getRevealDelay it))).
    destruct (scheduleFrom (S i) len b
                (c + (if (i =? 0)%nat then 100 else getRevealDelay it)) sorted)
      as [rs' final'].
    cbn [fst snd] in *. destruct IH as (Hitems & Hhead & Hstep & Hfinal & Hflags).
    split; [cbn; now rewrite Hitems|]. split; [|split; [|split]].
    + intros rv [= <-]. reflexivity.
    + intros [|k] rv rv' Hk Hk'; cbn in Hk, Hk'.
      * injection Hk as <-. rewrite (Hhead rv' Hk'). cbn. reflexivity.
      * exact (Hstep k rv rv' Hk Hk').
    + rewrite last_cons, Hfinal. now destruct (last rs').
    + intros [|k] rv Hk; cbn in Hk.
      * injection Hk as <-. cbn. now rewrite Nat.add_0_r.
      * destruct (Hflags k rv Hk) as [Hb Hr]. split; [|exact Hr].
        rewrite Hb. now replace (i + S k)%nat with (S i + k)%nat by lia.
Qed.

Lemma scheduleFrom_bounds (i len : nat) (b c : Z) (sorted : list string) :
  c <= snd (scheduleFrom i len b c sorted) /\
  forall rv, rv ∈ fst (scheduleFrom i len b c sorted) ->
    c + 100 <= delay rv <= snd (scheduleFrom i len b c sorted).
Proof.
  revert i c. induction sorted as [|it sorted IH]; intros i c; cbn [scheduleFrom].
  - simpl. split; [lia|]. intros rv Hin. now apply elem_of_nil in Hin.
  - pose proof (getRevealDelay_range it) as Hd.
    assert (Hstep : 100 <= (if (i =? 0)%nat then 100 else getRevealDelay it))
      by (destruct (i =? 0)%nat; lia).
    specialize (IH (S i) (c + (if (i =? 0)%nat then 100 else getRevealDelay it))).
    destruct (scheduleFrom (S i) len b
                (c + (if (i =? 0)%nat then 100 else getRevealDelay it)) sorted)
      as [rs' final'].
    cbn [fst snd] in *. destruct IH as [Hle Hall]. split; [lia|].
    intros rv Hin. apply elem_of_cons in Hin as [->|Hin]; [cbn; lia|].
    specialize (Hall rv Hin). lia.
Qed.

Lemma openItems_unfold (items : list string) :
  exists b,
    getBestRarity (sortByRarity items) = Some b /\
    bestIdx (openItems items) = getRarityIdx b /\
    bestIdx (openItems items) = bestIndex (sortByRarity items) /\
    sorted (openItems items) = sortByRarity items /\
    reveals (openItems items) =
      fst (scheduleFrom 0 (length (sortByRarity items)) (getRarityIdx b) 0
             (sortByRarity items)) /\
    doneDelay (openItems items) =
      snd (scheduleFrom 0 (length (sortByRarity items)) (getRarityIdx b) 0
             (sortByRarity items)) + 800.
Proof.
  destruct (getBestRarity_index (sortByRarity items)) as (b & Hget & Hidx).
  exists b. unfold openItems. rewrite Hget.
  destruct (scheduleFrom 0 _ _ 0 _) as [rs final]. cbn. now repeat split.
Qed.

(** The last item of a list sorted by rarity ranks highest. *)
Lemma sorted_last_highest (l : list string) (x y : string) :
  StronglySorted (fun a b => getRarityIdx a <= getRarityIdx b) l ->
  last l = Some x -> y ∈ l -> getRarityIdx y <= getRarityIdx x.
Proof.
  intros Hs Hlast Hy. apply last_Some in Hlast as [l' ->].
  apply elem_of_app in Hy as [Hy|Hy].
  - apply (StronglySorted_app_1_elem_of
             (fun a b => getRarityIdx a <= getRarityIdx b) l' [x] y x Hs Hy).
    apply elem_of_cons. now left.
  - apply elem_of_cons in Hy as [->|Hy]; [lia|]. now apply elem_of_nil in Hy.
Qed.

(** X25.  When a batch is opened, the reveals are the batch's items from the
    lowest rarity to the highest; [bestIdx] is the highest rank among them
    (0 when there is none above common); the only reveal flagged best is the
    last one, it is flagged exactly when [bestIdx >= 2], and then its item
    has rank [bestIdx] and is flagged rare-plus too. *)
Theorem openItems_best (items : list string) :
  let op := openItems items in
  sorted op ≡ₚ items /\
  item <$> reveals op = sorted op /\
  0 <= bestIdx op <= 5 /\
  (forall it, it ∈ items -> getRarityIdx it <= bestIdx op) /\
  (forall k rv, reveals op !! k = Some rv ->
     (isBest rv = true <-> S k = length items /\ 2 <= bestIdx op)) /\
  (forall rv, rv ∈ reveals op -> isBest rv = true ->
     last (reveals op) = Some rv /\
     getRarityIdx (item rv) = bestIdx op /\ isRarePlus rv = true).
Proof.
  intros op. unfold op.
  destruct (openItems_unfold items) as (b & Hget & Hb & Hbest & Hsorted & Hrev & _).
  pose proof (scheduleFrom_spec 0 (length (sortByRarity items)) (getRarityIdx b) 0
                (sortByRarity items)) as (Hitems & _ & _ & _ & Hflags).
  cbn zeta in Hitems, Hflags. rewrite <- Hrev in Hitems, Hflags. rewrite <- Hb in Hflags.
  pose proof (sortByRarity_permutation items) as Hperm.
  pose proof (bestIndex_facts (sortByRarity items)) as (_ & Hall & Hsrc).
  assert (Hlen : length (sortByRarity items) = length items) by now rewrite Hperm.
  assert (Hflag : forall k rv, reveals (openItems items) !! k = Some rv ->
            (isBest rv = true <-> S k = length items /\ 2 <= bestIdx (openItems items))).
  { intros k rv Hk. destruct (Hflags k rv Hk) as [Hbst _]. rewrite Hbst, Hlen.
    rewrite andb_true_iff, Z.eqb_eq, Z.leb_le. simpl. split; intros [H1 H2]; split; lia. }
  split; [now rewrite Hsorted|]. split; [now rewrite Hsorted|].
  split; [rewrite Hbest; apply bestIndex_range|]. split; [|split; [exact Hflag|]].
  - intros it Hin. rewrite Hbest. apply Hall. now rewrite Hperm.
  - intros rv Hin Hbst. apply list_elem_of_lookup in Hin as [k Hk].
    destruct (Hflag k rv Hk) as [Hto _]. destruct (Hto Hbst) as [Hk_last Hge].
    assert (Hrl : length (reveals (openItems items)) = length items).
    { rewrite <- Hlen, <- Hitems. now rewrite length_fmap. }
    assert (Hlast : last (reveals (openItems items)) = Some rv).
    { rewrite last_lookup, Hrl, <- Hk_last. exact Hk. }
    assert (Hlast' : last (sortByRarity items) = Some (item rv)).
    { rewrite <- Hitems, fmap_last, Hlast. reflexivity. }
    destruct (Hflags k rv Hk) as [_ Hrp].
    assert (Hrank : getRarityIdx (item rv) = bestIdx (openItems items)).
    { rewrite Hbest. apply Z.le_antisymm.
      - apply Hall. rewrite <- Hitems. apply list_elem_of_fmap_2.
        eapply list_elem_of_lookup_2, Hk.
      - destruct Hsrc as [Hz|(z & Hz & Hidx)]; [rewrite Hbest in Hge; lia|].
        rewrite <- Hidx.
        exact (sorted_last_highest _ _ z (sortByRarity_sorted items) Hlast' Hz). }
    split; [exact Hlast|]. split; [exact Hrank|].
    rewrite Hrp. apply Z.leb_le. lia.
Qed.

(** X26.  The reveal timers: the first item is shown after 100 ms, each next
    one between 150 and 650 ms after the one before (by the rarity it shows),
    so the items appear one after the other in sorted order; and the
    animation is released 800 ms after the last reveal (after 800 ms when
    there is nothing to show). *)
Theorem reveal_schedule (items : list string) :
  let op := openItems items in
  length (reveals op) = length items /\
  (forall rv, reveals op !! 0%nat = Some rv -> delay rv = 100) /\
  (forall k rv rv', reveals op !! k = Some rv -> reveals op !! S k = Some rv' ->
     delay rv' = delay rv + getRevealDelay (item rv') /\
     150 <= delay rv' - delay rv <= 650) /\
  (forall rv, rv ∈ reveals op -> 100 <= delay rv /\ delay rv + 800 <= doneDelay op) /\
  doneDelay op = 800 + match last (reveals op) with
                       | Some rv => delay rv
                       | None => 0
                       end.
Proof.
  intros op. unfold op.
  destruct (openItems_unfold items) as (b & _ & _ & _ & _ & Hrev & Hdone).
  pose proof (scheduleFrom_spec 0 (length (sortByRarity items)) (getRarityIdx b) 0
                (sortByRarity items)) as (Hitems & Hhead & Hstep & Hfinal & _).
  pose proof (scheduleFrom_bounds 0 (length (sortByRarity items)) (getRarityIdx b) 0
                (sortByRarity items)) as [_ Hbounds].
  cbn zeta in Hitems, Hhead, Hstep, Hfinal.
  rewrite <- Hrev in Hitems, Hhead, Hstep, Hfinal, Hbounds.
  split; [|split; [|split; [|split]]].
  - transitivity (length (sortByRarity items)).
    + rewrite <- Hitems. now rewrite length_fmap.
    + now rewrite sortByRarity_permutation.
  - intros rv H0. rewrite (Hhead rv H0). reflexivity.
  - intros k rv rv' Hk Hk'. rewrite (Hstep k rv rv' Hk Hk').
    pose proof (getRevealDelay_range (item rv')). split; [reflexivity|lia].
  - intros rv Hin. specialize (Hbounds rv Hin). rewrite Hdone. lia.
  - rewrite Hdone, Hfinal. lia.
Qed.

End Reveal.

(* ===================================================================== *)
(** ** App.tsx: aura, fragments and the observed counts                   *)
(* ===================================================================== *)

Section AppState.
Import Chest ChestSpec App.

(** X27.  The aura intensity is a value of [[0, 1]]: 0 until the rare streak
    passes 15 or the epic streak passes 30, and 1 from a rare streak of 65 or
    an epic streak of 130 on.  The fragment progress of a non-negative
    fragment count is a value of [[0, 1]] too. *)
Theorem aura_and_progress_range (streakRare streakEpic fragments : Z) :
  (0 <= auraIntensity streakRare streakEpic)%Q /\
  (auraIntensity streakRare streakEpic <= 1)%Q /\
  ((auraIntensity streakRare streakEpic == 0)%Q <->
   streakRare <= 15 /\ streakEpic <= 30) /\
  (65 <= streakRare \/ 130 <= streakEpic ->
   (auraIntensity streakRare streakEpic == 1)%Q) /\
  (0 <= fragments ->
   (0 <= fragmentProgress fragments)%Q /\ (fragmentProgress fragments <= 1)%Q).
Proof.
  assert (Hr : forall z c : Z, (inject_Z z <= inject_Z c)%Q <-> z <= c)
    by (intros; apply inject_Z_le).
  pose proof (Hr streakRare 15) as Hr15. pose proof (Hr streakEpic 30) as He30.
  pose proof (Hr 65 streakRare) as Hr65. pose proof (Hr 130 streakEpic) as He130.
  change (inject_Z 15) with 15%Q in Hr15. change (inject_Z 30) with 30%Q in He30.
  change (inject_Z 65) with 65%Q in Hr65. change (inject_Z 130) with 130%Q in He130.
  unfold auraIntensity.
  set (a := inject_Z streakRare) in *. set (e := inject_Z streakEpic) in *.
  assert (Hhalf : (e / 2 == e * (1 # 2))%Q) by field.
  assert (Hs : (a <= Qmax a (e / 2))%Q /\ (e * (1 # 2) <= Qmax a (e / 2))%Q /\
               ((Qmax a (e / 2) == a)%Q \/ (Qmax a (e / 2) == e * (1 # 2))%Q)).
  { destruct (Q.max_spec a (e / 2)) as [[H E]|[H E]]; rewrite Hhalf in H.
    - split; [rewrite E; lra|]. split; [rewrite E; lra|]. right. now rewrite E.
    - split; [rewrite E; lra|]. split; [rewrite E; lra|]. left. exact E. }
  set (s := Qmax a (e / 2)) in *. destruct Hs as (Hsa & Hse & Hsrc).
  assert (Hdiv : ((s - 15) / 50 == (s - 15) * (1 # 50))%Q) by field.
  assert (Haura : (15 <= s)%Q ->
            (0 <= Qmin ((s - 15) / 50) 1)%Q /\ (Qmin ((s - 15) / 50) 1 <= 1)%Q /\
            ((Qmin ((s - 15) / 50) 1 == 0)%Q <-> (s <= 15)%Q) /\
            ((65 <= s)%Q -> (Qmin ((s - 15) / 50) 1 == 1)%Q)).
  { intros H15. destruct (Q.min_spec ((s - 15) / 50) 1) as [[H E]|[H E]];
      rewrite E; rewrite Hdiv in *; repeat split; intros; lra. }
  split; [|split; [|split; [|split]]].
  - destruct (Qle_bool 15 s) eqn:E; [|lra]. apply Qle_bool_iff in E.
    now destruct (Haura E).
  - destruct (Qle_bool 15 s) eqn:E; [|lra]. apply Qle_bool_iff in E.
    now destruct (Haura E) as (_ & H & _).
  - destruct (Qle_bool 15 s) eqn:E.
    + apply Qle_bool_iff in E. destruct (Haura E) as (_ & _ & Hz & _).
      rewrite Hz. split.
      * intros Hle. split; [apply Hr15|apply He30]; lra.
      * intros [H1 H2]. apply Hr15 in H1. apply He30 in H2.
        destruct Hsrc as [-> | ->]; lra.
    + apply Qle_bool_false in E. split; [|reflexivity].
      intros _. split; [apply Hr15|apply He30]; lra.
  - intros Hbig.
    assert (H65 : (65 <= s)%Q).
    { destruct Hbig as [H|H]; [apply Hr65 in H|apply He130 in H]; lra. }
    assert (E : Qle_bool 15 s = true) by (apply Qle_bool_iff; lra).
    rewrite E. apply Qle_bool_iff in E. now apply (Haura E).
  - intros Hf. unfold fragmentProgress, EPIC_CHEST_FRAGMENTS, RARE_CHEST_FRAGMENTS.
    destruct (Z.leb_spec 50 fragments) as [H50|H50]; [split; lra|].
    pose proof (Hr 0 fragments) as H0. pose proof (Hr fragments 50) as H50'.
    pose proof (Hr 20 fragments) as H20. pose proof (Hr fragments 20) as H20'.
    change (inject_Z 0) with 0%Q in H0. change (inject_Z 50) with 50%Q in H50'.
    change (inject_Z 20) with 20%Q in H20, H20'.
    destruct (Z.leb_spec 20 fragments) as [Hge|Hlt].
    + rewrite <- Z.add_opp_r, inject_Z_plus. change (inject_Z (50 - 20)) with 30%Q.
      change (inject_Z (- 20)) with (- 20)%Q.
      assert (Hd : ((inject_Z fragments + - 20) / 30
                    == (inject_Z fragments - 20) * (1 # 30))%Q) by field.
      rewrite Hd. apply H20 in Hge. assert (fragments <= 50) as Hle by lia.
      apply H50' in Hle. split; lra.
    + change (inject_Z 20) with 20%Q.
      assert (Hd : (inject_Z fragments / 20 == inject_Z fragments * (1 # 20))%Q) by field.
      rewrite Hd. apply H0 in Hf. assert (fragments <= 20) as Hle by lia.
      apply H20' in Hle. split; lra.
Qed.

Lemma aura_and_progress_range_witness :
  (0 <= fragmentProgress 35)%Q /\ (fragmentProgress 35 <= 1)%Q.
Proof.
  apply (proj2 (proj2 (proj2 (proj2 (aura_and_progress_range 0 0 35))))).
  discriminate.
Defined.

Lemma fragmentsAfter_step (n : nat) :
  fragmentsAfter (S n) = nextFragments (fragmentsAfter n).
Proof. reflexivity. Qed.

Lemma fragmentsAfter_formula (n : nat) :
  (1 <= n)%nat -> fragmentsAfter n = Z.of_nat (n - 1) mod 20 + 1.
Proof.
  induction n as [|n IH]; [lia|]. intros _.
  rewrite fragmentsAfter_step.
  destruct n as [|n]; [reflexivity|].
  rewrite IH by lia.
  unfold nextFragments, EPIC_CHEST_FRAGMENTS, RARE_CHEST_FRAGMENTS.
  replace (Z.of_nat (S (S n) - 1)) with (Z.of_nat (S n - 1) + 1) by lia.
  set (k := Z.of_nat (S n - 1)).
  assert (Hk : 0 <= k) by (unfold k; lia).
  destruct (Z.leb_spec 50 (k mod 20 + 1)); destruct (Z.leb_spec 20 (k mod 20 + 1));
    Z.div_mod_to_equations; lia.
Qed.

(** X28.  Counting from a reset, the fragment count after [n >= 1] openings
    is [(n - 1) mod 20 + 1]: it cycles through 1..20 and never reaches the 50
    of an epic chest.  An opening that finds 20 fragments opens a rare chest
    whatever chest is active; one that finds fewer opens the active chest, a
    normal one being upgraded to epic only by an upgrade roll below 0.005. *)
Theorem fragments_cycle (n : nat) :
  0 <= fragmentsAfter n <= 20 /\
  ((1 <= n)%nat -> fragmentsAfter n = Z.of_nat (n - 1) mod 20 + 1) /\
  (forall (activeChest : ChestType) (upgradeRoll : Q),
      (fragmentsAfter n = 20 ->
       chooseChest activeChest (fragmentsAfter n) upgradeRoll = rare) /\
      (fragmentsAfter n < 20 ->
       chooseChest activeChest (fragmentsAfter n) upgradeRoll = epic ->
       activeChest = epic \/ (activeChest = normal /\ (upgradeRoll < 5 # 1000)%Q)) /\
      (fragmentsAfter n < 20 -> activeChest <> normal ->
       chooseChest activeChest (fragmentsAfter n) upgradeRoll = activeChest)).
Proof.
  assert (Hrange : 0 <= fragmentsAfter n <= 20).
  { destruct n as [|n]; [cbn; lia|].
    rewrite fragmentsAfter_formula by lia.
    pose proof (Z.mod_pos_bound (Z.of_nat (S n - 1)) 20 ltac:(lia)). lia. }
  split; [exact Hrange|]. split; [apply fragmentsAfter_formula|].
  intros activeChest upgradeRoll.
  unfold chooseChest, EPIC_CHEST_FRAGMENTS, RARE_CHEST_FRAGMENTS.
  destruct (Z.leb_spec 50 (fragmentsAfter n)) as [H50|_]; [lia|].
  destruct (Z.leb_spec 20 (fragmentsAfter n)) as [H20|H20].
  - split; [reflexivity|]. split; intros; lia.
  - split; [lia|]. split.
    + intros _ Hc. destruct activeChest; try discriminate; [|now left].
      right. split; [reflexivity|].
      destruct (Qle_bool (5 # 1000) upgradeRoll) eqn:E; cbn in Hc.
      * destruct (negb _); discriminate.
      * now apply Qle_bool_false in E.
    + intros _ Hne. now destruct activeChest.
Qed.

Lemma fragments_cycle_witness : fragmentsAfter 41 = 1.
Proof.
  rewrite (proj1 (proj2 (fragments_cycle 41))); [reflexivity|lia].
Defined.

End AppState.

(* ===================================================================== *)
(** ** App.tsx: what the statistics panel counts                          *)
(* ===================================================================== *)

Section Observed.
Import Chest ChestSpec App.









Lemma rarityPool_always_drops (r : Roller) (chest : ChestType) (hotStreakRolls : Z) :
  pool r = Some rarityPool -> chestConfigs r = CHEST_CONFIGS ->
  sumWeights (eligibleEntries r chest (effectiveBoost hotStreakRolls)) <> 0.
Proof.
  intros Hp Hc. unfold eligibleEntries. rewrite Hp, Hc. unfold effectiveBoost.
  destruct (0 <? hotStreakRolls); destruct chest; vm_compute; discriminate.
Qed.

Lemma effectiveMultiplier_ge (dropMultiplier : Q) (x2RollsLeft : Z) :
  (1 <= dropMultiplier)%Q -> (1 <= effectiveMultiplier dropMultiplier x2RollsLeft)%Q.
Proof.
  intros Hd. unfold effectiveMultiplier. destruct (0 <? x2RollsLeft); [|exact Hd].
  destruct (Q.max_spec dropMultiplier 2) as [[_ E]|[_ E]]; rewrite E; lra.
Qed.

(** X30.  The batch [onLoot] asks for, on the pool and chest table the App
    mounts: whatever chest is active, whatever the fragments, streaks and
    samples, and for every drop multiplier of at least 1, [getLoots] does not
    throw and returns at least 1 and at most 20 items, at most twice the
    [maxRolls] of the chest opened. *)
Theorem onLoot_batch
    (r : Roller) (activeChest : ChestType) (fragments x2RollsLeft hotStreakRolls : Z)
    (upgradeRoll dropMultiplier rndCount : Q) (rnds : nat -> Q) :
  pool r = Some rarityPool -> chestConfigs r = CHEST_CONFIGS ->
  unitSample rndCount -> (forall k, unitSample (rnds k)) ->
  (1 <= dropMultiplier)%Q ->
  let chest := chooseChest activeChest fragments upgradeRoll in
  let options := lootOptions chest (effectiveMultiplier dropMultiplier x2RollsLeft)
                   (effectiveBoost hotStreakRolls) in
  exists items r',
    getLoots options rndCount rnds r = (Normal items, r') /\
    1 <= Z.of_nat (length items) <= maxRolls (CHEST_CONFIGS chest) * 2 /\
    Z.of_nat (length items) <= 20 /\
    getRollCount r' = getRollCount r + Z.of_nat (length items).
Proof.
  intros Hp Hc Hrnd Hrnds Hd chest options.
  assert (Hwf : wellFormed r).
  { split; [rewrite Hp; repeat constructor; discriminate|].
    rewrite Hc. exact (proj2 rarityRoller_wellFormed). }
  assert (Hplain : plainNames (poolEntries (pool r)))
    by (rewrite Hp; exact rarityPool_plain).
  assert (Hmax : (resolveMaxRolls options r == inject_Z (maxRolls (CHEST_CONFIGS chest)))%Q)
    by (unfold resolveMaxRolls; cbn; now rewrite Hc).
  assert (Hsmall : 1 <= maxRolls (CHEST_CONFIGS chest) <= 10)
    by (destruct chest; cbn; unfold MAX_ROLL_COUNT; lia).
  pose proof (effectiveMultiplier_ge dropMultiplier x2RollsLeft Hd) as Hmul.
  pose proof (rarityPool_always_drops r chest hotStreakRolls Hp Hc) as Hnz.
  destruct (getLoots_full_batch r options rndCount rnds (maxRolls (CHEST_CONFIGS chest))
              Hwf Hplain Hrnd Hrnds Hmax ltac:(lia) Hmul Hnz)
    as (items & r' & Hget & _ & Hbase & Htop & Hcount).
  exists items, r'. unfold getRollCount. repeat split; try assumption; lia.
Qed.

Lemma onLoot_batch_witness :
  exists items r',
    getLoots (lootOptions (chooseChest normal 20 (1 # 2)) (effectiveMultiplier 1 3)
                (effectiveBoost 1))
      (1 # 2) (fun _ => (1 # 2)%Q) rarityRoller = (Normal items, r') /\
    1 <= Z.of_nat (length items) <= 20.
Proof.
  destruct (onLoot_batch rarityRoller normal 20 3 1 (1 # 2) 1 (1 # 2)
              (fun _ => (1 # 2)%Q) eq_refl eq_refl unitSample_half
              (fun _ => unitSample_half) ltac:(discriminate))
    as (items & r' & Hget & [Hone _] & Htwenty & _).
  exists items, r'. split; [exact Hget|]. split; assumption.
Defined.

End Observed.
